(** * Blinko note and follow routers: a shallow embedding

    The development follows [src/server/routers/note.ts] and
    [src/server/routers/follows.ts].  JavaScript strings are sequences of
    UTF-16 code units, the relational store is a record of tables (lists of
    rows, because row order and duplicates are observable through
    [findFirst] and [findMany]), and every handler is a function in a
    state-and-error monad over that store. *)

From Stdlib Require Import String Ascii DecimalString DecimalPos DecimalZ.
From Stdlib Require Import List ZArith NArith Bool Lia.
Import ListNotations.

(* ================================================================== *)
(** ** JavaScript strings *)
(* ================================================================== *)

Module JsString.

(** A string is the list of its UTF-16 code units. *)
Definition str := list N.

(** ASCII literal to code units. *)
Definition lit (s : string) : str :=
  List.map N_of_ascii (list_ascii_of_string s).

Definition str_eqb (a b : str) : bool :=
  if list_eq_dec N.eq_dec a b then true else false.

(** The regular-expression class [\s]: ECMAScript WhiteSpace and
    LineTerminator code points. *)
Definition isSpace (c : N) : bool :=
  ((9 <=? c) && (c <=? 13) || (c =? 32) || (c =? 160) || (c =? 5760)
   || (8192 <=? c) && (c <=? 8202) || (c =? 8232) || (c =? 8233)
   || (c =? 8239) || (c =? 8287) || (c =? 12288) || (c =? 65279))%N.

Fixpoint startsWith (p s : str) : bool :=
  match p, s with
  | [], _ => true
  | _ :: _, [] => false
  | a :: p', b :: s' => (a =? b)%N && startsWith p' s'
  end.

(** Offset of the first occurrence of [p] in [s]. *)
Fixpoint indexOf (p s : str) : option nat :=
  if startsWith p s then Some 0
  else match s with
       | [] => None
       | _ :: r => option_map S (indexOf p r)
       end.

Definition endsWith (p s : str) : bool := startsWith (rev p) (rev s).

(** [s.replace(/p/g, rep)] for a literal, non-empty pattern [p]: matches
    are taken from left to right and do not overlap. *)
Fixpoint replaceAllFrom (p rep : str) (skip : nat) (s : str) : str :=
  match s with
  | [] => []
  | c :: r =>
    match skip with
    | S k => replaceAllFrom p rep k r
    | O =>
      if startsWith p s then rep ++ replaceAllFrom p rep (length p - 1) r
      else c :: replaceAllFrom p rep 0 r
    end
  end.

Definition replaceAll (p rep s : str) : str := replaceAllFrom p rep 0 s.

(** [s.split(sep)] for a non-empty separator; [cur] is the piece being
    read, last unit first. *)
Fixpoint splitFrom (sep : str) (skip : nat) (cur : str) (s : str) : list str :=
  match s with
  | [] => [rev cur]
  | c :: r =>
    match skip with
    | S k => splitFrom sep k cur r
    | O =>
      if startsWith sep s then rev cur :: splitFrom sep (length sep - 1) [] r
      else splitFrom sep 0 (c :: cur) r
    end
  end.

Definition split (sep s : str) : list str := splitFrom sep 0 [] s.

(** A template literal [`${n}`] of an integer: its decimal digits, with
    a leading minus sign when negative. *)
Definition showZ (n : Z) : str :=
  lit (DecimalString.NilZero.string_of_int (Z.to_int n)).

(** [Number(s)] on the empty string and on an optional minus sign
    followed by decimal digits (what [showZ] prints); [None] stands for
    [NaN], which is the answer for a string that starts with a letter
    and for a lone minus sign.  The handlers below take [Number] as a
    parameter, so what is proved of them holds whatever [Number]
    answers; this instance serves to run them on strings of the shapes
    above. *)
Definition decimalNumber (s : str) : option Z :=
  match s with
  | [] => Some 0%Z
  | _ :: _ =>
    if forallb (fun c => c <? 256)%N s then
      option_map Z.of_int
        (NilZero.int_of_string (string_of_list_ascii (map ascii_of_N s)))
    else None
  end.

(** The delimiter of the composite keys of [upsert]. *)
Definition keyDelimiter : str := lit "<key>".

(** The string does not contain the key delimiter. *)
Definition noKey (name : str) : bool :=
  match indexOf keyDelimiter name with None => true | Some _ => false end.

(** No unit of the string is [<]. *)
Definition noLt (s : str) : bool := forallb (fun c => negb (c =? 60)%N) s.

End JsString.
Import JsString.

(* ================================================================== *)
(** ** Hashtag extraction ([extractHashtags], note.ts lines 14-19) *)
(* ================================================================== *)

Module Hashtag.

Definition fence : str := lit "```".
Definition hash : N := 35.

(** The input as the global regular expression [/```[\s\S]*?```/g] cuts
    it: a [Block] is one match (its body is what lies between the opening
    and the closing fence), a [Text] is one code unit outside every
    match. *)
Inductive piece :=
| Text (c : N)
| Block (body : str).

(** Left-to-right scan.  At a position that opens a fence the lazy body
    runs to the first closing fence that starts at least three units
    later; the scan resumes after that closing fence ([skip] counts the
    units of the current match still to pass).  Without a closing fence
    there is no match at this position and the unit is kept. *)
Fixpoint parseFences (skip : nat) (s : str) : list piece :=
  match s with
  | [] => []
  | c :: r =>
    match skip with
    | S k => parseFences k r
    | O =>
      if startsWith fence s then
        match indexOf fence (skipn 3 s) with
        | Some k => Block (firstn k (skipn 3 s)) :: parseFences (k + 5) r
        | None => Text c :: parseFences 0 r
        end
      else Text c :: parseFences 0 r
    end
  end.

Definition render1 (p : piece) : str :=
  match p with
  | Text c => [c]
  | Block b => fence ++ b ++ fence
  end.

Definition render (ps : list piece) : str := flat_map render1 ps.

Definition texts1 (p : piece) : str :=
  match p with
  | Text c => [c]
  | Block _ => []
  end.

(** What [replace(..., '')] leaves: the units outside the matches. *)
Definition texts (ps : list piece) : str := flat_map texts1 ps.

(** [input.replace(/```[\s\S]*?```/g, '')] *)
Definition withoutCodeBlocks (input : str) : str :=
  texts (parseFences 0 input).

(** The class [[^\s#]]. *)
Definition isTagChar (c : N) : bool := negb (isSpace c) && negb (c =? hash)%N.

(** Greedy [[^\s#]*]: the longest run and what follows it. *)
Fixpoint tagRun (s : str) : str * str :=
  match s with
  | [] => ([], [])
  | c :: r =>
    if isTagChar c then let (run, rest) := tagRun r in (c :: run, rest)
    else ([], s)
  end.

(** [(?<!:\/\/)]: the three units before the position are not [://].
    [before] holds the units before the position, nearest first. *)
Definition notAfterScheme (before : str) : bool :=
  negb (startsWith (rev (lit "://")) before).

(** [(?<=\s|^)]: start of the string, or a whitespace unit just before
    (there is no [m] flag, so [^] is the start of the string only). *)
Definition afterSpaceOrStart (before : str) : bool :=
  match before with
  | [] => true
  | c :: _ => isSpace c
  end.

(** [(?=\s|$)] *)
Definition beforeSpaceOrEnd (rest : str) : bool :=
  match rest with
  | [] => true
  | c :: _ => isSpace c
  end.

(** One attempt of
    [/(?<!:\/\/)(?<=\s|^)#[^\s#]+(?=\s|$)/] at the current position.
    The greedy run is maximal, so what follows it is the end, a
    whitespace unit or a [#]; giving units back only puts a tag
    character after the run, which the lookahead refuses as well. *)
Definition matchAt (before s : str) : option str :=
  if notAfterScheme before && afterSpaceOrStart before then
    match s with
    | c :: r =>
      if (c =? hash)%N then
        let (run, rest) := tagRun r in
        match run with
        | [] => None
        | _ :: _ => if beforeSpaceOrEnd rest then Some (c :: run) else None
        end
      else None
    | [] => None
    end
  else None.

(** [String.prototype.match] with the [g] flag: all matches from left to
    right, each attempt starting where the previous match ended. *)
Fixpoint matchAll (skip : nat) (before s : str) : list str :=
  match s with
  | [] => []
  | c :: r =>
    match skip with
    | S k => matchAll k (c :: before) r
    | O =>
      match matchAt before s with
      | Some tok => tok :: matchAll (length tok - 1) (c :: before) r
      | None => matchAll 0 (c :: before) r
      end
    end
  end.

(** [matches ? matches : []] : [null] (no match) becomes the empty array. *)
Definition extractHashtags (input : str) : list str :=
  matchAll 0 [] (withoutCodeBlocks input).

(** No unit of [s] is a backtick. *)
Definition noBacktick (s : str) : bool := forallb (fun c => negb (c =? 96)%N) s.

(** [tok] stands in [text] between whitespace or a boundary of [text]
    on both sides. *)
Definition delimitedIn (text tok : str) : Prop :=
  exists pre post, text = pre ++ tok ++ post
    /\ afterSpaceOrStart (rev pre) = true /\ beforeSpaceOrEnd post = true.

(** The same as a test: some occurrence of [tok] in [text], read after
    the units [before] (nearest first), is delimited on both sides. *)
Fixpoint occursDelimited (before text tok : str) : bool :=
  startsWith tok text && afterSpaceOrStart before
    && beforeSpaceOrEnd (skipn (length tok) text)
  || match text with
     | [] => false
     | c :: r => occursDelimited (c :: before) r tok
     end.

End Hashtag.

(* ================================================================== *)
(** ** The relational store *)
(* ================================================================== *)

Module Db.

Record notes := mkNote {
  note_id : Z;
  note_accountId : Z;
  note_content : str;
  note_type : Z;
  note_isArchived : bool;
  note_isRecycle : bool;
  note_isShare : bool;
  note_isTop : bool;
  note_isReviewed : bool }.

Record tag := mkTag {
  tag_id : Z;
  tag_name : str;
  tag_parent : Z;
  tag_accountId : Z }.

Record tagsToNote := mkTagsToNote {
  ttn_tagId : Z;
  ttn_noteId : Z }.

Record noteReference := mkNoteReference {
  ref_fromNoteId : Z;
  ref_toNoteId : Z }.

Record attachments := mkAttachment {
  att_id : Z;
  att_noteId : Z;
  att_name : str;
  att_path : str;
  att_size : Z }.

Inductive followType := following | follower.

Record follows := mkFollow {
  follow_id : Z;
  follow_type : followType;
  follow_siteUrl : str;
  follow_siteName : str;
  follow_siteAvatar : str;
  follow_accountId : Z }.

Record accounts := mkAccount {
  account_id : Z;
  account_name : str;
  account_nickname : option str;
  account_image : option str }.

(** The store: one list of rows per table, in insertion order, and the
    autoincrement sequences of the tables whose ids the handlers read. *)
Record store := mkStore {
  notesT : list notes;
  tagT : list tag;
  tagsToNoteT : list tagsToNote;
  noteReferenceT : list noteReference;
  attachmentsT : list attachments;
  followsT : list follows;
  accountsT : list accounts;
  nextNoteId : Z;
  nextTagId : Z;
  nextAttachmentId : Z;
  nextFollowId : Z }.

Inductive error :=
| CONFLICT (message : str)      (* TRPCError, code CONFLICT *)
| P2002                         (* unique constraint failed *)
| P2025                         (* record to update not found *)
| TypeError                     (* property of undefined, invalid URL *)
| AxiosError                    (* the remote request failed *)
| JsError (message : str).      (* new Error(message) *)

Inductive result (A : Type) :=
| Ok (a : A)
| Err (e : error).
Arguments Ok {A} a.
Arguments Err {A} e.

(** A handler step: it reads and writes the store and either returns or
    throws.  A throw keeps the writes made so far (there is no
    transaction unless [transaction] is used). *)
Definition M (A : Type) : Type := store -> result A * store.

Definition ret {A} (a : A) : M A := fun s => (Ok a, s).
Definition throw {A} (e : error) : M A := fun s => (Err e, s).
Definition bind {A B} (m : M A) (k : A -> M B) : M B :=
  fun s => match m s with
           | (Ok a, s') => k a s'
           | (Err e, s') => (Err e, s')
           end.
Definition get : M store := fun s => (Ok s, s).
Definition modify (f : store -> store) : M unit := fun s => (Ok tt, f s).

(** [try { m } catch (error) { h error }] *)
Definition try_catch {A} (m : M A) (h : error -> M A) : M A :=
  fun s => match m s with
           | (Ok a, s') => (Ok a, s')
           | (Err e, s') => h e s'
           end.

(** The store with the rows of [before] and the sequences of [after]:
    what a rolled-back transaction leaves.  The rows written inside the
    transaction are gone; the ids drawn from the autoincrement sequences
    are not given again. *)
Definition rollback (before after : store) : store :=
  mkStore (notesT before) (tagT before) (tagsToNoteT before)
          (noteReferenceT before) (attachmentsT before) (followsT before)
          (accountsT before)
          (nextNoteId after) (nextTagId after) (nextAttachmentId after)
          (nextFollowId after).

(** [prisma.$transaction(async (tx) => m)]: when the callback throws,
    the writes it made through [tx] are rolled back and the error is
    rethrown. *)
Definition transaction {A} (m : M A) : M A :=
  fun s => match m s with
           | (Ok a, s') => (Ok a, s')
           | (Err e, s') => (Err e, rollback s s')
           end.

(** [for (const x of xs) { body x }] *)
Fixpoint for_each {A} (xs : list A) (body : A -> M unit) : M unit :=
  match xs with
  | [] => ret tt
  | x :: xs' => bind (body x) (fun _ => for_each xs' body)
  end.

Definition run {A} (m : M A) (s : store) : result A * store := m s.

Definition memZ (x : Z) (l : list Z) : bool := existsb (Z.eqb x) l.
Definition memStr (x : str) (l : list str) : bool := existsb (str_eqb x) l.

(** lodash [_.difference(array, values)]: the elements of [array] that
    are not in [values], in the order (and with the repetitions) of
    [array]. *)
Definition differenceZ (array values : list Z) : list Z :=
  filter (fun x => negb (memZ x values)) array.
Definition differenceStr (array values : list str) : list str :=
  filter (fun x => negb (memStr x values)) array.

Definition set_notes (f : list notes -> list notes) (s : store) : store :=
  mkStore (f (notesT s)) (tagT s) (tagsToNoteT s) (noteReferenceT s)
          (attachmentsT s) (followsT s) (accountsT s)
          (nextNoteId s) (nextTagId s) (nextAttachmentId s) (nextFollowId s).
Definition set_tag (f : list tag -> list tag) (s : store) : store :=
  mkStore (notesT s) (f (tagT s)) (tagsToNoteT s) (noteReferenceT s)
          (attachmentsT s) (followsT s) (accountsT s)
          (nextNoteId s) (nextTagId s) (nextAttachmentId s) (nextFollowId s).
Definition set_tagsToNote (f : list tagsToNote -> list tagsToNote)
           (s : store) : store :=
  mkStore (notesT s) (tagT s) (f (tagsToNoteT s)) (noteReferenceT s)
          (attachmentsT s) (followsT s) (accountsT s)
          (nextNoteId s) (nextTagId s) (nextAttachmentId s) (nextFollowId s).
Definition set_noteReference (f : list noteReference -> list noteReference)
           (s : store) : store :=
  mkStore (notesT s) (tagT s) (tagsToNoteT s) (f (noteReferenceT s))
          (attachmentsT s) (followsT s) (accountsT s)
          (nextNoteId s) (nextTagId s) (nextAttachmentId s) (nextFollowId s).
Definition set_attachments (f : list attachments -> list attachments)
           (s : store) : store :=
  mkStore (notesT s) (tagT s) (tagsToNoteT s) (noteReferenceT s)
          (f (attachmentsT s)) (followsT s) (accountsT s)
          (nextNoteId s) (nextTagId s) (nextAttachmentId s) (nextFollowId s).
Definition set_follows (f : list follows -> list follows) (s : store) : store :=
  mkStore (notesT s) (tagT s) (tagsToNoteT s) (noteReferenceT s)
          (attachmentsT s) (f (followsT s)) (accountsT s)
          (nextNoteId s) (nextTagId s) (nextAttachmentId s) (nextFollowId s).

End Db.
Import Db.

Declare Scope db_scope.
Delimit Scope db_scope with db.
Notation "x <- m ;; k" := (bind m (fun x => k))
  (at level 61, m at next level, right associativity) : db_scope.
Notation "m ;;; k" := (bind m (fun _ => k))
  (at level 61, right associativity) : db_scope.
Open Scope db_scope.

(* ================================================================== *)
(** ** The follow router (follows.ts) *)
(* ================================================================== *)

Module Follows.

(** The [data] of [GET {origin}/api/v1/public/site-info]. *)
Record siteInfo := mkSiteInfo {
  site_id : Z;
  site_name : str;
  site_image : option str }.

(** The JSON body posted to [{origin}/api/v1/follows/follow-from]. *)
Record followFromBody := mkFollowFromBody {
  body_mySiteAccountId : Z;
  body_siteUrl : str;
  body_siteName : option str;
  body_siteAvatar : str }.

(** What lies outside the process: the URL parser and the remote site.
    [urlOrigin u] is [new URL(u).origin], [None] when the constructor
    throws; [axiosGet] and [axiosPost] answer [None] / [false] when the
    request fails (axios then throws). *)
Record world := mkWorld {
  urlOrigin : str -> option str;
  axiosGet : str -> option siteInfo;
  axiosPost : str -> followFromBody -> bool }.

Definition orThrow {A} (e : error) (o : option A) : M A :=
  match o with
  | Some a => ret a
  | None => throw e
  end.

Definition followType_eqb (a b : followType) : bool :=
  match a, b with
  | following, following | follower, follower => true
  | _, _ => false
  end.

Definition matchesFollow (siteUrl : str) (accountId : Z) (ty : followType)
           (f : follows) : bool :=
  str_eqb (follow_siteUrl f) siteUrl
  && (follow_accountId f =? accountId)%Z
  && followType_eqb (follow_type f) ty.

(** [tx.follows.findFirst({ where: { siteUrl, accountId, followType } })] *)
Definition follows_findFirst (siteUrl : str) (accountId : Z) (ty : followType)
  : M (option follows) :=
  s <- get ;;
  ret (find (matchesFollow siteUrl accountId ty) (followsT s)).

(** [tx.follows.create({ data })]: the row gets the next id of the
    sequence. *)
Definition follows_create (ty : followType) (siteUrl siteName siteAvatar : str)
           (accountId : Z) : M follows :=
  s <- get ;;
  let row := mkFollow (nextFollowId s) ty siteUrl siteName siteAvatar accountId in
  modify (fun s =>
    mkStore (notesT s) (tagT s) (tagsToNoteT s) (noteReferenceT s)
            (attachmentsT s) (followsT s ++ [row]) (accountsT s)
            (nextNoteId s) (nextTagId s) (nextAttachmentId s)
            (nextFollowId s + 1)%Z) ;;;
  ret row.

(** [tx.accounts.findUnique({ where: { id } })] *)
Definition accounts_findUnique (id : Z) : M (option accounts) :=
  s <- get ;;
  ret (find (fun a => (account_id a =? id)%Z) (accountsT s)).

(** A truthy string: neither [null]/[undefined] nor empty. *)
Definition truthyStr (o : option str) : option str :=
  match o with
  | Some ((_ :: _) as v) => Some v
  | _ => None
  end.

(** The callback handed to [prisma.$transaction] in [follow] (lines
    28-77): the whole body, the two remote requests included. *)
Definition followCallback (w : world) (ctx_id : Z) (siteUrl mySiteUrl : str)
  : M (bool * follows) :=
    siteUrl <- orThrow TypeError (urlOrigin w siteUrl) ;;
    mySiteUrl <- orThrow TypeError (urlOrigin w mySiteUrl) ;;
    let followerId := ctx_id in
    siteInfo <- orThrow AxiosError
                  (axiosGet w (siteUrl ++ lit "/api/v1/public/site-info")) ;;
    (* Check if already following *)
    existingFollow <- follows_findFirst siteUrl followerId following ;;
    match existingFollow with
    | Some _ => throw (CONFLICT (lit "Already following this site"))
    | None =>
      result <- follows_create following siteUrl (site_name siteInfo)
                  (match truthyStr (site_image siteInfo) with
                   | Some image => siteUrl ++ image
                   | None => []
                   end)
                  followerId ;;
      mySiteInfo <- accounts_findUnique ctx_id ;;
      let siteName :=
        match mySiteInfo with
        | Some a => match account_nickname a with
                    | Some n => Some n
                    | None => Some (account_name a)
                    end
        | None => None
        end in
      let siteAvatar :=
        mySiteUrl ++ match mySiteInfo with
                     | Some a => match account_image a with
                                 | Some i => i
                                 | None => lit "null"
                                 end
                     | None => lit "undefined"
                     end in
      (if axiosPost w (siteUrl ++ lit "/api/v1/follows/follow-from")
                    (mkFollowFromBody (site_id siteInfo) mySiteUrl
                                      siteName siteAvatar)
       then ret tt else throw AxiosError) ;;;
      ret (true, result)
    end.

(** [follow] (lines 27-78). *)
Definition follow (w : world) (ctx_id : Z) (siteUrl mySiteUrl : str)
  : M (bool * follows) :=
  transaction (followCallback w ctx_id siteUrl mySiteUrl).

(** [followFrom] (lines 100-134). *)
Definition followFrom (w : world) (mySiteAccountId : Z)
           (siteUrl siteName siteAvatar : str) : M (bool * follows) :=
  transaction (
    siteUrl <- orThrow TypeError (urlOrigin w siteUrl) ;;
    existingFollow <- follows_findFirst siteUrl mySiteAccountId follower ;;
    match existingFollow with
    | Some existingFollow => ret (true, existingFollow)
    | None =>
      result <- follows_create follower siteUrl siteName siteAvatar
                               mySiteAccountId ;;
      ret (true, result)
    end).

(** A remote site that answers its site-info when [reachable] and
    accepts the follow-from notification when [notified]; every string
    is taken as its own origin. *)
Definition sampleWorld (reachable notified : bool) : world :=
  mkWorld (fun u => Some u)
          (fun _ => if reachable
                    then Some (mkSiteInfo 7 (lit "remote") None) else None)
          (fun _ _ => notified).

Definition emptyStore : store := mkStore [] [] [] [] [] [] [] 1 1 1 1.

Definition siteA : str := lit "https://a.example".
Definition siteB : str := lit "https://b.example".

Definition followingB : follows :=
  mkFollow 1 following siteB (lit "remote") [] 1.

Definition storeFollowingB : store :=
  mkStore [] [] [] [] [] [followingB] [] 1 1 1 2.

(** *** Unfollowing and the read procedures (lines 136-303) *)

(** The JSON body posted to [{origin}/api/v1/follows/unfollow-from]. *)
Record unfollowFromBody := mkUnfollowFromBody {
  ubody_mySiteAccountId : Z;
  ubody_siteUrl : str }.

(** [tx.follows.deleteMany({ where: { siteUrl, followType, accountId }
    })]; the answer is the number of rows deleted. *)
Definition follows_deleteMany (siteUrl : str) (ty : followType) (accountId : Z)
  : M Z :=
  s <- get ;;
  modify (set_follows
            (filter (fun f => negb (matchesFollow siteUrl accountId ty f)))) ;;;
  ret (Z.of_nat (length (filter (matchesFollow siteUrl accountId ty)
                                (followsT s)))).

(** [unfollow] (lines 151-173).  [post] is [axios.post] on the
    unfollow-from route of the remote site: [false] when the request
    fails. *)
Definition unfollow (w : world) (post : str -> unfollowFromBody -> bool)
           (ctx_id : Z) (siteUrl mySiteUrl : str) : M bool :=
  transaction (
    siteUrl <- orThrow TypeError (urlOrigin w siteUrl) ;;
    mySiteUrl <- orThrow TypeError (urlOrigin w mySiteUrl) ;;
    let followerId := ctx_id in
    siteInfo <- orThrow AxiosError
                  (axiosGet w (siteUrl ++ lit "/api/v1/public/site-info")) ;;
    follows_deleteMany siteUrl following followerId ;;;
    (if post (siteUrl ++ lit "/api/v1/follows/unfollow-from")
             (mkUnfollowFromBody (site_id siteInfo) mySiteUrl)
     then ret tt else throw AxiosError) ;;;
    ret true).

(** [unfollowFrom] (lines 189-203). *)
Definition unfollowFrom (w : world) (siteUrl : str) (mySiteAccountId : Z)
  : M bool :=
  transaction (
    siteUrl <- orThrow TypeError (urlOrigin w siteUrl) ;;
    follows_deleteMany siteUrl follower mySiteAccountId ;;;
    ret true).

(** [prisma.follows.findMany({ where: { accountId, followType } })] *)
Definition follows_findMany (accountId : Z) (ty : followType)
  : M (list follows) :=
  s <- get ;;
  ret (filter (fun f => (follow_accountId f =? accountId)%Z
                        && followType_eqb (follow_type f) ty)
              (followsT s)).

(** [followList] (lines 219-235): [userId] is [input.userId ??
    Number(ctx.id)].  The final [map] turns a [null] column into
    [undefined]; on the columns kept here it changes nothing. *)
Definition followList (ctx_id : Z) (userId : option Z) : M (list follows) :=
  let userId := match userId with Some u => u | None => ctx_id end in
  result <- follows_findMany userId following ;;
  ret (map (fun item => item) result).

(** [followerList] (lines 251-267). *)
Definition followerList (ctx_id : Z) (userId : option Z) : M (list follows) :=
  let userId := match userId with Some u => u | None => ctx_id end in
  result <- follows_findMany userId follower ;;
  ret (map (fun item => item) result).

(** [isFollowing] (lines 286-302): the lookup is by the [siteUrl] as
    given and the caller's account; the pair is [success] and [data]. *)
Definition isFollowing (ctx_id : Z) (siteUrl : str) : M (bool * bool) :=
  let followerId := ctx_id in
  s <- get ;;
  let follow := find (fun f => str_eqb (follow_siteUrl f) siteUrl
                               && (follow_accountId f =? followerId)%Z)
                     (followsT s) in
  ret (true, match follow with Some _ => true | None => false end).

(** A remote site that accepts every unfollow notification, and one
    that refuses them. *)
Definition acceptUnfollow : str -> unfollowFromBody -> bool := fun _ _ => true.
Definition refuseUnfollow : str -> unfollowFromBody -> bool := fun _ _ => false.

(** A URL parser that cuts a URL after its host: the origin of
    [https://b.example/feed] is [https://b.example]. *)
Definition originOfSample (u : str) : option str :=
  if startsWith siteB u then Some siteB
  else if startsWith siteA u then Some siteA
  else None.

Definition pathWorld : world :=
  mkWorld originOfSample
          (fun _ => Some (mkSiteInfo 7 (lit "remote") None))
          (fun _ _ => true).

End Follows.

(* ================================================================== *)
(** ** The note router (note.ts) *)
(* ================================================================== *)

Module Note.
Import Hashtag.

(** [TagTreeNode] of [@/lib/helper]: a name and the child nodes; a node
    without [children] is a node with none (the loop over them runs
    zero times either way). *)
#[local] Unset Elimination Schemes.
Inductive TagTreeNode :=
| mkNode (name : str) (children : list TagTreeNode).
#[local] Set Elimination Schemes.

Record attachmentInput := mkAttachmentInput {
  ai_name : str;
  ai_path : str;
  ai_size : Z }.

(** The parsed input of [upsert] (lines 226-236), defaults applied:
    [None] is [null] (or, for [id] and [references], absent). *)
Record upsertInput := mkUpsertInput {
  in_content : option str;
  in_type : Z;
  in_attachments : list attachmentInput;
  in_id : option Z;
  in_isArchived : option bool;
  in_isTop : option bool;
  in_isShare : option bool;
  in_isRecycle : option bool;
  in_references : option (list Z) }.

(** [o ?? d] *)
Definition orElse {A} (o : option A) (d : A) : A :=
  match o with Some a => a | None => d end.

(** The request body of [upsert] before the schema of lines 226-236 has
    filled in the defaults: [None] is a field that is absent (or, where
    the schema allows it, [null]). *)
Record upsertRequest := mkUpsertRequest {
  rq_content : option str;
  rq_type : option Z;
  rq_attachments : option (list attachmentInput);
  rq_id : option Z;
  rq_isArchived : option bool;
  rq_isTop : option bool;
  rq_isShare : option bool;
  rq_isRecycle : option bool;
  rq_references : option (list Z) }.

(** The defaults of the schema: [type] is 0 and [attachments] is the
    empty array when absent. *)
Definition parseUpsert (rq : upsertRequest) : upsertInput :=
  mkUpsertInput (rq_content rq) (orElse (rq_type rq) 0%Z)
                (orElse (rq_attachments rq) []) (rq_id rq)
                (rq_isArchived rq) (rq_isTop rq) (rq_isShare rq)
                (rq_isRecycle rq) (rq_references rq).

(** [Prisma.notesUpdateInput] as built at lines 262-269: a field that is
    [None] is not part of the update. *)
Record notesUpdateInput := mkUpdate {
  upd_type : option Z;
  upd_isArchived : option bool;
  upd_isTop : option bool;
  upd_isShare : option bool;
  upd_isRecycle : option bool;
  upd_content : option str }.

Definition applyUpdate (u : notesUpdateInput) (n : notes) : notes :=
  mkNote (note_id n) (note_accountId n)
         (orElse (upd_content u) (note_content n))
         (orElse (upd_type u) (note_type n))
         (orElse (upd_isArchived u) (note_isArchived n))
         (orElse (upd_isRecycle u) (note_isRecycle n))
         (orElse (upd_isShare u) (note_isShare n))
         (orElse (upd_isTop u) (note_isTop n))
         (note_isReviewed n).

Fixpoint updateFirst {A} (p : A -> bool) (f : A -> A) (l : list A) : list A :=
  match l with
  | [] => []
  | x :: r => if p x then f x :: r else x :: updateFirst p f r
  end.

(** *** Store operations used by the note router *)

(** [prisma.notes.update({ where: { id, accountId }, data })]: throws
    P2025 when no such row exists. *)
Definition notes_update (id accountId : Z) (data : notesUpdateInput) : M notes :=
  s <- get ;;
  let here (n : notes) := ((note_id n =? id) && (note_accountId n =? accountId))%Z in
  match find here (notesT s) with
  | None => throw P2025
  | Some n =>
    modify (set_notes (updateFirst here (applyUpdate data))) ;;;
    ret (applyUpdate data n)
  end.

(** [prisma.notes.create({ data: { content, type, accountId, isShare,
    isTop } })].

    Modelled from the spec: the column defaults of the schema, which is
    not among the sources.  A new note is active (section 4.2: the
    lifecycle starts [none -> active]), so [isArchived], [isRecycle] and
    [isReviewed] default to [false]. *)
Definition notes_create (content : str) (type accountId : Z)
           (isShare isTop : bool) : M notes :=
  s <- get ;;
  let row := mkNote (nextNoteId s) accountId content type
                    false false isShare isTop false in
  modify (fun s =>
    mkStore (notesT s ++ [row]) (tagT s) (tagsToNoteT s) (noteReferenceT s)
            (attachmentsT s) (followsT s) (accountsT s)
            (nextNoteId s + 1)%Z (nextTagId s) (nextAttachmentId s)
            (nextFollowId s)) ;;;
  ret row.

(** [prisma.notes.findUnique({ where: { id, accountId } })] *)
Definition notes_findUnique (id accountId : Z) : M (option notes) :=
  s <- get ;;
  ret (find (fun n => ((note_id n =? id) && (note_accountId n =? accountId))%Z)
            (notesT s)).

(** [prisma.tag.findFirst({ where: { name, parent, accountId } })] *)
Definition tag_findFirst (name : str) (parent accountId : Z) : M (option tag) :=
  s <- get ;;
  ret (find (fun t => str_eqb (tag_name t) name
                      && (tag_parent t =? parent)%Z
                      && (tag_accountId t =? accountId)%Z) (tagT s)).

(** [prisma.tag.create({ data: { name, parent, accountId } })] *)
Definition tag_create (name : str) (parent accountId : Z) : M tag :=
  s <- get ;;
  let row := mkTag (nextTagId s) name parent accountId in
  modify (fun s =>
    mkStore (notesT s) (tagT s ++ [row]) (tagsToNoteT s) (noteReferenceT s)
            (attachmentsT s) (followsT s) (accountsT s)
            (nextNoteId s) (nextTagId s + 1)%Z (nextAttachmentId s)
            (nextFollowId s)) ;;;
  ret row.

(** [prisma.tag.deleteMany({ where: { id: { in: ids }, accountId } })] *)
Definition tag_deleteMany (ids : list Z) (accountId : Z) : M unit :=
  modify (set_tag (filter (fun t =>
    negb (memZ (tag_id t) ids && (tag_accountId t =? accountId)%Z)))).

Definition hasRow (tagId noteId : Z) (r : tagsToNote) : bool :=
  ((ttn_tagId r =? tagId) && (ttn_noteId r =? noteId))%Z.

(** [prisma.tagsToNote.findFirst({ where: { tag: hasTag, noteId } })]:
    [hasTag] is a row just read from (or written to) the tag table, so
    the relation filter selects the rows whose [tagId] is its id. *)
Definition tagsToNote_findFirst (hasTag : tag) (noteId : Z)
  : M (option tagsToNote) :=
  s <- get ;;
  ret (find (hasRow (tag_id hasTag) noteId) (tagsToNoteT s)).

(** [prisma.tagsToNote.create({ data: { tagId, noteId } })].

    Modelled from the spec: the unique key of the join table, which the
    schema (not among the sources) declares and the [P2002] handler at
    lines 315-319 presupposes (section 3: no duplicate (tagId, noteId)
    pair).  Creating a pair that exists throws P2002. *)
Definition tagsToNote_create (tagId noteId : Z) : M unit :=
  s <- get ;;
  if existsb (hasRow tagId noteId) (tagsToNoteT s) then throw P2002
  else modify (set_tagsToNote (fun l => l ++ [mkTagsToNote tagId noteId])).

(** The [tag] of a join row under [include: { tag: true }]. *)
Definition tagOf (s : store) (r : tagsToNote) : option tag :=
  find (fun t => (tag_id t =? ttn_tagId r)%Z) (tagT s).

(** [prisma.tagsToNote.findMany({ where: { noteId }, include: { tag:
    true } })], the rows paired with their tags. *)
Definition tagsToNote_findMany_ofNote (noteId : Z)
  : M (list (tagsToNote * option tag)) :=
  s <- get ;;
  ret (map (fun r => (r, tagOf s r))
           (filter (fun r => (ttn_noteId r =? noteId)%Z) (tagsToNoteT s))).

(** [prisma.tagsToNote.findMany({ where: { tagId: { in: ids } } })] *)
Definition tagsToNote_findMany_ofTags (ids : list Z) : M (list tagsToNote) :=
  s <- get ;;
  ret (filter (fun r => memZ (ttn_tagId r) ids) (tagsToNoteT s)).

(** [prisma.tagsToNote.deleteMany({ where: { note: { id }, tag: { id: {
    in: ids } } } })] *)
Definition tagsToNote_deleteMany_in (noteId : Z) (ids : list Z) : M unit :=
  modify (set_tagsToNote (filter (fun r =>
    negb ((ttn_noteId r =? noteId)%Z && memZ (ttn_tagId r) ids)))).

(** [prisma.tagsToNote.deleteMany({ where: { noteId } })] *)
Definition tagsToNote_deleteMany_ofNote (noteId : Z) : M unit :=
  modify (set_tagsToNote (filter (fun r => negb (ttn_noteId r =? noteId)%Z))).

(** [prisma.noteReference.findMany({ where: { fromNoteId } })] *)
Definition noteReference_findMany (fromNoteId : Z) : M (list noteReference) :=
  s <- get ;;
  ret (filter (fun r => (ref_fromNoteId r =? fromNoteId)%Z) (noteReferenceT s)).

(** [prisma.noteReference.createMany({ data })] and [create]. *)
Definition noteReference_createMany (data : list noteReference) : M unit :=
  modify (set_noteReference (fun l => l ++ data)).

(** [prisma.noteReference.deleteMany({ where: { fromNoteId, toNoteId: {
    in: ids } } })] *)
Definition noteReference_deleteMany_in (fromNoteId : Z) (ids : list Z) : M unit :=
  modify (set_noteReference (filter (fun r =>
    negb ((ref_fromNoteId r =? fromNoteId)%Z && memZ (ref_toNoteId r) ids)))).

(** [prisma.noteReference.deleteMany({ where: { OR: [{ fromNoteId: id },
    { toNoteId: id }] } })] *)
Definition noteReference_deleteMany_around (id : Z) : M unit :=
  modify (set_noteReference (filter (fun r =>
    negb ((ref_fromNoteId r =? id)%Z || (ref_toNoteId r =? id)%Z)))).

(** [prisma.attachments.findMany({ where: { noteId } })] *)
Definition attachments_findMany (noteId : Z) : M (list attachments) :=
  s <- get ;;
  ret (filter (fun a => (att_noteId a =? noteId)%Z) (attachmentsT s)).

Fixpoint numbered (next : Z) (noteId : Z) (l : list attachmentInput)
  : list attachments :=
  match l with
  | [] => []
  | i :: r => mkAttachment next noteId (ai_name i) (ai_path i) (ai_size i)
              :: numbered (next + 1) noteId r
  end.

(** [prisma.attachments.createMany({ data: l.map(i => ({ noteId, ...i }))
    })] *)
Definition attachments_createMany (noteId : Z) (l : list attachmentInput)
  : M unit :=
  modify (fun s =>
    mkStore (notesT s) (tagT s) (tagsToNoteT s) (noteReferenceT s)
            (attachmentsT s ++ numbered (nextAttachmentId s) noteId l)
            (followsT s) (accountsT s)
            (nextNoteId s) (nextTagId s)
            (nextAttachmentId s + Z.of_nat (length l))%Z (nextFollowId s)).

(** [prisma.attachments.deleteMany({ where: { id: { in: ids } } })] *)
Definition attachments_deleteMany (ids : list Z) : M unit :=
  modify (set_attachments (filter (fun a => negb (memZ (att_id a) ids)))).

(** [prisma.notes.deleteMany({ where: { id: { in: ids }, accountId } })] *)
Definition notes_deleteMany (ids : list Z) (accountId : Z) : M unit :=
  modify (set_notes (filter (fun n =>
    negb (memZ (note_id n) ids && (note_accountId n =? accountId)%Z)))).

(** *** Content and hashtags *)

Definition backslash : N := 92.

(** The class [[#<>{}[\]|`*-_.]] of line 241; [*-_] is the range from
    [*] (42) to [_] (95). *)
Definition isEscapable (c : N) : bool :=
  ((c =? 35) || (c =? 60) || (c =? 62) || (c =? 123) || (c =? 125)
   || (c =? 91) || (c =? 93) || (c =? 124) || (c =? 96)
   || (42 <=? c) && (c <=? 95) || (c =? 46))%N.

(** [replace(/\\([#<>{}[\]|`*-_.])/g, '$1')]: a backslash in front of a
    unit of the class is dropped, and the scan resumes after that
    unit. *)
Fixpoint unescape (s : str) : str :=
  match s with
  | [] => []
  | c :: r =>
    match r with
    | d :: r' =>
      if (c =? backslash)%N && isEscapable d then d :: unescape r'
      else c :: unescape r
    | [] => [c]
    end
  end.

(** Line 241. *)
Definition sanitize (content : str) : str :=
  unescape
    (replaceAll (lit "&#x20;" ++ [backslash]) []
       (replaceAll (lit "&#x20;") (lit " ") content)).

(** The argument of [extractHashtags] at line 243:
    [content?.replace(/\\/g, '') + ' '], where an [undefined] left
    operand prints as ["undefined"]. *)
Definition hashtagSource (content : option str) : str :=
  match content with
  | Some c => filter (fun u => negb (u =? backslash)%N) c
  | None => lit "undefined"
  end ++ lit " ".

(** [`${i?.name}<key>${i?.parent}`] *)
Definition keyString (t : tag) : str :=
  tag_name t ++ lit "<key>" ++ showZ (tag_parent t).

Definition truthyZ (z : Z) : bool := negb (z =? 0)%Z.

Section Router.

(** [Number] on strings, with [None] for [NaN]; only its comparison
    with an integer column is used. *)
Variable Number : str -> option Z.

(** [helper.buildHashTagTreeFromHashString] of [@/lib/helper], which
    is not among the sources. *)
Variable buildHashTagTreeFromHashString : list str -> list TagTreeNode.

(** [const [name, parent] = key.split('<key>')] followed by
    [tags.find(t => (t.name == name) && (t.parent == Number(parent)))];
    a missing second piece is [undefined], whose [Number] is [NaN]. *)
Definition findByKey (key : str) (tags : list tag) : option tag :=
  let pieces := split (lit "<key>") key in
  let name := nth 0 pieces [] in
  let parent := match nth_error pieces 1 with
                | Some p => Number p
                | None => None
                end in
  find (fun t => str_eqb (tag_name t) name
                 && match parent with
                    | Some p => (tag_parent t =? p)%Z
                    | None => false
                    end) tags.

(** [handleAddTags] (lines 245-260), one node of the loop; [parent] is
    [parentTag?.id ?? 0] and the result is [newTags] after the
    pushes. *)
Fixpoint handleAddTags_node (accountId noteId parent : Z) (i : TagTreeNode)
         (newTags : list tag) {struct i} : M (list tag) :=
  match i with
  | mkNode name children =>
    found <- tag_findFirst name parent accountId ;;
    hasTag <- match found with
              | Some t => ret t
              | None => tag_create name parent accountId
              end ;;
    (if truthyZ noteId then
       hasRelation <- tagsToNote_findFirst hasTag noteId ;;
       match hasRelation with
       | Some _ => ret tt
       | None => tagsToNote_create (tag_id hasTag) noteId
       end
     else ret tt) ;;;
    newTags <- (fix loop (l : list TagTreeNode) (newTags : list tag)
                  : M (list tag) :=
                  match l with
                  | [] => ret newTags
                  | c :: l' =>
                    newTags <- handleAddTags_node accountId noteId
                                 (tag_id hasTag) c newTags ;;
                    loop l' newTags
                  end) children newTags ;;
    ret (newTags ++ [hasTag])
  end.

Fixpoint handleAddTags_loop (accountId noteId parent : Z)
         (l : list TagTreeNode) (newTags : list tag) : M (list tag) :=
  match l with
  | [] => ret newTags
  | c :: l' =>
    newTags <- handleAddTags_node accountId noteId parent c newTags ;;
    handleAddTags_loop accountId noteId parent l' newTags
  end.

(** [handleAddTags(tagTree, undefined, noteId)] *)
Definition handleAddTags (accountId : Z) (tagTree : list TagTreeNode)
           (noteId : Z) : M (list tag) :=
  handleAddTags_loop accountId noteId 0 tagTree [].

Fixpoint mapM {A B} (f : A -> M B) (l : list A) : M (list B) :=
  match l with
  | [] => ret []
  | x :: r => y <- f x ;; ys <- mapM f r ;; ret (y :: ys)
  end.

(** [rows.map(i => i.tag).filter(i => !!i)] *)
Definition tagsOf (rows : list (tagsToNote * option tag)) : list tag :=
  flat_map (fun i => match snd i with Some t => [t] | None => [] end) rows.

(** Lines 288-304: the join rows of the tags that left the content are
    deleted.  The ids are computed first; [find(...)!.id] throws a
    TypeError when no old tag answers to the key. *)
Definition deleteRelationTags (noteId : Z) (oldTags : list tag)
           (needToBeDeletedRelationTags : list str) : M unit :=
  match needToBeDeletedRelationTags with
  | [] => ret tt
  | _ :: _ =>
    ids <- mapM (fun i => match findByKey i oldTags with
                          | Some t => ret (tag_id t)
                          | None => throw TypeError
                          end) needToBeDeletedRelationTags ;;
    tagsToNote_deleteMany_in noteId (filter truthyZ ids)
  end.

(** Lines 306-322: a join row is created for each tag that entered the
    content; a duplicate is let pass. *)
Definition addRelationTags (noteId : Z) (newTags : list tag)
           (needTobeAddedRelationTags : list str) : M unit :=
  for_each needTobeAddedRelationTags (fun relationTag =>
    match findByKey relationTag newTags with
    | Some t =>
      if truthyZ (tag_id t) then
        try_catch (tagsToNote_create (tag_id t) noteId)
                  (fun error => match error with
                                | P2002 => ret tt
                                | _ => throw error
                                end)
      else ret tt
    | None => ret tt
    end).

(** Lines 324-329: add new references. *)
Definition addReferences (noteId : Z) (needToBeAddedReferences : list Z)
  : M unit :=
  match needToBeAddedReferences with
  | [] => ret tt
  | _ :: _ =>
    noteReference_createMany
      (map (fun toNoteId => mkNoteReference noteId toNoteId)
           needToBeAddedReferences)
  end.

(** Lines 331-339: delete old references. *)
Definition deleteReferences (noteId : Z) (needToBeDeletedReferences : list Z)
  : M unit :=
  match needToBeDeletedReferences with
  | [] => ret tt
  | _ :: _ => noteReference_deleteMany_in noteId needToBeDeletedReferences
  end.

(** Lines 341-347: delete unused tags.  [if (needTobeDeledTags)] holds
    for every array, so the deletion always runs. *)
Definition deleteUnusedTags (ctx_id : Z) (oldTags : list tag) : M unit :=
  let allTagsIds := map tag_id oldTags in
  rows <- tagsToNote_findMany_ofTags allTagsIds ;;
  let usingTags := filter truthyZ (map ttn_tagId rows) in
  let needTobeDeledTags := differenceZ allTagsIds usingTags in
  tag_deleteMany needTobeDeledTags ctx_id.

(** Lines 349-363: insert not repeat attachments; an error is
    logged. *)
Definition insertAttachments (noteId : Z) (attachments : list attachmentInput)
  : M unit :=
  try_catch
    (match attachments with
     | [] => ret tt
     | _ :: _ =>
       oldAttachments <- attachments_findMany noteId ;;
       let needTobeAddedAttachmentsPath :=
         differenceStr (map ai_path attachments)
                       (map att_path oldAttachments) in
       match needTobeAddedAttachmentsPath with
       | [] => ret tt
       | _ :: _ =>
         attachments_createMany noteId
           (filter (fun t => memStr (ai_path t) needTobeAddedAttachmentsPath)
                   attachments)
       end
     end)
    (fun err => ret tt).

(** The update branch of [upsert] after the early return (lines
    274-364). *)
Definition reconcile (ctx_id : Z) (tagTree : list TagTreeNode)
           (attachments : list attachmentInput)
           (references : option (list Z)) (note : notes) : M (option notes) :=
  oldTagsInThisNote <- tagsToNote_findMany_ofNote (note_id note) ;;
  newTags <- handleAddTags ctx_id tagTree (note_id note) ;;
  let oldTags := tagsOf oldTagsInThisNote in
  let oldTagsString := map keyString oldTags in
  let newTagsString := map keyString newTags in
  let needTobeAddedRelationTags := differenceStr newTagsString oldTagsString in
  let needToBeDeletedRelationTags := differenceStr oldTagsString newTagsString in
  (* handle references *)
  oldReferences <- noteReference_findMany (note_id note) ;;
  let oldReferencesIds := map ref_toNoteId oldReferences in
  let needToBeAddedReferences :=
    differenceZ (orElse references []) oldReferencesIds in
  let needToBeDeletedReferences :=
    differenceZ oldReferencesIds (orElse references []) in
  deleteRelationTags (note_id note) oldTags needToBeDeletedRelationTags ;;;
  addRelationTags (note_id note) newTags needTobeAddedRelationTags ;;;
  addReferences (note_id note) needToBeAddedReferences ;;;
  deleteReferences (note_id note) needToBeDeletedReferences ;;;
  deleteUnusedTags ctx_id oldTags ;;;
  insertAttachments (note_id note) attachments ;;;
  ret (Some note).

(** The create branch of [upsert] (lines 366-384).  [SendWebhook] is
    a call to an outside service that is not awaited and writes
    nothing to the store.  An error is logged and the handler returns
    [undefined]. *)
Definition createNote (ctx_id : Z) (tagTree : list TagTreeNode)
           (content : option str) (input : upsertInput) : M (option notes) :=
  try_catch
    (note <- notes_create (orElse content []) (in_type input) ctx_id
               (orElse (in_isShare input) false)
               (orElse (in_isTop input) false) ;;
     handleAddTags ctx_id tagTree (note_id note) ;;;
     attachments_createMany (note_id note) (in_attachments input) ;;;
     (* add references *)
     (match in_references input with
      | Some ((_ :: _) as references) =>
        noteReference_createMany
          (map (fun toNoteId => mkNoteReference (note_id note) toNoteId)
               references)
      | _ => ret tt
      end) ;;;
     ret (Some note))
    (fun error => ret None).

(** [upsert] (lines 238-386).  [if (id)] takes the update branch for
    an id that is present and not zero. *)
Definition upsert (ctx_id : Z) (input : upsertInput) : M (option notes) :=
  let content := option_map sanitize (in_content input) in
  let tagTree :=
    buildHashTagTreeFromHashString (extractHashtags (hashtagSource content)) in
  let update :=
    mkUpdate (if (in_type input =? -1)%Z then None else Some (in_type input))
             (in_isArchived input) (in_isTop input) (in_isShare input)
             (in_isRecycle input) content in
  if truthyZ (orElse (in_id input) 0%Z) then
    note <- notes_update (orElse (in_id input) 0%Z) ctx_id update ;;
    match content with
    | None => ret None
    | Some _ =>
      reconcile ctx_id tagTree (in_attachments input)
                (in_references input) note
    end
  else createNote ctx_id tagTree content input.

(** One note of the [include] query of [deleteMany] (lines 422-430):
    the row, the tags of its join rows and its attachments, as they
    were when the query ran. *)
Record noteWithRelations := mkNoteWithRelations {
  nwr_note : notes;
  nwr_tags : list (option tag);
  nwr_attachments : list attachments }.

Definition notes_findMany_withRelations (ids : list Z) (accountId : Z)
  : M (list noteWithRelations) :=
  s <- get ;;
  ret (map (fun n =>
              mkNoteWithRelations n
                (map (tagOf s)
                     (filter (fun r => (ttn_noteId r =? note_id n)%Z)
                             (tagsToNoteT s)))
                (filter (fun a => (att_noteId a =? note_id n)%Z)
                        (attachmentsT s)))
           (filter (fun n => memZ (note_id n) ids
                             && (note_accountId n =? accountId)%Z)
                   (notesT s))).

(** Lines 445-455: the tags of the deleted note that no join row uses any
    more are deleted.  [allTagsInThisNote] is [note.tags] as the query at
    the start of the handler read it. *)
Definition deleteOrphanedTags (ctx_id : Z) (allTagsInThisNote : list (option tag))
  : M unit :=
  let oldTags :=
    flat_map (fun i => match i with Some t => [t] | None => [] end)
             allTagsInThisNote in
  let allTagsIds := map tag_id oldTags in
  rows <- tagsToNote_findMany_ofTags allTagsIds ;;
  s <- get ;;
  let usingTags :=
    filter truthyZ
           (flat_map (fun i => match tagOf s i with
                               | Some t => [tag_id t]
                               | None => []
                               end) rows) in
  let needTobeDeledTags := differenceZ allTagsIds usingTags in
  match needTobeDeledTags with
  | [] => ret tt
  | _ :: _ => tag_deleteMany needTobeDeledTags ctx_id
  end.

(** Lines 457-468: the attachment rows of the note are deleted.
    [FileService.deleteFile] acts outside the store and its error is
    caught and logged. *)
Definition deleteAttachments (attachments : list attachments) : M unit :=
  match attachments with
  | [] => ret tt
  | _ :: _ => attachments_deleteMany (map att_id attachments)
  end.

(** The body of the loop of [handleDeleteRelation] (lines 432-469).
    [SendWebhook] acts outside the store. *)
Definition deleteRelation (ctx_id : Z) (note : noteWithRelations) : M unit :=
  let id := note_id (nwr_note note) in
  tagsToNote_deleteMany_ofNote id ;;;
  noteReference_deleteMany_around id ;;;
  deleteOrphanedTags ctx_id (nwr_tags note) ;;;
  deleteAttachments (nwr_attachments note).

(** [deleteMany] (lines 420-475). *)
Definition deleteMany (ctx_id : Z) (ids : list Z) : M bool :=
  notes <- notes_findMany_withRelations ids ctx_id ;;
  for_each notes (deleteRelation ctx_id) ;;;
  notes_deleteMany ids ctx_id ;;;
  ret true.

(** [insertNoteReference] (lines 553-569), which [addReference] calls
    with the caller's account. *)
Definition insertNoteReference (fromNoteId toNoteId accountId : Z)
  : M noteReference :=
  fromNote <- notes_findUnique fromNoteId accountId ;;
  toNote <- notes_findUnique toNoteId accountId ;;
  match fromNote, toNote with
  | Some _, Some _ =>
    let row := mkNoteReference fromNoteId toNoteId in
    noteReference_createMany [row] ;;; ret row
  | _, _ => throw (JsError (lit "Note not found"))
  end.

Definition addReference (ctx_id fromNoteId toNoteId : Z) : M noteReference :=
  insertNoteReference fromNoteId toNoteId ctx_id.

End Router.

(** Modelled from the spec: [helper.buildHashTagTreeFromHashString],
    which is not among the sources.  Section 4.2, step 2: the tag tree
    is built "by interpreting /-delimited nesting in each hashtag into
    parent/child tag names".  Each hashtag loses its [#], is cut at the
    slashes, and the resulting path is merged into the forest. *)
Fixpoint insertIntoTree (path : list str) (nodes : list TagTreeNode)
  : list TagTreeNode :=
  match path with
  | [] => nodes
  | name :: rest =>
    (fix place (ns : list TagTreeNode) : list TagTreeNode :=
       match ns with
       | [] => [mkNode name (insertIntoTree rest [])]
       | mkNode n children :: ns' =>
         if str_eqb n name then mkNode n (insertIntoTree rest children) :: ns'
         else mkNode n children :: place ns'
       end) nodes
  end.

Definition buildHashTagTree (hashtags : list str) : list TagTreeNode :=
  fold_left (fun root h => insertIntoTree (split (lit "/") (tl h)) root)
            hashtags [].

(** *** A sample store and sample calls *)

Definition blankNote (id accountId : Z) : notes :=
  mkNote id accountId [] 0 false false false false false.

(** Account 1 owns the notes 1 to 4 and 10, account 2 owns note 20;
    note 10 refers to the notes 1, 2 and 3; there is no tag yet. *)
Definition sampleStore : store :=
  mkStore [blankNote 1 1; blankNote 2 1; blankNote 3 1; blankNote 4 1;
           blankNote 10 1; blankNote 20 2]
          [] []
          [mkNoteReference 10 1; mkNoteReference 10 2; mkNoteReference 10 3]
          [] [] [] 21 1 1 1.

(** [upsert({ id, content, references })] *)
Definition edit (id : Z) (content : string) (references : option (list Z))
  : upsertInput :=
  mkUpsertInput (Some (lit content)) 0 [] (Some id) None None None None
                references.

Definition runUpsert : Z -> upsertInput -> M (option notes) :=
  upsert decimalNumber buildHashTagTree.

(** Note 10 carries the tags [shared] (id 1) and [own] (id 2), note 1
    carries [shared] only. *)
Definition taggedStore : store :=
  snd (runUpsert 1 (edit 1 "#shared" None)
         (snd (runUpsert 1 (edit 10 "#shared #own" None) sampleStore))).

Definition sharedTag : tag := mkTag 1 (lit "shared") 0 1.
Definition ownTag : tag := mkTag 2 (lit "own") 0 1.

(** The same input with other [isArchived] and [isRecycle]. *)
Definition withArchiveFlags (input : upsertInput)
           (isArchived isRecycle : option bool) : upsertInput :=
  mkUpsertInput (in_content input) (in_type input) (in_attachments input)
                (in_id input) isArchived (in_isTop input) (in_isShare input)
                isRecycle (in_references input).

(** The outgoing reference set of a note. *)
Definition referencesOf (s : store) (noteId : Z) : list Z :=
  map ref_toNoteId
      (filter (fun r => (ref_fromNoteId r =? noteId)%Z) (noteReferenceT s)).

(** The tag-association set of a note. *)
Definition tagIdsOf (s : store) (noteId : Z) : list Z :=
  map ttn_tagId
      (filter (fun r => (ttn_noteId r =? noteId)%Z) (tagsToNoteT s)).

(** *** The read and batch procedures of the note router *)

(** A note under [include: { tags: true, attachments: true }]: the row
    with its join rows and its attachment rows. *)
Record noteDetail := mkNoteDetail {
  nd_note : notes;
  nd_tags : list tagsToNote;
  nd_attachments : list attachments }.

Definition withDetail (s : store) (n : notes) : noteDetail :=
  mkNoteDetail n
    (filter (fun r => (ttn_noteId r =? note_id n)%Z) (tagsToNoteT s))
    (filter (fun a => (att_noteId a =? note_id n)%Z) (attachmentsT s)).

(** [publicDetail] (lines 185-188):
    [prisma.notes.findFirst({ where: { id, isShare: true }, include })]. *)
Definition publicDetail (id : Z) : M (option noteDetail) :=
  s <- get ;;
  ret (option_map (withDetail s)
         (find (fun n => (note_id n =? id)%Z && note_isShare n) (notesT s))).

(** [detail] (lines 198-201):
    [prisma.notes.findFirst({ where: { id, accountId }, include })]. *)
Definition detail (ctx_id id : Z) : M (option noteDetail) :=
  s <- get ;;
  ret (option_map (withDetail s)
         (find (fun n => ((note_id n =? id) && (note_accountId n =? ctx_id))%Z)
               (notesT s))).

(** A note under the [include] of [listByIds] and [noteReferenceList]:
    the join rows with their tags, the attachments, the [toNoteId] of
    the outgoing and the [fromNoteId] of the incoming references. *)
Record noteListed := mkNoteListed {
  nl_note : notes;
  nl_tags : list (tagsToNote * option tag);
  nl_attachments : list attachments;
  nl_references : list Z;
  nl_referencedBy : list Z }.

Definition withRelations (s : store) (n : notes) : noteListed :=
  mkNoteListed n
    (map (fun r => (r, tagOf s r))
         (filter (fun r => (ttn_noteId r =? note_id n)%Z) (tagsToNoteT s)))
    (filter (fun a => (att_noteId a =? note_id n)%Z) (attachmentsT s))
    (map ref_toNoteId
         (filter (fun r => (ref_fromNoteId r =? note_id n)%Z) (noteReferenceT s)))
    (map ref_fromNoteId
         (filter (fun r => (ref_toNoteId r =? note_id n)%Z) (noteReferenceT s))).

(** [listByIds] (lines 156-175). *)
Definition listByIds (ctx_id : Z) (ids : list Z) : M (list noteListed) :=
  s <- get ;;
  ret (map (withRelations s)
           (filter (fun n => memZ (note_id n) ids
                             && (note_accountId n =? ctx_id)%Z)
                   (notesT s))).

(** [data: { isReviewed: true }] *)
Definition setReviewed (n : notes) : notes :=
  mkNote (note_id n) (note_accountId n) (note_content n) (note_type n)
         (note_isArchived n) (note_isRecycle n) (note_isShare n)
         (note_isTop n) true.

(** [reviewNote] (lines 221-223):
    [prisma.notes.update({ where: { id, accountId }, data: { isReviewed:
    true } })], which throws P2025 when no such row exists. *)
Definition reviewNote (ctx_id id : Z) : M notes :=
  s <- get ;;
  let here (n : notes) := ((note_id n =? id) && (note_accountId n =? ctx_id))%Z in
  match find here (notesT s) with
  | None => throw P2025
  | Some n =>
    modify (set_notes (updateFirst here setReviewed)) ;;;
    ret (setReviewed n)
  end.

(** [prisma.notes.updateMany({ where: { id: { in: ids }, accountId },
    data })]: every matching row is updated; the answer is their
    number. *)
Definition notes_updateMany (ids : list Z) (accountId : Z)
           (data : notesUpdateInput) : M Z :=
  s <- get ;;
  let hit (n : notes) :=
    memZ (note_id n) ids && (note_accountId n =? accountId)%Z in
  modify (set_notes (map (fun n => if hit n then applyUpdate data n else n))) ;;;
  ret (Z.of_nat (length (filter hit (notesT s)))).

(** The parsed input of [updateMany] (lines 389-394); an absent [type]
    is -1. *)
Record updateManyInput := mkUpdateManyInput {
  um_type : Z;
  um_isArchived : option bool;
  um_isRecycle : option bool;
  um_ids : list Z }.

(** [updateMany] (lines 396-404). *)
Definition updateMany (ctx_id : Z) (input : updateManyInput) : M Z :=
  let update :=
    mkUpdate (if (um_type input =? -1)%Z then None else Some (um_type input))
             (um_isArchived input) None None (um_isRecycle input) None in
  notes_updateMany (um_ids input) ctx_id update.

(** [trashMany] (lines 409-412). *)
Definition trashMany (ctx_id : Z) (ids : list Z) : M Z :=
  notes_updateMany ids ctx_id (mkUpdate None None None None (Some true) None).

(** The [type] of [noteReferenceList]. *)
Variant referenceListType := ofReferences | ofReferencedBy.

Section ReferenceList.

(** [orderBy: { createdAt: 'desc' }] on reference rows.  The creation
    time is not among the columns kept here, so the order is a
    parameter. *)
Variable byCreatedAtDesc : list noteReference -> list noteReference.

(** [noteReferenceList] (lines 498-550): the notes at the other end of
    the references of [noteId], each with its relations ([None] for a
    reference whose note is missing). *)
Definition noteReferenceList (noteId : Z) (type : referenceListType)
  : M (list (option noteListed)) :=
  s <- get ;;
  let noteOf (id : Z) :=
    option_map (withRelations s)
               (find (fun n => (note_id n =? id)%Z) (notesT s)) in
  match type with
  | ofReferences =>
    let references :=
      byCreatedAtDesc
        (filter (fun r => (ref_fromNoteId r =? noteId)%Z) (noteReferenceT s)) in
    ret (map (fun ref => noteOf (ref_toNoteId ref)) references)
  | ofReferencedBy =>
    let referencedBy :=
      byCreatedAtDesc
        (filter (fun r => (ref_toNoteId r =? noteId)%Z) (noteReferenceT s)) in
    ret (map (fun ref => noteOf (ref_fromNoteId ref)) referencedBy)
  end.

End ReferenceList.

(** A note of account 2 that is shared, beside the notes of
    [sampleStore]. *)
Definition sharedNote : notes :=
  mkNote 30 2 (lit "public") 0 false false true false false.

Definition storeWithShared : store :=
  set_notes (fun l => l ++ [sharedNote]) sampleStore.

End Note.

(* ================================================================== *)
(** ** Vocabulary of the statements *)
(* ================================================================== *)

Module Frames.
Import Note.

(** [s'] has everything [s] has: the tag and join tables may have
    gained rows, the sequences may have advanced, nothing else
    differs. *)
Record extends (s s' : store) : Prop := mkExtends {
  ext_notes : notesT s' = notesT s;
  ext_refs : noteReferenceT s' = noteReferenceT s;
  ext_atts : attachmentsT s' = attachmentsT s;
  ext_follows : followsT s' = followsT s;
  ext_accounts : accountsT s' = accountsT s;
  ext_nextNote : nextNoteId s' = nextNoteId s;
  ext_nextAtt : nextAttachmentId s' = nextAttachmentId s;
  ext_tags : incl (tagT s) (tagT s');
  ext_rows : incl (tagsToNoteT s) (tagsToNoteT s') }.

(** No tag and no join row is lost. *)
Definition nothingLost (s s' : store) : Prop :=
  incl (tagT s) (tagT s') /\ incl (tagsToNoteT s) (tagsToNoteT s').

(** The note table is as it was. *)
Definition notesKept (s s' : store) : Prop := notesT s' = notesT s.

(** A step after which the store is always [R]-related to the one
    before, whether the step returns or throws. *)
Definition keeps (R : store -> store -> Prop) {A} (m : M A) : Prop :=
  forall s, R s (snd (m s)).

Definition extending {A} (m : M A) : Prop := keeps extends m.

(** A step that always returns. *)
Definition returns {A} (m : M A) : Prop := forall s, exists a, fst (m s) = Ok a.

(** The tags that the orphan collection of lines 341-347 keeps, given
    the note's old tags and the join rows at that time. *)
Definition keptByCleanup (ctx_id : Z) (oldTags : list tag)
           (rows : list tagsToNote) (t : tag) : bool :=
  negb (memZ (tag_id t)
             (differenceZ (map tag_id oldTags)
                (filter truthyZ
                   (map ttn_tagId
                      (filter (fun r => memZ (ttn_tagId r) (map tag_id oldTags))
                              rows))))
        && (tag_accountId t =? ctx_id)%Z).

(** The tags that the orphan collection of lines 445-455 keeps, given the
    tags read for the note at the start and the store at that time. *)
Definition keptByDelete (ctx_id : Z) (allTagsInThisNote : list (option tag))
           (s : store) (t : tag) : bool :=
  let allTagsIds :=
    map tag_id (flat_map (fun i : option tag =>
                            match i with Some t => [t] | None => [] end)
                         allTagsInThisNote) in
  let usingTags :=
    filter truthyZ
      (flat_map (fun i => match tagOf s i with
                          | Some t => [tag_id t]
                          | None => []
                          end)
                (filter (fun r => memZ (ttn_tagId r) allTagsIds)
                        (tagsToNoteT s))) in
  negb (memZ (tag_id t) (differenceZ allTagsIds usingTags)
        && (tag_accountId t =? ctx_id)%Z).

(** The note of a join row is one that [deleteMany ids] deletes for the
    caller. *)
Definition ofDeletedNote (ctx_id : Z) (ids : list Z) (s : store)
           (r : tagsToNote) : Prop :=
  exists m, In m (notesT s) /\ note_id m = ttn_noteId r
            /\ memZ (note_id m) ids = true /\ note_accountId m = ctx_id.

(** A join row points to the tag. *)
Definition referenced (s : store) (t : tag) : Prop :=
  exists r, In r (tagsToNoteT s) /\ ttn_tagId r = tag_id t.

(** The reference table after the two reference steps of lines 324-339
    for the given input [references]. *)
Definition referencesAfter (noteId : Z) (references : list Z)
           (old : list noteReference) : list noteReference :=
  let oldIds := map ref_toNoteId
                    (filter (fun r => (ref_fromNoteId r =? noteId)%Z) old) in
  filter (fun r => negb ((ref_fromNoteId r =? noteId)%Z
                         && memZ (ref_toNoteId r)
                                 (differenceZ oldIds references)))
         (old ++ map (fun toNoteId => mkNoteReference noteId toNoteId)
                     (differenceZ references oldIds)).

(** The caller has a note of this id that [deleteMany ids] deletes. *)
Definition deletedBy (ctx_id : Z) (ids : list Z) (s : store) (id : Z) : Prop :=
  exists n, In n (notesT s) /\ note_id n = id
            /\ memZ id ids = true /\ note_accountId n = ctx_id.

(** Nothing that belongs to a note other than [id] differs: the rows
    of the other notes, their join rows, their outgoing references and
    their attachments are the same, and so is the follow table. *)
Definition othersKept (id : Z) (s s' : store) : Prop :=
  (forall n, note_id n <> id -> (In n (notesT s') <-> In n (notesT s)))
  /\ (forall r, ttn_noteId r <> id ->
        (In r (tagsToNoteT s') <-> In r (tagsToNoteT s)))
  /\ (forall r, ref_fromNoteId r <> id ->
        (In r (noteReferenceT s') <-> In r (noteReferenceT s)))
  /\ (forall a, att_noteId a <> id ->
        (In a (attachmentsT s') <-> In a (attachmentsT s)))
  /\ followsT s' = followsT s.

(** The paths of the attachment rows of a note. *)
Definition pathsOf (s : store) (noteId : Z) : list str :=
  map att_path (filter (fun a => (att_noteId a =? noteId)%Z) (attachmentsT s)).

(** The tags [ts] mirror the node [i] under the parent id [parent]:
    the last of them has the name of the node and that parent, and the
    ones before it mirror the children of the node, in order, under the
    id of that last tag. *)
Fixpoint mirrors (parent : Z) (i : TagTreeNode) (ts : list tag) {struct i}
  : Prop :=
  match i with
  | mkNode name children =>
    exists t cs,
      ts = cs ++ [t] /\ tag_name t = name /\ tag_parent t = parent
      /\ (fix forest (l : list TagTreeNode) (cs : list tag) {struct l} : Prop :=
            match l with
            | [] => cs = []
            | c :: l' =>
              exists a b, cs = a ++ b /\ mirrors (tag_id t) c a /\ forest l' b
            end) children cs
  end.

Fixpoint mirrorsForest (parent : Z) (l : list TagTreeNode) (ts : list tag)
  : Prop :=
  match l with
  | [] => ts = []
  | c :: l' =>
    exists a b, ts = a ++ b /\ mirrors parent c a /\ mirrorsForest parent l' b
  end.

(** The tag is in the tag table, belongs to the account and, when
    [noteId] is not 0, is associated with the note. *)
Definition attached (accountId noteId : Z) (s : store) (t : tag) : Prop :=
  In t (tagT s) /\ tag_accountId t = accountId
  /\ (noteId <> 0%Z -> In (mkTagsToNote (tag_id t) noteId) (tagsToNoteT s)).

(** [s'] is [s] with tags and join rows appended (and the tag
    sequence advanced). *)
Definition grows (s s' : store) : Prop :=
  extends s s'
  /\ (exists l, tagT s' = tagT s ++ l)
  /\ (exists l, tagsToNoteT s' = tagsToNoteT s ++ l).

(** A step that, from [s], returns, only appends to the store, and
    establishes [Q] of its result and the store it leaves. *)
Definition yields {A} (m : M A) (s : store) (Q : A -> store -> Prop) : Prop :=
  exists a s', m s = (Ok a, s') /\ grows s s' /\ Q a s'.

(** The tag ids are positive, distinct and below the next id of the
    sequence. *)
Definition wfTags (s : store) : Prop :=
  NoDup (map tag_id (tagT s))
  /\ Forall (fun t => 0 < tag_id t < nextTagId s)%Z (tagT s)
  /\ (0 < nextTagId s)%Z.

(** The tag is the one the lookup of [handleAddTags] finds for its name
    and parent under the account, and it is associated with the
    note. *)
Definition settled (accountId noteId : Z) (s : store) (t : tag) : Prop :=
  find (fun x => str_eqb (tag_name x) (tag_name t)
                 && (tag_parent x =? tag_parent t)%Z
                 && (tag_accountId x =? accountId)%Z) (tagT s) = Some t
  /\ In (mkTagsToNote (tag_id t) noteId) (tagsToNoteT s).

(** What a run of the loop adds to the store: the tags and join rows
    it leaves were there or are those of [added], and well-formed tag
    ids stay well-formed. *)
Definition addsOnly (noteId : Z) (added : list tag) (s s' : store) : Prop :=
  (forall t, In t (tagT s') -> In t (tagT s) \/ In t added)
  /\ (forall r, In r (tagsToNoteT s') ->
        In r (tagsToNoteT s)
        \/ exists t, In t added /\ r = mkTagsToNote (tag_id t) noteId)
  /\ (wfTags s -> wfTags s').

(** The tags of the note as line 275 reads them: the tags of its join
    rows that exist. *)
Definition noteTags (s : store) (noteId : Z) : list tag :=
  tagsOf (map (fun r => (r, tagOf s r))
              (filter (fun r => (ttn_noteId r =? noteId)%Z) (tagsToNoteT s))).

(** A store on which the update branch of [upsert] has nothing left to
    do for the note: the tags of the tree are there and associated with
    the note, the note has no other tag, its outgoing references are
    the input references, and the attachment step adds nothing. *)
Definition atRest (ctx_id id : Z) (tagTree : list TagTreeNode)
           (references : list Z) (atts : list attachmentInput) (s : store)
  : Prop :=
  exists newTags,
    mirrorsForest 0 tagTree newTags
    /\ Forall (settled ctx_id id s) newTags
    /\ (forall t, In t (noteTags s id) ->
          In (keyString t) (map keyString newTags))
    /\ Forall (fun t => tag_id t <> 0%Z) (tagT s)
    /\ (forall x, In x (map ref_toNoteId
                          (filter (fun r => (ref_fromNoteId r =? id)%Z)
                                  (noteReferenceT s)))
                  <-> In x references)
    /\ insertAttachments id atts s = (Ok tt, s).

(** The ids that lines 296-299 compute for the keys. *)
Definition idsOfKeys (Number : str -> option Z) (oldTags : list tag)
           (keys : list str) : list Z :=
  flat_map (fun k => match findByKey Number k oldTags with
                     | Some t => [tag_id t]
                     | None => []
                     end) keys.

End Frames.

(* ================================================================== *)
(** * Facts *)
(* ================================================================== *)

Module JsStringFacts.

Lemma str_eqb_eq a b : str_eqb a b = true <-> a = b.
Proof.
  unfold str_eqb. destruct (list_eq_dec N.eq_dec a b); split; congruence.
Qed.

Lemma startsWith_app p s : startsWith p s = true <-> exists r, s = p ++ r.
Proof.
  revert s; induction p as [|a p IH]; intros s; simpl.
  - split; eauto.
  - destruct s as [|b s].
    + split; [discriminate | intros [r Hr]; discriminate].
    + rewrite andb_true_iff, N.eqb_eq, IH. split.
      * intros [-> [r ->]]. eauto.
      * intros [r Hr]. injection Hr as -> ->. eauto.
Qed.

Lemma indexOf_split p s k :
  indexOf p s = Some k ->
  s = firstn k s ++ p ++ skipn (k + length p) s /\ k + length p <= length s.
Proof.
  revert k; induction s as [|c r IH]; intros k; simpl.
  - destruct (startsWith p []) eqn:E; [|discriminate].
    intros [= <-]. apply startsWith_app in E as [r Hr].
    destruct p; [split; [reflexivity | simpl; lia] | discriminate].
  - destruct (startsWith p (c :: r)) eqn:E.
    + intros [= <-]. apply startsWith_app in E as [t Ht].
      assert (Hl : S (length r) = length p + length t).
      { change (S (length r)) with (length (c :: r)).
        rewrite Ht. apply length_app. }
      rewrite Ht. cbn [firstn app Nat.add].
      rewrite skipn_app, Nat.sub_diag, skipn_all.
      split; [reflexivity | lia].
    + destruct (indexOf p r) as [j|] eqn:Ej; [|discriminate].
      intros [= <-]. destruct (IH j eq_refl) as [H1 H2]. simpl.
      split; [f_equal; exact H1 | lia].
Qed.

Lemma indexOf_eq p s :
indexOf p s = if startsWith p s then Some 0
              else match s with
                   | [] => None
                   | _ :: r => option_map S (indexOf p r)
                   end.
Proof. destruct s; reflexivity. Qed.

Lemma noKey_cons c name :
noKey (c :: name) = true ->
startsWith keyDelimiter (c :: name) = false /\ noKey name = true.
Proof.
unfold noKey. rewrite indexOf_eq.
destruct (startsWith keyDelimiter (c :: name)); [discriminate|].
destruct (indexOf keyDelimiter name); [discriminate|]. auto.
Qed.

Ltac decide_eqbs :=
repeat match goal with
       | |- context [N.eqb ?x ?y] =>
         first [ is_var y; destruct (N.eqb x y)
               | let v := eval vm_compute in (N.eqb x y) in
                 change (N.eqb x y) with v ]
       end.

(** No proper suffix of the delimiter is a prefix of it, so an occurrence
  cannot start in the name and end in the delimiter that follows. *)
Lemma startsWith_key_app l rest :
l <> [] ->
startsWith keyDelimiter (l ++ keyDelimiter ++ rest) = startsWith keyDelimiter l.
Proof.
intros Hl. change keyDelimiter with [60; 107; 101; 121; 62]%N.
destruct l as [|a [|b [|c [|d [|e l]]]]]; [contradiction| | | | |];
  cbn [app startsWith]; decide_eqbs; reflexivity.
Qed.

Lemma splitFrom_name digits name : forall cur,
noKey name = true ->
splitFrom keyDelimiter 0 cur (name ++ keyDelimiter ++ digits)
= (rev cur ++ name) :: splitFrom keyDelimiter 0 [] digits.
Proof.
induction name as [|c name IH]; intros cur H.
- rewrite app_nil_r. reflexivity.
- apply noKey_cons in H as [H1 H2].
  change ((c :: name) ++ keyDelimiter ++ digits)
    with (c :: (name ++ keyDelimiter ++ digits)).
  cbn [splitFrom].
  change (c :: (name ++ keyDelimiter ++ digits))
    with ((c :: name) ++ keyDelimiter ++ digits).
  rewrite startsWith_key_app by discriminate. rewrite H1.
  rewrite (IH (c :: cur) H2). cbn [rev]. rewrite <- app_assoc. reflexivity.
Qed.

Lemma splitFrom_noLt digits : forall cur,
noLt digits = true ->
splitFrom keyDelimiter 0 cur digits = [rev cur ++ digits].
Proof.
induction digits as [|c r IH]; intros cur H.
- cbn. rewrite app_nil_r. reflexivity.
- cbn in H. apply andb_true_iff in H as [Hc H]. cbn [splitFrom].
  assert (E : startsWith keyDelimiter (c :: r) = false).
  { change keyDelimiter with [60; 107; 101; 121; 62]%N. cbn [startsWith].
    apply negb_true_iff in Hc. rewrite N.eqb_sym, Hc. reflexivity. }
  rewrite E, (IH (c :: cur) H). cbn [rev]. rewrite <- app_assoc. reflexivity.
Qed.

Lemma split_key name digits :
noKey name = true -> noLt digits = true ->
split keyDelimiter (name ++ keyDelimiter ++ digits) = [name; digits].
Proof.
intros Hn Hd. unfold split. rewrite (splitFrom_name digits name [] Hn).
rewrite (splitFrom_noLt digits [] Hd). reflexivity.
Qed.

Lemma string_of_uint_noLt d :
noLt (lit (NilEmpty.string_of_uint d)) = true.
Proof. induction d; cbn; auto. Qed.

Lemma showZ_noLt z : noLt (showZ z) = true.
Proof.
unfold showZ. destruct (Z.to_int z) as [d|d]; cbn [NilZero.string_of_int].
- destruct d; try reflexivity; apply (string_of_uint_noLt _).
- change (lit (String "-" (NilZero.string_of_uint d)))
    with (45%N :: lit (NilZero.string_of_uint d)).
  cbn [noLt forallb]. change (negb (45 =? 60)%N) with true. cbn [andb].
  destruct d; try reflexivity; apply (string_of_uint_noLt _).
Qed.

Example decimalNumber_digits : decimalNumber (lit "12") = Some 12%Z. Proof. reflexivity. Qed.
Example decimalNumber_negative : decimalNumber (lit "-7") = Some (-7)%Z. Proof. reflexivity. Qed.
Example decimalNumber_letter : decimalNumber (lit "y") = None. Proof. reflexivity. Qed.
Example decimalNumber_minus : decimalNumber (lit "-") = None. Proof. reflexivity. Qed.
Example decimalNumber_mixed : decimalNumber (lit "1a") = None. Proof. reflexivity. Qed.
Example decimalNumber_wide : decimalNumber [49; 304]%N = None. Proof. reflexivity. Qed.

Lemma to_int_proper z : Z.to_int z <> Decimal.Pos Decimal.Nil
                      /\ Z.to_int z <> Decimal.Neg Decimal.Nil.
Proof.
destruct z; cbn; split; try discriminate.
- intros [= H]. exact (Unsigned.to_uint_nonnil _ H).
- intros [= H]. exact (Unsigned.to_uint_nonnil _ H).
Qed.

Lemma decimalNumber_showZ z : decimalNumber (showZ z) = Some z.
Proof.
unfold showZ, lit, decimalNumber.
destruct (to_int_proper z) as [H1 H2].
pose proof (NilZero.isi (Z.to_int z) H1 H2) as E.
set (st := NilZero.string_of_int (Z.to_int z)) in *.
assert (Hb : forallb (fun c => c <? 256)%N
               (map N_of_ascii (list_ascii_of_string st)) = true).
{ apply forallb_forall. intros c Hc. apply in_map_iff in Hc as (a & <- & _).
  apply N.ltb_lt, N_ascii_bounded. }
assert (Hm : map ascii_of_N (map N_of_ascii (list_ascii_of_string st))
             = list_ascii_of_string st).
{ rewrite map_map. erewrite map_ext; [apply map_id|].
  intros a. apply ascii_N_embedding. }
destruct (map N_of_ascii (list_ascii_of_string st)) eqn:El.
- exfalso. destruct st; [discriminate E | discriminate El].
- rewrite Hb, Hm, string_of_list_ascii_of_string, E. cbn.
  f_equal. apply DecimalZ.of_to.
Qed.

End JsStringFacts.

Module HashtagFacts.
Import Hashtag JsStringFacts.

Lemma render_app a b : render (a ++ b) = render a ++ render b.
Proof. apply flat_map_app. Qed.

Lemma texts_app a b : texts (a ++ b) = texts a ++ texts b.
Proof. apply flat_map_app. Qed.

(** Rendering the pieces gives the input back: nothing is lost or
    reordered by the cut into text and blocks. *)
Lemma render_parseFences s : forall skip,
  skip <= length s -> render (parseFences skip s) = skipn skip s.
Proof.
  induction s as [|c r IH]; intros skip Hs.
  - destruct skip; reflexivity.
  - destruct skip as [|k].
    + cbn [parseFences]. change (skipn 0 (c :: r)) with (c :: r).
      destruct (startsWith fence (c :: r)) eqn:Ef.
      * destruct (indexOf fence (skipn 3 (c :: r))) as [k|] eqn:Ei.
        -- apply startsWith_app in Ef as [t Ht].
           rewrite Ht in Ei. change (skipn 3 (fence ++ t)) with t in Ei.
           apply indexOf_split in Ei as [Hsplit Hlen].
           change (length fence) with 3 in *.
           assert (Hr : r = [96; 96]%N ++ t).
           { change (c :: r = 96 :: [96; 96] ++ t)%N in Ht. congruence. }
           cbn [render flat_map render1].
           change (flat_map render1 (parseFences (k + 5) r))
             with (render (parseFences (k + 5) r)).
           rewrite IH by (rewrite Hr, length_app; simpl; lia).
           rewrite Ht. change (skipn 3 (fence ++ t)) with t.
           rewrite Hr. replace (k + 5) with ((k + 3) + 2) by lia.
           rewrite <- skipn_skipn. change (skipn 2 ([96; 96]%N ++ t)) with t.
           rewrite <- !app_assoc. f_equal. symmetry. exact Hsplit.
        -- cbn [render flat_map render1]. simpl. f_equal.
           apply (IH 0). lia.
      * cbn [render flat_map render1]. simpl. f_equal. apply (IH 0). lia.
    + cbn [parseFences skipn]. apply IH. simpl in Hs. lia.
Qed.

Lemma render_parse input : render (parseFences 0 input) = input.
Proof. apply (render_parseFences input 0). lia. Qed.

Lemma tagRun_spec s run rest :
  tagRun s = (run, rest) -> s = run ++ rest /\ forallb isTagChar run = true.
Proof.
  revert run rest; induction s as [|c r IH]; intros run rest; simpl.
  - intros [= <- <-]. auto.
  - destruct (isTagChar c) eqn:Ec.
    + destruct (tagRun r) as [run' rest'] eqn:Er.
      intros [= <- <-]. destruct (IH _ _ eq_refl) as [-> H].
      simpl. rewrite Ec, H. auto.
    + intros [= <- <-]. auto.
Qed.

Lemma matchAt_spec before s tok :
  matchAt before s = Some tok ->
  notAfterScheme before = true /\ afterSpaceOrStart before = true /\
  exists run rest, s = hash :: run ++ rest /\ tok = hash :: run /\
    run <> [] /\ forallb isTagChar run = true /\ beforeSpaceOrEnd rest = true.
Proof.
  unfold matchAt.
  destruct (notAfterScheme before) eqn:E1; [|discriminate].
  destruct (afterSpaceOrStart before) eqn:E2; [|discriminate]. simpl.
  destruct s as [|c r]; [discriminate|].
  destruct (c =? hash)%N eqn:Ec; [|discriminate].
  apply N.eqb_eq in Ec; subst c.
  destruct (tagRun r) as [run rest] eqn:Er.
  destruct run as [|d run]; [discriminate|].
  destruct (beforeSpaceOrEnd rest) eqn:E3; [|discriminate].
  intros [= <-]. apply tagRun_spec in Er as [-> Hrun].
  repeat split; auto. exists (d :: run), rest. repeat split; auto. discriminate.
Qed.

(** Every match sits in the scanned text between a whitespace unit or
    the start and a whitespace unit or the end. *)
Lemma matchAll_spec s : forall skip before tok,
  In tok (matchAll skip before s) ->
  exists pre post run,
    s = pre ++ tok ++ post /\ tok = hash :: run /\
    forallb isTagChar run = true /\
    notAfterScheme (rev pre ++ before) = true /\
    afterSpaceOrStart (rev pre ++ before) = true /\
    beforeSpaceOrEnd post = true.
Proof.
  induction s as [|c r IH]; intros skip before tok Hin; [contradiction|].
  assert (Hlater : forall k, In tok (matchAll k (c :: before) r) ->
    exists pre post run,
      c :: r = pre ++ tok ++ post /\ tok = hash :: run /\
      forallb isTagChar run = true /\
      notAfterScheme (rev pre ++ before) = true /\
      afterSpaceOrStart (rev pre ++ before) = true /\
      beforeSpaceOrEnd post = true).
  { intros k Hk. destruct (IH _ _ _ Hk) as (pre & post & run & -> & Ht & Hr & H1 & H2 & H3).
    exists (c :: pre), post, run. simpl. rewrite <- app_assoc. simpl. auto 10. }
  destruct skip as [|k]; cbn [matchAll] in Hin; [|eauto].
  destruct (matchAt before (c :: r)) as [tok0|] eqn:Em; [|eauto].
  destruct Hin as [<- | Hin]; [|eauto].
  apply matchAt_spec in Em as (H1 & H2 & run & rest & Hs & -> & _ & Hr & H3).
  exists [], rest, run. simpl. rewrite Hs. auto 10.
Qed.

Lemma texts_split_at ps : forall a c b,
  texts ps = a ++ c :: b ->
  exists P1 P2, ps = P1 ++ Text c :: P2 /\ texts P1 = a /\ texts P2 = b.
Proof.
  induction ps as [|p ps IH]; intros a c b H.
  - destruct a; discriminate.
  - destruct p as [d|body].
    + destruct a as [|a0 a].
      * simpl in H. injection H as -> H. exists [], ps. auto.
      * simpl in H. injection H as -> H.
        destruct (IH _ _ _ H) as (P1 & P2 & -> & <- & <-).
        exists (Text a0 :: P1), P2. auto.
    + simpl in H. destruct (IH _ _ _ H) as (P1 & P2 & -> & <- & <-).
      exists (Block body :: P1), P2. auto.
Qed.

Lemma texts_split ps : forall a b,
  texts ps = a ++ b ->
  exists P1 P2, ps = P1 ++ P2 /\ texts P1 = a /\ texts P2 = b.
Proof.
  induction ps as [|p ps IH]; intros a b H.
  - destruct a; [|discriminate]. exists [], []. simpl in *. auto.
  - destruct a as [|a0 a].
    + exists [], (p :: ps). auto.
    + destruct p as [d|body]; simpl in H.
      * injection H as -> H. destruct (IH _ _ H) as (P1 & P2 & -> & <- & <-).
        exists (Text a0 :: P1), P2. auto.
      * destruct (IH (a0 :: a) b H) as (P1 & P2 & -> & E & <-).
        exists (Block body :: P1), P2. simpl. auto.
Qed.

(** In the input, what stands just before a piece list whose text ends
    with whitespace (or is empty) is never [://]: it is nothing, that
    whitespace unit, or the closing fence of a removed block. *)
Lemma render_not_scheme P :
  afterSpaceOrStart (rev (texts P)) = true ->
  endsWith (lit "://") (render P) = false.
Proof.
  destruct (rev P) as [|p Q] eqn:E.
  - apply (f_equal (@rev _)) in E. rewrite rev_involutive in E. subst P. reflexivity.
  - apply (f_equal (@rev _)) in E. rewrite rev_involutive in E. subst P.
    simpl rev. rewrite texts_app, render_app. unfold endsWith.
    rewrite !rev_app_distr. change (rev (lit "://")) with [47; 47; 58]%N.
    destruct p as [c|body].
    + change (render [Text c]) with [c]. change (texts [Text c]) with [c].
      cbn [rev app startsWith afterSpaceOrStart]. intros Hc.
      destruct (N.eqb_spec 47 c) as [<-|]; [discriminate|reflexivity].
    + intros _. change (render [Block body]) with ((fence ++ body ++ fence) ++ []).
      rewrite !rev_app_distr. reflexivity.
Qed.

(** C1 (as amended).  Every token that [extractHashtags] returns is
    read off the text pieces only, so no unit of a fenced block is part
    of it; in the input its [#] is not immediately preceded by [://];
    and in the text that remains once the fenced blocks are removed it
    stands between whitespace or a boundary on both sides. *)
Theorem extractHashtags_tokens input tok :
  In tok (extractHashtags input) ->
  exists P1 P2 P3,
    parseFences 0 input = P1 ++ P2 ++ P3 /\
    input = render P1 ++ render P2 ++ render P3 /\
    tok = texts P2 /\ (exists Q, P2 = Text hash :: Q) /\
    endsWith (lit "://") (render P1) = false /\
    withoutCodeBlocks input = texts P1 ++ tok ++ texts P3 /\
    afterSpaceOrStart (rev (texts P1)) = true /\
    beforeSpaceOrEnd (texts P3) = true.
Proof.
  unfold extractHashtags, withoutCodeBlocks. intros Hin.
  apply matchAll_spec in Hin as (pre & post & run & Hw & -> & Hrun & _ & Hb & Ha).
  rewrite app_nil_r in Hb.
  simpl in Hw. apply texts_split_at in Hw as (P1 & Q & HP & <- & HQ).
  apply texts_split in HQ as (Q1 & Q2 & -> & <- & <-).
  change (Text hash :: Q1 ++ Q2) with ((Text hash :: Q1) ++ Q2) in HP.
  exists P1, (Text hash :: Q1), Q2.
  split; [exact HP|].
  split; [rewrite <- !render_app, <- HP; symmetry; apply render_parse|].
  split; [reflexivity|].
  split; [eauto|].
  split; [apply render_not_scheme, Hb|].
  split; [rewrite HP, !texts_app; reflexivity|].
  split; assumption.
Qed.

Lemma delimitedIn_occurs tok pre : forall before text post,
  text = pre ++ tok ++ post ->
  afterSpaceOrStart (rev pre ++ before) = true ->
  beforeSpaceOrEnd post = true ->
  occursDelimited before text tok = true.
Proof.
  induction pre as [|a pre IH]; intros before text post -> Hb Ha.
  - simpl in Hb. simpl app.
    assert (E : startsWith tok (tok ++ post) = true)
      by (apply startsWith_app; eauto).
    assert (U : forall t, occursDelimited before t tok =
                (startsWith tok t && afterSpaceOrStart before
                 && beforeSpaceOrEnd (skipn (length tok) t)
                 || match t with
                    | [] => false
                    | c :: r => occursDelimited (c :: before) r tok
                    end)) by (intros []; reflexivity).
    rewrite U, E, Hb, skipn_app, Nat.sub_diag, skipn_all. cbn [skipn app].
    rewrite Ha. reflexivity.
  - simpl app. cbn [occursDelimited]. apply orb_true_iff. right.
    apply (IH _ _ post eq_refl); [|exact Ha].
    simpl in Hb. rewrite <- app_assoc in Hb. exact Hb.
Qed.

Lemma extractHashtags_tokens_witness :
  exists P1 P2 P3,
    parseFences 0 (lit "a #b") = P1 ++ P2 ++ P3 /\
    lit "a #b" = render P1 ++ render P2 ++ render P3 /\
    lit "#b" = texts P2 /\ (exists Q, P2 = Text hash :: Q) /\
    endsWith (lit "://") (render P1) = false /\
    withoutCodeBlocks (lit "a #b") = texts P1 ++ lit "#b" ++ texts P3 /\
    afterSpaceOrStart (rev (texts P1)) = true /\
    beforeSpaceOrEnd (texts P3) = true.
Proof.
  apply (extractHashtags_tokens (lit "a #b") (lit "#b")).
  vm_compute. left. reflexivity.
Defined.

(** C1 as stated fails for a token that follows a fenced block
    directly: it is returned although, in the input, the unit before
    its [#] is the closing backtick and not whitespace. *)
Lemma extractHashtags_token_after_block :
  In (lit "#t") (extractHashtags (lit "```x```#t"))
  /\ ~ delimitedIn (lit "```x```#t") (lit "#t").
Proof.
  split; [vm_compute; auto|].
  intros (pre & post & E & B & A).
  pose proof (@delimitedIn_occurs _ _ [] _ _ E) as H.
  rewrite app_nil_r in H. specialize (H B A). vm_compute in H. discriminate.
Qed.
Lemma parseFences_skip s : forall k,
parseFences k s = parseFences 0 (skipn k s).
Proof.
induction s as [|c r IH]; intros k.
- destruct k; reflexivity.
- destruct k as [|k]; [reflexivity|]. cbn [parseFences skipn]. apply IH.
Qed.

Lemma parseFences_text pre rest :
noBacktick pre = true ->
parseFences 0 (pre ++ rest) = map Text pre ++ parseFences 0 rest.
Proof.
induction pre as [|c pre IH]; intros H; [reflexivity|].
cbn in H. apply andb_true_iff in H as [Hc H].
cbn [app map parseFences].
assert (E : startsWith fence (c :: pre ++ rest) = false).
{ change fence with [96; 96; 96]%N. cbn [startsWith].
  apply negb_true_iff in Hc. rewrite N.eqb_sym, Hc. reflexivity. }
rewrite E, (IH H). reflexivity.
Qed.

Lemma indexOf_noBacktick body rest :
noBacktick body = true ->
indexOf fence (body ++ fence ++ rest) = Some (length body).
Proof.
induction body as [|c body IH]; intros H.
- cbn [app length]. rewrite indexOf_eq.
  assert (E : startsWith fence (fence ++ rest) = true)
    by (apply startsWith_app; eauto).
  rewrite E. reflexivity.
- cbn in H. apply andb_true_iff in H as [Hc H].
  cbn [app length]. rewrite indexOf_eq.
  assert (E : startsWith fence (c :: body ++ fence ++ rest) = false).
  { change fence with [96; 96; 96]%N. cbn [startsWith].
    apply negb_true_iff in Hc. rewrite N.eqb_sym, Hc. reflexivity. }
  rewrite E, (IH H). reflexivity.
Qed.

Lemma parseFences_block body post :
noBacktick body = true ->
parseFences 0 (fence ++ body ++ fence ++ post) = Block body :: parseFences 0 post.
Proof.
intros H.
change (fence ++ body ++ fence ++ post)
  with (96 :: [96; 96] ++ body ++ fence ++ post)%N.
cbn [parseFences].
change (96 :: [96; 96] ++ body ++ fence ++ post)%N
  with (fence ++ body ++ fence ++ post).
assert (E : startsWith fence (fence ++ body ++ fence ++ post) = true)
  by (apply startsWith_app; eauto).
rewrite E.
change (skipn 3 (fence ++ body ++ fence ++ post)) with (body ++ fence ++ post).
rewrite (indexOf_noBacktick body post H).
rewrite firstn_app, firstn_all, Nat.sub_diag. cbn [firstn]. rewrite app_nil_r.
f_equal. rewrite parseFences_skip.
replace (length body + 5) with (2 + (length body + 3)) by lia.
change (skipn (2 + (length body + 3)) ([96; 96]%N ++ body ++ fence ++ post))
  with (skipn (length body + 3) (body ++ fence ++ post)).
rewrite skipn_app.
replace (length body + 3 - length body) with 3 by lia.
rewrite skipn_all2 by lia. reflexivity.
Qed.

(** What a fenced block holds does not reach the scan: with text before
  it and a body that have no backtick, the input is scanned as if the
  block were not there. *)
Lemma extractHashtags_ignores_block pre body post :
noBacktick pre = true -> noBacktick body = true ->
extractHashtags (pre ++ fence ++ body ++ fence ++ post)
= extractHashtags (pre ++ post).
Proof.
intros Hp Hb. unfold extractHashtags, withoutCodeBlocks. f_equal.
rewrite (parseFences_text pre post Hp).
rewrite (parseFences_text pre (fence ++ body ++ fence ++ post) Hp).
rewrite (parseFences_block body post Hb).
rewrite !texts_app. reflexivity.
Qed.

(** *** The tokens are exactly the delimited runs *)

Lemma tagRun_app run post :
  forallb isTagChar run = true -> beforeSpaceOrEnd post = true ->
  tagRun (run ++ post) = (run, post).
Proof.
  intros Hr Hp. induction run as [|c run IH]; cbn [app tagRun].
  - destruct post as [|d post]; [reflexivity|]. cbn [beforeSpaceOrEnd] in Hp.
    cbn [tagRun]. unfold isTagChar. rewrite Hp. reflexivity.
  - cbn [forallb] in Hr. apply andb_true_iff in Hr as [Hc Hr].
    rewrite Hc, (IH Hr). reflexivity.
Qed.

Lemma isTagChar_not_space c : isTagChar c = true -> isSpace c = false.
Proof.
  unfold isTagChar. intros H. apply andb_true_iff in H as [H _].
  apply negb_true_iff in H. exact H.
Qed.

(** A run of tag characters that starts a text ending in a whitespace
    unit stops before that unit. *)
Lemma run_before_space run : forall rest q sp t,
  forallb isTagChar run = true -> isSpace sp = true ->
  run ++ rest = q ++ sp :: t -> length run <= length q.
Proof.
  induction run as [|c run IH]; intros rest q sp t Hr Hs E; simpl; [lia|].
  simpl in Hr. apply andb_true_iff in Hr as [Hc Hr].
  destruct q as [|d q].
  - simpl in E. injection E as -> _.
    apply isTagChar_not_space in Hc. congruence.
  - simpl in E. injection E as _ E. simpl.
    specialize (IH _ _ _ _ Hr Hs E). lia.
Qed.

Lemma hash_not_space : isSpace hash = false.
Proof. reflexivity. Qed.

Lemma space_not_scheme sp before :
  isSpace sp = true -> notAfterScheme (sp :: before) = true.
Proof.
  intros H. unfold notAfterScheme. change (rev (lit "://")) with [47; 47; 58]%N.
  cbn [startsWith]. destruct (N.eqb_spec 47 sp) as [<-|]; [discriminate H|].
  reflexivity.
Qed.

(** The scan finds a delimited run wherever it stands: what is matched
    before it ends before the whitespace unit in front of it. *)
Lemma matchAll_complete run post :
  run <> [] -> forallb isTagChar run = true -> beforeSpaceOrEnd post = true ->
  forall pre skip before,
    match pre with
    | [] => skip = 0 /\ afterSpaceOrStart before = true
            /\ notAfterScheme before = true
    | _ :: _ => exists q sp, pre = q ++ [sp] /\ isSpace sp = true
                             /\ skip <= length q
    end ->
    In (hash :: run) (matchAll skip before (pre ++ hash :: run ++ post)).
Proof.
  intros Hne Hrun Hpost. induction pre as [|c pre IH]; intros skip before H.
  - destruct H as (-> & Ha & Hs). cbn [app matchAll]. unfold matchAt.
    rewrite Hs, Ha. cbn [andb]. rewrite N.eqb_refl.
    rewrite (tagRun_app run post Hrun Hpost).
    destruct run as [|d run]; [contradiction|]. rewrite Hpost.
    left. reflexivity.
  - destruct H as (q & sp & E & Hsp & Hk).
    assert (Hnext : forall k,
              (pre = [] -> k = 0) ->
              (forall q', pre = q' ++ [sp] -> k <= length q') ->
              In (hash :: run)
                 (matchAll k (c :: before) (pre ++ hash :: run ++ post))).
    { intros k H0 H1. apply IH. destruct pre as [|d pre'].
      - split; [apply H0; reflexivity|].
        destruct q as [|x q]; [|destruct q; discriminate E].
        injection E as ->. split; [exact Hsp | apply space_not_scheme, Hsp].
      - destruct q as [|x q]; [discriminate E|]. injection E as -> E.
        exists q, sp. split; [exact E|]. split; [exact Hsp|].
        apply H1. exact E. }
    cbn [app]. destruct skip as [|k]; cbn [matchAll].
    + destruct (matchAt before (c :: pre ++ hash :: run ++ post))
        as [tok0|] eqn:Em.
      * right. apply matchAt_spec in Em
          as (_ & _ & run0 & rest0 & Es & -> & Hn0 & Hr0 & _).
        injection Es as -> Es.
        replace (length (hash :: run0) - 1) with (length run0)
          by (cbn [length]; lia).
        apply Hnext.
        -- intros ->. destruct q as [|x q]; [|destruct q; discriminate E].
           injection E as <-. discriminate Hsp.
        -- intros q' ->.
           rewrite <- app_assoc in Es. cbn [app] in Es. symmetry in Es.
           exact (run_before_space run0 rest0 q' sp _ Hr0 Hsp Es).
      * apply Hnext; [reflexivity | intros; lia].
    + apply Hnext.
      * intros ->. destruct q as [|x q]; [simpl in Hk; lia|].
        destruct q; discriminate E.
      * intros q' ->. destruct q as [|x q]; [simpl in Hk; lia|].
        injection E as _ E. apply app_inj_tail in E as [<- _].
        simpl in Hk. lia.
Qed.

Lemma matchAll_nonempty s : forall skip before tok,
  In tok (matchAll skip before s) -> exists run, tok = hash :: run /\ run <> [].
Proof.
  induction s as [|c r IH]; intros skip before tok Hin; [contradiction|].
  destruct skip as [|k]; cbn [matchAll] in Hin; [|eauto].
  destruct (matchAt before (c :: r)) as [tok0|] eqn:Em; [|eauto].
  destruct Hin as [<- | Hin]; [|eauto].
  apply matchAt_spec in Em as (_ & _ & run & rest & _ & -> & Hn & _).
  eauto.
Qed.

(** The tokens of [extractHashtags] are exactly the runs [#] + one or
    more units that are neither whitespace nor [#], standing between
    whitespace or a boundary in the text that remains once the fenced
    blocks are removed.  The [://] lookbehind never decides: a position
    after whitespace or at the start is not after [://]. *)
Theorem extractHashtags_iff input tok :
  In tok (extractHashtags input) <->
  exists pre run post,
    withoutCodeBlocks input = pre ++ tok ++ post
    /\ tok = hash :: run /\ run <> [] /\ forallb isTagChar run = true
    /\ afterSpaceOrStart (rev pre) = true /\ beforeSpaceOrEnd post = true.
Proof.
  unfold extractHashtags. split.
  - intros Hin. destruct (matchAll_nonempty _ _ _ _ Hin) as (run' & E' & Hn).
    apply matchAll_spec in Hin as (pre & post & run & Hw & -> & Hr & _ & Hb & Ha).
    injection E' as <-. rewrite app_nil_r in Hb.
    exists pre, run, post. auto 10.
  - intros (pre & run & post & Hw & -> & Hn & Hr & Hb & Ha). rewrite Hw.
    cbn [app]. apply (matchAll_complete run post Hn Hr Ha).
    destruct (rev pre) as [|sp q] eqn:Er.
    + apply (f_equal (@rev _)) in Er. rewrite rev_involutive in Er.
      rewrite Er. cbn [rev]. split; [reflexivity|]. split; reflexivity.
    + apply (f_equal (@rev _)) in Er. rewrite rev_involutive in Er.
      cbn [rev] in Er. cbn [afterSpaceOrStart] in Hb.
      destruct pre as [|c pre']; [destruct (rev q); discriminate Er|].
      exists (rev q), sp. split; [exact Er|]. split; [exact Hb | lia].
Qed.

Lemma extractHashtags_ignores_block_witness :
  extractHashtags (lit "a " ++ fence ++ lit "#x" ++ fence ++ lit " #b")
  = extractHashtags (lit "a " ++ lit " #b").
Proof.
  apply (extractHashtags_ignores_block (lit "a ") (lit "#x") (lit " #b"));
    reflexivity.
Defined.

End HashtagFacts.

Module FollowsFacts.
Import Follows.
#[local] Open Scope Z_scope.

Lemma rollback_same s : rollback s s = s.
Proof. destruct s; reflexivity. Qed.

(** C5 (as amended).  When a "following" row exists for the caller and
    the origin of [siteUrl], and both URLs parse, [follow] writes
    nothing and fails: with Conflict when the remote site answered its
    site-info, with the error of that request when it did not (the
    request is made before the row is looked up). *)
Theorem follow_existing w ctx_id siteUrl mySiteUrl s o o' f :
  urlOrigin w siteUrl = Some o ->
  urlOrigin w mySiteUrl = Some o' ->
  find (matchesFollow o ctx_id following) (followsT s) = Some f ->
  follow w ctx_id siteUrl mySiteUrl s =
    (match axiosGet w (o ++ lit "/api/v1/public/site-info") with
     | Some _ => Err (CONFLICT (lit "Already following this site"))
     | None => Err AxiosError
     end, s).
Proof.
  intros H1 H2 Hf.
  assert (E : followCallback w ctx_id siteUrl mySiteUrl s =
    (match axiosGet w (o ++ lit "/api/v1/public/site-info") with
     | Some _ => Err (CONFLICT (lit "Already following this site"))
     | None => Err AxiosError
     end, s)).
  { unfold followCallback, bind.
    rewrite H1. cbn [orThrow ret]. rewrite H2. cbn [orThrow ret].
    destruct (axiosGet w _) as [info|]; cbn [orThrow ret throw].
    - unfold follows_findFirst, bind, get, ret. rewrite Hf. reflexivity.
    - reflexivity. }
  unfold follow, transaction. rewrite E.
  destruct (axiosGet w _); rewrite rollback_same; reflexivity.
Qed.

Lemma follow_existing_witness :
  follow (sampleWorld true true) 1 siteB siteA storeFollowingB =
    (Err (CONFLICT (lit "Already following this site")), storeFollowingB).
Proof.
  apply (follow_existing (sampleWorld true true) 1 siteB siteA storeFollowingB
                         siteB siteA followingB); reflexivity.
Defined.

(** C5 as stated fails when the remote site is unreachable: the row
    exists, and the call fails with the error of the request, not with
    Conflict. *)
Lemma follow_unreachable_not_conflict :
  find (matchesFollow siteB 1 following) (followsT storeFollowingB)
    = Some followingB
  /\ fst (follow (sampleWorld false true) 1 siteB siteA storeFollowingB)
     = Err AxiosError.
Proof. split; reflexivity. Qed.

(** C6 (as amended).  When the notification fails after the callback
    wrote the "following" row, the error propagates to the caller and
    the transaction is rolled back: every table is as before the call,
    without that row (only the id sequence of the follow table has
    advanced). *)
Theorem follow_notification_failure w ctx_id siteUrl mySiteUrl s o o' info :
  urlOrigin w siteUrl = Some o ->
  urlOrigin w mySiteUrl = Some o' ->
  axiosGet w (o ++ lit "/api/v1/public/site-info") = Some info ->
  find (matchesFollow o ctx_id following) (followsT s) = None ->
  (forall body, axiosPost w (o ++ lit "/api/v1/follows/follow-from") body = false) ->
  exists row,
    follow_type row = following /\ follow_siteUrl row = o
    /\ follow_accountId row = ctx_id
    /\ followCallback w ctx_id siteUrl mySiteUrl s
       = (Err AxiosError,
          mkStore (notesT s) (tagT s) (tagsToNoteT s) (noteReferenceT s)
                  (attachmentsT s) (followsT s ++ [row]) (accountsT s)
                  (nextNoteId s) (nextTagId s) (nextAttachmentId s)
                  (nextFollowId s + 1))
    /\ follow w ctx_id siteUrl mySiteUrl s
       = (Err AxiosError,
          mkStore (notesT s) (tagT s) (tagsToNoteT s) (noteReferenceT s)
                  (attachmentsT s) (followsT s) (accountsT s)
                  (nextNoteId s) (nextTagId s) (nextAttachmentId s)
                  (nextFollowId s + 1)).
Proof.
  intros H1 H2 Hg Hf Hp.
  assert (E : exists row,
     follow_type row = following /\ follow_siteUrl row = o
     /\ follow_accountId row = ctx_id
     /\ followCallback w ctx_id siteUrl mySiteUrl s
        = (Err AxiosError,
           mkStore (notesT s) (tagT s) (tagsToNoteT s) (noteReferenceT s)
                   (attachmentsT s) (followsT s ++ [row]) (accountsT s)
                   (nextNoteId s) (nextTagId s) (nextAttachmentId s)
                   (nextFollowId s + 1))).
  { eexists. unfold followCallback, bind.
    rewrite H1. cbn [orThrow ret]. rewrite H2. cbn [orThrow ret].
    rewrite Hg. cbn [orThrow ret].
    unfold follows_findFirst, bind, get, ret. rewrite Hf.
    unfold follows_create, accounts_findUnique, bind, get, modify, ret.
    rewrite Hp. cbn [throw].
    split; [|split; [|split]]; [| | |reflexivity]; reflexivity. }
  destruct E as (row & R1 & R2 & R3 & E). exists row.
  repeat (split; [assumption|]).
  unfold follow, transaction. rewrite E. reflexivity.
Qed.

Lemma follow_notification_failure_witness :
  exists row,
    follow_type row = following /\ follow_siteUrl row = siteB
    /\ follow_accountId row = 1
    /\ followCallback (sampleWorld true false) 1 siteB siteA emptyStore
       = (Err AxiosError,
          mkStore [] [] [] [] [] ([] ++ [row]) [] 1 1 1 (1 + 1))
    /\ follow (sampleWorld true false) 1 siteB siteA emptyStore
       = (Err AxiosError, mkStore [] [] [] [] [] [] [] 1 1 1 (1 + 1)).
Proof.
  apply (follow_notification_failure (sampleWorld true false) 1 siteB siteA
           emptyStore siteB siteA (mkSiteInfo 7 (lit "remote") None));
    reflexivity.
Defined.

(** Whatever makes [follow] fail, no table has changed afterwards. *)
Lemma follow_failure_rolls_back w ctx_id siteUrl mySiteUrl s e :
  fst (follow w ctx_id siteUrl mySiteUrl s) = Err e ->
  exists s', snd (follow w ctx_id siteUrl mySiteUrl s) = rollback s s'.
Proof.
  unfold follow, transaction.
  destruct (followCallback w ctx_id siteUrl mySiteUrl s) as [[a|e'] s']; simpl.
  - discriminate.
  - eauto.
Qed.

(** C6 as stated fails: after a failed notification no "following" row
    exists. *)
Lemma follow_notification_failure_no_row :
  axiosPost (sampleWorld true false) (siteB ++ lit "/api/v1/follows/follow-from")
    (mkFollowFromBody 7 siteA None (siteA ++ lit "undefined")) = false
  /\ fst (follow (sampleWorld true false) 1 siteB siteA emptyStore) = Err AxiosError
  /\ followsT (snd (follow (sampleWorld true false) 1 siteB siteA emptyStore)) = [].
Proof. repeat split. Qed.

Lemma followFrom_existing w acc siteUrl siteName siteAvatar s o f :
  urlOrigin w siteUrl = Some o ->
  find (matchesFollow o acc follower) (followsT s) = Some f ->
  followFrom w acc siteUrl siteName siteAvatar s = (Ok (true, f), s).
Proof.
  intros H1 Hf. unfold followFrom, transaction, bind. rewrite H1.
  cbn [orThrow ret]. unfold follows_findFirst, bind, get, ret. rewrite Hf.
  reflexivity.
Qed.

Lemma find_app_none {A} (p : A -> bool) l x :
  find p l = None -> find p (l ++ [x]) = if p x then Some x else None.
Proof.
  induction l as [|a l IH]; simpl; [reflexivity|].
  destruct (p a); [discriminate | exact IH].
Qed.

Lemma find_none_filter {A} (p : A -> bool) l :
  find p l = None -> filter p l = [].
Proof.
  induction l as [|a l IH]; simpl; [reflexivity|].
  destruct (p a); [discriminate | exact IH].
Qed.

Lemma matchesFollow_refl o acc ty i n a :
  matchesFollow o acc ty (mkFollow i ty o n a acc) = true.
Proof.
  unfold matchesFollow. simpl. rewrite Z.eqb_refl.
  replace (str_eqb o o) with true.
  - destruct ty; reflexivity.
  - unfold str_eqb. destruct (list_eq_dec N.eq_dec o o); congruence.
Qed.

(** C7.  [followFrom] returns an existing "follower" row unchanged and
    writes nothing; a second call with the same input returns what the
    first returned and leaves the store of the first; and when no row
    existed, both calls return the row that the first created, which is
    then the only row for that site and account. *)
Theorem followFrom_idempotent w acc siteUrl siteName siteAvatar s :
  let call := followFrom w acc siteUrl siteName siteAvatar in
  (forall o f, urlOrigin w siteUrl = Some o ->
     find (matchesFollow o acc follower) (followsT s) = Some f ->
     call s = (Ok (true, f), s))
  /\ call (snd (call s)) = call s
  /\ (forall o, urlOrigin w siteUrl = Some o ->
        find (matchesFollow o acc follower) (followsT s) = None ->
        exists row, call s = (Ok (true, row), snd (call s))
          /\ call (snd (call s)) = (Ok (true, row), snd (call s))
          /\ filter (matchesFollow o acc follower) (followsT (snd (call s)))
             = [row]).
Proof.
  intros call.
  assert (Hnew : forall o, urlOrigin w siteUrl = Some o ->
    find (matchesFollow o acc follower) (followsT s) = None ->
    let row := mkFollow (nextFollowId s) follower o siteName siteAvatar acc in
    call s = (Ok (true, row),
              mkStore (notesT s) (tagT s) (tagsToNoteT s) (noteReferenceT s)
                (attachmentsT s) (followsT s ++ [row]) (accountsT s)
                (nextNoteId s) (nextTagId s) (nextAttachmentId s)
                (nextFollowId s + 1))).
  { intros o H1 Hf. unfold call, followFrom, transaction, bind. rewrite H1.
    cbn [orThrow ret]. unfold follows_findFirst, bind, get, ret. rewrite Hf.
    reflexivity. }
  split; [|split].
  - intros o f. apply followFrom_existing.
  - destruct (urlOrigin w siteUrl) as [o|] eqn:H1.
    + destruct (find (matchesFollow o acc follower) (followsT s)) as [f|] eqn:Hf.
      * unfold call.
        rewrite (followFrom_existing w acc siteUrl siteName siteAvatar s o f H1 Hf).
        apply (followFrom_existing w acc siteUrl siteName siteAvatar s o f H1 Hf).
      * rewrite (Hnew o eq_refl Hf). cbn [snd]. unfold call.
        erewrite followFrom_existing; [reflexivity | exact H1 |].
        cbn [followsT]. rewrite (find_app_none _ _ _ Hf), matchesFollow_refl.
        reflexivity.
    + assert (E : forall t, call t = (Err TypeError, t)).
      { intros t. unfold call, followFrom, transaction, bind. rewrite H1.
        cbn [orThrow throw]. rewrite rollback_same. reflexivity. }
      rewrite !E. reflexivity.
  - intros o H1 Hf. eexists. rewrite (Hnew o H1 Hf). cbn [snd].
    split; [reflexivity|]. split.
    + unfold call. erewrite followFrom_existing; [reflexivity | exact H1 |].
      cbn [followsT]. rewrite (find_app_none _ _ _ Hf), matchesFollow_refl.
      reflexivity.
    + cbn [followsT]. rewrite filter_app, (find_none_filter _ _ Hf).
      simpl. rewrite matchesFollow_refl. reflexivity.
Qed.

Lemma followFrom_idempotent_witness :
  let call := followFrom (sampleWorld true true) 1 siteB (lit "b") [] in
  call (snd (call emptyStore)) = call emptyStore
  /\ exists row, call emptyStore = (Ok (true, row), snd (call emptyStore))
       /\ filter (matchesFollow siteB 1 follower)
                 (followsT (snd (call emptyStore))) = [row].
Proof.
  intros call.
  destruct (followFrom_idempotent (sampleWorld true true) 1 siteB (lit "b") []
              emptyStore) as (_ & H2 & H3).
  split; [exact H2|].
  destruct (H3 siteB eq_refl eq_refl) as (row & E1 & _ & E3).
  exists row. split; [exact E1 | exact E3].
Defined.

(** *** Unfollowing and the read procedures *)

Import JsStringFacts.

Lemma find_none_filter_negb {A} (p : A -> bool) l :
  find p l = None -> filter (fun x => negb (p x)) l = l.
Proof.
  induction l as [|a l IH]; simpl; [reflexivity|].
  destruct (p a); [discriminate|]. intros H. simpl. f_equal. auto.
Qed.

Lemma find_app_some {A} (p : A -> bool) l l' x :
  find p l = Some x -> find p (l ++ l') = Some x.
Proof.
  induction l as [|a l IH]; simpl; [discriminate|].
  destruct (p a); [auto | exact IH].
Qed.

Lemma find_exists {A} (p : A -> bool) l x :
  In x l -> p x = true -> exists y, find p l = Some y.
Proof.
  intros Hin Hp. destruct (find p l) as [y|] eqn:E; [eauto|].
  rewrite (find_none _ _ E x Hin) in Hp. discriminate.
Qed.

Lemma rollback_set_follows f s : rollback s (set_follows f s) = s.
Proof. destruct s; reflexivity. Qed.

(** [unfollow] is all or nothing.  It returns [true] only when both
    URLs parse, the remote site answered its site-info and accepted the
    notification; the caller's "following" rows for that origin are
    then gone and nothing else has changed.  In every other case it
    throws and the store is as before: a site that does not answer
    cannot be unfollowed. *)
Theorem unfollow_outcome w post ctx_id siteUrl mySiteUrl s :
  let out := unfollow w post ctx_id siteUrl mySiteUrl s in
  (exists o o' info,
      urlOrigin w siteUrl = Some o /\ urlOrigin w mySiteUrl = Some o'
      /\ axiosGet w (o ++ lit "/api/v1/public/site-info") = Some info
      /\ post (o ++ lit "/api/v1/follows/unfollow-from")
              (mkUnfollowFromBody (site_id info) o') = true
      /\ out = (Ok true,
                set_follows
                  (filter (fun f => negb (matchesFollow o ctx_id following f)))
                  s))
  \/ (exists e, out = (Err e, s) /\ (e = TypeError \/ e = AxiosError)).
Proof.
  intros out. unfold out, unfollow, transaction, bind.
  destruct (urlOrigin w siteUrl) as [o|] eqn:H1; cbn [orThrow ret throw];
    [|right; exists TypeError; rewrite rollback_same; auto].
  destruct (urlOrigin w mySiteUrl) as [o'|] eqn:H2; cbn [orThrow ret throw];
    [|right; exists TypeError; rewrite rollback_same; auto].
  destruct (axiosGet w _) as [info|] eqn:Hg; cbn [orThrow ret throw];
    [|right; exists AxiosError; rewrite rollback_same; auto].
  unfold follows_deleteMany, bind, get, modify, ret.
  destruct (post _ _) eqn:Hp; cbn [throw].
  - left. exists o, o', info. auto.
  - right. exists AxiosError. rewrite rollback_set_follows. auto.
Qed.

Lemma follow_success w ctx_id siteUrl mySiteUrl s r s1 :
  follow w ctx_id siteUrl mySiteUrl s = (Ok r, s1) ->
  exists o o' info,
    urlOrigin w siteUrl = Some o /\ urlOrigin w mySiteUrl = Some o'
    /\ axiosGet w (o ++ lit "/api/v1/public/site-info") = Some info
    /\ find (matchesFollow o ctx_id following) (followsT s) = None
    /\ let row := mkFollow (nextFollowId s) following o (site_name info)
                    (match truthyStr (site_image info) with
                     | Some image => o ++ image
                     | None => []
                     end) ctx_id in
       r = (true, row)
       /\ s1 = mkStore (notesT s) (tagT s) (tagsToNoteT s) (noteReferenceT s)
                 (attachmentsT s) (followsT s ++ [row]) (accountsT s)
                 (nextNoteId s) (nextTagId s) (nextAttachmentId s)
                 (nextFollowId s + 1).
Proof.
  unfold follow, transaction, followCallback, bind.
  destruct (urlOrigin w siteUrl) as [o|] eqn:H1; cbn [orThrow ret throw];
    [|discriminate].
  destruct (urlOrigin w mySiteUrl) as [o'|] eqn:H2; cbn [orThrow ret throw];
    [|discriminate].
  destruct (axiosGet w _) as [info|] eqn:Hg; cbn [orThrow ret throw];
    [|discriminate].
  unfold follows_findFirst, bind, get, ret.
  destruct (find _ (followsT s)) as [f|] eqn:Hf; cbn [throw]; [discriminate|].
  unfold follows_create, accounts_findUnique, bind, get, modify, ret.
  destruct (axiosPost w _ _); cbn [throw]; [|discriminate].
  intros [= <- <-]. exists o, o', info. repeat split; auto.
Qed.

(** Unfollowing undoes following: after a [follow] that returned, an
    [unfollow] of the same site (the remote site accepting the
    notification) returns [true] and leaves the tables of the store
    before the [follow]; only the id sequence has advanced. *)
Theorem follow_then_unfollow w post ctx_id siteUrl mySiteUrl s r s1 :
  follow w ctx_id siteUrl mySiteUrl s = (Ok r, s1) ->
  (forall url body, post url body = true) ->
  unfollow w post ctx_id siteUrl mySiteUrl s1 = (Ok true, rollback s s1)
  /\ followsT (rollback s s1) = followsT s.
Proof.
  intros Hf Hp. split; [|reflexivity].
  apply follow_success in Hf as (o & o' & info & H1 & H2 & Hg & Hn & ? & ->).
  unfold unfollow, transaction, bind.
  rewrite H1; cbn [orThrow ret]. rewrite H2; cbn [orThrow ret].
  rewrite Hg; cbn [orThrow ret].
  unfold follows_deleteMany, bind, get, modify, ret. rewrite Hp.
  f_equal. unfold set_follows, rollback. cbn.
  rewrite filter_app, (find_none_filter_negb _ _ Hn). cbn.
  rewrite matchesFollow_refl. cbn. rewrite app_nil_r. reflexivity.
Qed.

Lemma follow_then_unfollow_witness :
  let s1 := snd (follow (sampleWorld true true) 1 siteB siteA emptyStore) in
  unfollow (sampleWorld true true) acceptUnfollow 1 siteB siteA s1
  = (Ok true, rollback emptyStore s1)
  /\ followsT (rollback emptyStore s1) = followsT emptyStore.
Proof.
  apply (follow_then_unfollow (sampleWorld true true) acceptUnfollow 1 siteB
           siteA emptyStore (true, mkFollow 1 following siteB (lit "remote") [] 1)).
  - reflexivity.
  - intros url body. reflexivity.
Defined.

Lemma unfollowFrom_run w siteUrl acc s o :
  urlOrigin w siteUrl = Some o ->
  unfollowFrom w siteUrl acc s
  = (Ok true,
     set_follows (filter (fun f => negb (matchesFollow o acc follower f))) s).
Proof.
  intros H1. unfold unfollowFrom, transaction, bind. rewrite H1.
  reflexivity.
Qed.

Lemma filter_idem {A} (p : A -> bool) l : filter p (filter p l) = filter p l.
Proof.
  induction l as [|a l IH]; simpl; [reflexivity|].
  destruct (p a) eqn:E; simpl; rewrite ?E, IH; reflexivity.
Qed.

(** [unfollowFrom] deletes the "follower" rows of that origin and
    account and no other row, returns [true] whether or not there was
    one, and a second call changes nothing more. *)
Theorem unfollowFrom_idempotent w siteUrl acc s :
  let call := unfollowFrom w siteUrl acc in
  call (snd (call s)) = call s
  /\ forall o, urlOrigin w siteUrl = Some o ->
       fst (call s) = Ok true
       /\ forall f, In f (followsT (snd (call s))) <->
                    In f (followsT s)
                    /\ ~ (follow_siteUrl f = o /\ follow_accountId f = acc
                          /\ follow_type f = follower).
Proof.
  intros call. unfold call. destruct (urlOrigin w siteUrl) as [o|] eqn:H1.
  - rewrite !(unfollowFrom_run w siteUrl acc _ o H1). cbn [snd fst]. split.
    + f_equal. unfold set_follows. cbn. rewrite filter_idem. reflexivity.
    + intros o' [= <-]. split; [reflexivity|]. intros f. cbn.
      rewrite filter_In, negb_true_iff. unfold matchesFollow.
      split; intros [Hin H]; split; auto.
      * intros (E1 & E2 & E3).
        rewrite E1, E2, E3, Z.eqb_refl in H.
        assert (Ho : str_eqb o o = true) by (apply str_eqb_eq; reflexivity).
        rewrite Ho in H. discriminate.
      * destruct (str_eqb (follow_siteUrl f) o) eqn:E1; [|reflexivity].
        destruct (follow_accountId f =? acc) eqn:E2; [|reflexivity].
        destruct (follow_type f) eqn:E3; [reflexivity|].
        exfalso. apply H. apply str_eqb_eq in E1. apply Z.eqb_eq in E2. auto.
  - assert (E : forall t, unfollowFrom w siteUrl acc t = (Err TypeError, t)).
    { intros t. unfold unfollowFrom, transaction, bind. rewrite H1.
      cbn [orThrow throw]. rewrite rollback_same. reflexivity. }
    rewrite !E. split; [reflexivity | discriminate].
Qed.

Lemma unfollowFrom_idempotent_witness :
  let s := snd (followFrom (sampleWorld true true) 1 siteB (lit "b") []
                  storeFollowingB) in
  let call := unfollowFrom (sampleWorld true true) siteB 1 in
  call (snd (call s)) = call s /\ fst (call s) = Ok true.
Proof.
  intros s call.
  destruct (unfollowFrom_idempotent (sampleWorld true true) siteB 1 s)
    as [H1 H2].
  split; [exact H1 | exact (proj1 (H2 siteB eq_refl))].
Defined.

Lemma followFrom_success w acc siteUrl siteName siteAvatar s r s1 :
  followFrom w acc siteUrl siteName siteAvatar s = (Ok r, s1) ->
  exists o, urlOrigin w siteUrl = Some o
    /\ ((exists f, find (matchesFollow o acc follower) (followsT s) = Some f
                   /\ r = (true, f) /\ s1 = s)
        \/ (find (matchesFollow o acc follower) (followsT s) = None
            /\ let row := mkFollow (nextFollowId s) follower o siteName
                                   siteAvatar acc in
               r = (true, row)
               /\ s1 = mkStore (notesT s) (tagT s) (tagsToNoteT s)
                         (noteReferenceT s) (attachmentsT s)
                         (followsT s ++ [row]) (accountsT s)
                         (nextNoteId s) (nextTagId s) (nextAttachmentId s)
                         (nextFollowId s + 1))).
Proof.
  unfold followFrom, transaction, bind.
  destruct (urlOrigin w siteUrl) as [o|] eqn:H1; cbn [orThrow ret throw];
    [|discriminate].
  unfold follows_findFirst, bind, get, ret.
  destruct (find _ (followsT s)) as [f|] eqn:Hf.
  - intros [= <- <-]. exists o. split; [reflexivity|]. left. eauto.
  - unfold follows_create, bind, get, modify, ret. intros [= <- <-].
    exists o. split; [reflexivity|]. right. auto.
Qed.

(** After a [followFrom] that returned, [unfollowFrom] for the same
    site and account returns [true] and the follow table is the one
    before the [followFrom] without the "follower" rows of that site and
    account; when there was none, every table is as before. *)
Theorem followFrom_then_unfollowFrom w acc siteUrl siteName siteAvatar s r s1 :
  followFrom w acc siteUrl siteName siteAvatar s = (Ok r, s1) ->
  exists o s2,
    urlOrigin w siteUrl = Some o
    /\ unfollowFrom w siteUrl acc s1 = (Ok true, s2)
    /\ followsT s2
       = filter (fun f => negb (matchesFollow o acc follower f)) (followsT s)
    /\ (find (matchesFollow o acc follower) (followsT s) = None ->
        s2 = rollback s s1).
Proof.
  intros H. apply followFrom_success in H as (o & H1 & H).
  exists o. eexists. split; [exact H1|].
  rewrite (unfollowFrom_run w siteUrl acc s1 o H1).
  split; [reflexivity|].
  destruct H as [(f & Hf & -> & ->) | (Hn & ? & ->)].
  - split; [reflexivity|]. rewrite Hf. discriminate.
  - cbn. rewrite filter_app. cbn. rewrite matchesFollow_refl. cbn.
    rewrite app_nil_r. split; [reflexivity|]. intros _.
    unfold set_follows, rollback. cbn.
    rewrite filter_app, (find_none_filter_negb _ _ Hn). cbn.
    rewrite matchesFollow_refl. cbn. rewrite app_nil_r. reflexivity.
Qed.

Lemma followFrom_then_unfollowFrom_witness :
  exists o s2,
    urlOrigin (sampleWorld true true) siteB = Some o
    /\ unfollowFrom (sampleWorld true true) siteB 1
         (snd (followFrom (sampleWorld true true) 1 siteB (lit "b") [] emptyStore))
       = (Ok true, s2)
    /\ followsT s2
       = filter (fun f => negb (matchesFollow o 1 follower f)) (followsT emptyStore)
    /\ (find (matchesFollow o 1 follower) (followsT emptyStore) = None ->
        s2 = rollback emptyStore
               (snd (followFrom (sampleWorld true true) 1 siteB (lit "b") []
                       emptyStore))).
Proof.
  apply (followFrom_then_unfollowFrom (sampleWorld true true) 1 siteB (lit "b")
           [] emptyStore (true, mkFollow 1 follower siteB (lit "b") [] 1)).
  reflexivity.
Defined.

(** [isFollowing] looks for a row of either type: once a remote site
    has registered as a follower of an account through [followFrom],
    [isFollowing] answers [true] for that account and site, while the
    account's following list is what it was. *)
Theorem isFollowing_after_followFrom w acc siteUrl siteName siteAvatar s r s1 o :
  urlOrigin w siteUrl = Some o ->
  followFrom w acc siteUrl siteName siteAvatar s = (Ok r, s1) ->
  isFollowing acc o s1 = (Ok (true, true), s1)
  /\ fst (followList acc None s1) = fst (followList acc None s).
Proof.
  intros H1 H. apply followFrom_success in H as (o' & H1' & H).
  rewrite H1 in H1'. injection H1' as <-.
  pose (q := fun f : follows =>
              str_eqb (follow_siteUrl f) o && (follow_accountId f =? acc)).
  assert (Hm : forall f, matchesFollow o acc follower f = true -> q f = true).
  { intros f. unfold matchesFollow, q. rewrite !andb_true_iff. tauto. }
  destruct H as [(f & Hf & -> & ->) | (Hn & ? & ->)].
  - split; [|reflexivity]. unfold isFollowing, bind, get, ret.
    apply find_some in Hf as [Hin Hf]. apply Hm in Hf.
    destruct (find_exists q _ _ Hin Hf) as [g Hg]. unfold q in Hg.
    rewrite Hg. reflexivity.
  - split.
    + unfold isFollowing, bind, get, ret. cbn [followsT].
      destruct (find_exists q
                  (followsT s ++ [mkFollow (nextFollowId s) follower o siteName
                                           siteAvatar acc])
                  (mkFollow (nextFollowId s) follower o siteName siteAvatar acc))
        as [g Hg];
        [apply in_or_app; right; left; reflexivity
        |apply Hm, matchesFollow_refl|].
      unfold q in Hg. rewrite Hg. reflexivity.
    + unfold followList, follows_findMany, bind, get, ret. cbn [fst followsT].
      rewrite filter_app. cbn. rewrite Z.eqb_refl. cbn.
      rewrite app_nil_r. reflexivity.
Qed.

Lemma isFollowing_after_followFrom_witness :
  let s1 := snd (followFrom (sampleWorld true true) 1 siteB (lit "b") []
                   emptyStore) in
  isFollowing 1 siteB s1 = (Ok (true, true), s1)
  /\ fst (followList 1 None s1) = fst (followList 1 None emptyStore).
Proof.
  apply (isFollowing_after_followFrom (sampleWorld true true) 1 siteB (lit "b")
           [] emptyStore (true, mkFollow 1 follower siteB (lit "b") [] 1)).
  - reflexivity.
  - reflexivity.
Defined.

(** [follow] stores the origin of the URL and [isFollowing] compares
    the URL as given: after a [follow] that returned, [isFollowing]
    answers [true] for the origin, and for every other string (the URL
    given to [follow] among them, when it is not its own origin) it
    answers what it answered before. *)
Theorem isFollowing_after_follow w ctx_id siteUrl mySiteUrl s r s1 o :
  urlOrigin w siteUrl = Some o ->
  follow w ctx_id siteUrl mySiteUrl s = (Ok r, s1) ->
  isFollowing ctx_id o s1 = (Ok (true, true), s1)
  /\ forall u, u <> o ->
       fst (isFollowing ctx_id u s1) = fst (isFollowing ctx_id u s).
Proof.
  intros H1 H. apply follow_success in H as (o1 & o' & info & H1' & _ & _ & Hn & ? & ->).
  rewrite H1 in H1'. injection H1' as <-.
  assert (Ho : str_eqb o o = true) by (apply str_eqb_eq; reflexivity).
  split.
  - unfold isFollowing, bind, get, ret. cbn [followsT].
    match goal with
    | |- context [find ?q (?l ++ [?row])] =>
      destruct (find_exists q (l ++ [row]) row) as [g Hg];
        [apply in_or_app; right; left; reflexivity
        |cbn; rewrite Ho, Z.eqb_refl; reflexivity|]
    end.
    rewrite Hg. reflexivity.
  - intros u Hu. unfold isFollowing, bind, get, ret. cbn [fst followsT].
    assert (Hne : str_eqb o u = false).
    { destruct (str_eqb o u) eqn:E; [|reflexivity].
      apply str_eqb_eq in E. congruence. }
    match goal with
    | |- context [find ?q (followsT s ++ _)] =>
      destruct (find q (followsT s)) as [g|] eqn:Eg
    end.
    + erewrite find_app_some; [reflexivity | exact Eg].
    + rewrite (find_app_none _ _ _ Eg). cbn. rewrite Hne. reflexivity.
Qed.

Lemma isFollowing_after_follow_witness :
  let u := lit "https://b.example/feed" in
  let s1 := snd (follow pathWorld 1 u siteA emptyStore) in
  isFollowing 1 siteB s1 = (Ok (true, true), s1)
  /\ fst (isFollowing 1 u s1) = Ok (true, false).
Proof.
  intros u s1.
  destruct (isFollowing_after_follow pathWorld 1 u siteA emptyStore
              (true, mkFollow 1 following siteB (lit "remote") [] 1) s1 siteB)
    as [H1 H2].
  - reflexivity.
  - reflexivity.
  - split; [exact H1|]. rewrite (H2 u); [reflexivity | discriminate].
Defined.

(** The row of a [follow] that returned is the new last entry of the
    caller's following list.  Any caller reads that list by naming the
    account as [userId].  No follower list and no other account's
    following list has changed. *)
Theorem follow_appears_in_followList w ctx_id siteUrl mySiteUrl s b row s1 :
  follow w ctx_id siteUrl mySiteUrl s = (Ok (b, row), s1) ->
  (exists L, followList ctx_id None s = (Ok L, s)
             /\ followList ctx_id None s1 = (Ok (L ++ [row]), s1))
  /\ (forall caller, followList caller (Some ctx_id) s1 = followList ctx_id None s1)
  /\ (forall caller userId,
        fst (followerList caller userId s1) = fst (followerList caller userId s))
  /\ (forall other, other <> ctx_id ->
        fst (followList other None s1) = fst (followList other None s)).
Proof.
  intros H. apply follow_success in H as (o & o' & info & _ & _ & _ & _ & Hr & ->).
  injection Hr as -> ->.
  split; [|split; [|split]].
  - eexists. split; [reflexivity|].
    unfold followList, follows_findMany, bind, get, ret. cbn [followsT].
    rewrite filter_app, map_app. cbn. rewrite Z.eqb_refl. cbn.
    rewrite !map_id. reflexivity.
  - reflexivity.
  - intros caller userId.
    unfold followerList, follows_findMany, bind, get, ret. cbn [fst followsT].
    rewrite filter_app. cbn. rewrite andb_false_r, app_nil_r. reflexivity.
  - intros other Ho.
    unfold followList, follows_findMany, bind, get, ret. cbn [fst followsT].
    rewrite filter_app. cbn.
    destruct (Z.eqb_spec ctx_id other) as [E|_]; [congruence|].
    cbn. rewrite app_nil_r. reflexivity.
Qed.

Lemma follow_appears_in_followList_witness :
  let row := mkFollow 2 following siteA (lit "remote") [] 1 in
  let s1 := snd (follow (sampleWorld true true) 1 siteA siteB storeFollowingB) in
  exists L, followList 1 None storeFollowingB = (Ok L, storeFollowingB)
            /\ followList 1 None s1 = (Ok (L ++ [row]), s1).
Proof.
  intros row s1.
  apply (follow_appears_in_followList (sampleWorld true true) 1 siteA siteB
           storeFollowingB true row s1).
  reflexivity.
Defined.

End FollowsFacts.

Module NoteFacts.
Import Hashtag Note Frames JsStringFacts.
#[local] Open Scope Z_scope.

Lemma TagTreeNode_induction (P : TagTreeNode -> Prop) :
  (forall name children, Forall P children -> P (mkNode name children)) ->
  forall t, P t.
Proof.
  intros H. fix IH 1. intros [name children]. apply H.
  induction children as [|c l IHl]; constructor; [apply IH | exact IHl].
Qed.

Lemma extends_refl s : extends s s.
Proof. constructor; auto using incl_refl. Qed.

Lemma extends_trans {s1 s2 s3} : extends s1 s2 -> extends s2 s3 -> extends s1 s3.
Proof.
  intros [] []. constructor; try congruence; eapply incl_tran; eauto.
Qed.

Section Keeps.
Variable R : store -> store -> Prop.
Hypothesis R_refl : forall s, R s s.
Hypothesis R_trans : forall a b c, R a b -> R b c -> R a c.

Lemma keeps_ret {A} (a : A) : keeps R (ret a).
Proof. intros s. apply R_refl. Qed.

Lemma keeps_throw {A} e : keeps R (@throw A e).
Proof. intros s. apply R_refl. Qed.

Lemma keeps_bind {A B} (m : M A) (k : A -> M B) :
  keeps R m -> (forall a, keeps R (k a)) -> keeps R (bind m k).
Proof.
  intros Hm Hk s. unfold bind. specialize (Hm s).
  destruct (m s) as [[a|e] s1]; cbn [snd] in *.
  - exact (R_trans _ _ _ Hm (Hk a s1)).
  - exact Hm.
Qed.

Lemma keeps_try_catch {A} (m : M A) h :
  keeps R m -> (forall e, keeps R (h e)) -> keeps R (try_catch m h).
Proof.
  intros Hm Hh s. unfold try_catch. specialize (Hm s).
  destruct (m s) as [[a|e] s1]; cbn [snd] in *.
  - exact Hm.
  - exact (R_trans _ _ _ Hm (Hh e s1)).
Qed.

Lemma keeps_for_each {A} (l : list A) body :
  (forall x, keeps R (body x)) -> keeps R (for_each l body).
Proof.
  intros Hb. induction l as [|x l IH]; cbn [for_each].
  - apply keeps_ret.
  - apply keeps_bind; auto.
Qed.
End Keeps.

Lemma keeps_weaken (R R' : store -> store -> Prop) {A} (m : M A) :
  (forall s s', R s s' -> R' s s') -> keeps R m -> keeps R' m.
Proof. intros H Hm s. apply H, Hm. Qed.

Lemma extending_ret {A} (a : A) : extending (ret a).
Proof. exact (keeps_ret extends extends_refl a). Qed.

Lemma extending_bind {A B} (m : M A) (k : A -> M B) :
  extending m -> (forall a, extending (k a)) -> extending (bind m k).
Proof. exact (keeps_bind extends (@extends_trans) m k). Qed.

Lemma extending_tag_findFirst name parent accountId :
  extending (tag_findFirst name parent accountId).
Proof. intros s. apply extends_refl. Qed.

Lemma extending_tag_create name parent accountId :
  extending (tag_create name parent accountId).
Proof.
  intros s. constructor; try reflexivity; cbn; auto using incl_refl, incl_appl.
Qed.

Lemma extending_tagsToNote_findFirst t noteId :
  extending (tagsToNote_findFirst t noteId).
Proof. intros s. apply extends_refl. Qed.

Lemma extending_tagsToNote_create tagId noteId :
  extending (tagsToNote_create tagId noteId).
Proof.
  intros s. unfold tagsToNote_create, bind, get, ret.
  destruct (existsb _ _); cbn; [apply extends_refl|].
  constructor; try reflexivity; cbn; auto using incl_refl, incl_appl.
Qed.

Lemma extending_handleAddTags_node accountId noteId i :
  forall parent newTags,
    extending (handleAddTags_node accountId noteId parent i newTags).
Proof.
  induction i as [name children IH] using TagTreeNode_induction.
  intros parent newTags. cbn [handleAddTags_node].
  apply extending_bind; [apply extending_tag_findFirst | intros found].
  apply extending_bind.
  { destruct found; [apply extending_ret | apply extending_tag_create]. }
  intros hasTag. apply extending_bind.
  { destruct (truthyZ noteId); [|apply extending_ret].
    apply extending_bind; [apply extending_tagsToNote_findFirst | intros [r|]].
    - apply extending_ret.
    - apply extending_tagsToNote_create. }
  intros _. apply extending_bind; [|intros; apply extending_ret].
  clear found. revert newTags.
  induction IH as [|c l Hc _ IHl]; intros newTags.
  - apply extending_ret.
  - apply extending_bind; [apply Hc | exact IHl].
Qed.

Lemma extending_handleAddTags accountId tagTree noteId :
  extending (handleAddTags accountId tagTree noteId).
Proof.
  unfold handleAddTags. generalize (@nil tag) as newTags.
  induction tagTree as [|c l IH]; intros newTags; cbn [handleAddTags_loop].
  - apply extending_ret.
  - apply extending_bind; [apply extending_handleAddTags_node | exact IH].
Qed.

(** *** What [reconcile] does *)

Lemma mapM_pure {A B} (f : A -> M B) l :
  (forall x s, snd (f x s) = s) -> forall s, snd (mapM f l s) = s.
Proof.
  intros Hf. induction l as [|x l IH]; intros s; cbn [mapM]; [reflexivity|].
  unfold bind. specialize (Hf x s).
  destruct (f x s) as [[y|e] s1]; cbn [snd] in *; subst s1; [|reflexivity].
  specialize (IH s). destruct (mapM f l s) as [[ys|e] s1]; exact IH.
Qed.

Lemma filter_true {A} (f : A -> bool) (l : list A) :
  (forall x, f x = true) -> filter f l = l.
Proof. intros H. induction l; simpl; rewrite ?H; congruence. Qed.

Lemma set_tagsToNote_filter_true f s :
  (forall x, f x = true) -> set_tagsToNote (filter f) s = s.
Proof.
  intros H. destruct s; unfold set_tagsToNote; cbn. f_equal.
  apply filter_true, H.
Qed.

Lemma set_noteReference_filter_true f s :
  (forall x, f x = true) -> set_noteReference (filter f) s = s.
Proof.
  intros H. destruct s; unfold set_noteReference; cbn. f_equal.
  apply filter_true, H.
Qed.

Lemma returns_ret {A} (a : A) : returns (ret a).
Proof. intros s. exists a. reflexivity. Qed.

Lemma returns_bind {A B} (m : M A) (k : A -> M B) :
  returns m -> (forall a, returns (k a)) -> returns (bind m k).
Proof.
  intros Hm Hk s. unfold bind. destruct (Hm s) as [a Ha].
  destruct (m s) as [[a'|e] s1]; cbn in Ha; [|discriminate].
  apply Hk.
Qed.

Lemma returns_ensure_relation hasTag noteId :
  returns (hasRelation <- tagsToNote_findFirst hasTag noteId ;;
           match hasRelation with
           | Some _ => ret tt
           | None => tagsToNote_create (tag_id hasTag) noteId
           end).
Proof.
  intros s. exists tt.
  unfold bind, tagsToNote_findFirst, bind, get, ret.
  destruct (find _ (tagsToNoteT s)) eqn:F; [reflexivity|].
  unfold tagsToNote_create, bind, get, ret.
  replace (existsb (hasRow (tag_id hasTag) noteId) (tagsToNoteT s)) with false;
    [reflexivity|].
  symmetry. apply not_true_iff_false. intros H.
  apply existsb_exists in H as (r & Hr & H).
  apply (find_none _ _ F) in Hr. congruence.
Qed.

Lemma returns_handleAddTags_node accountId noteId i :
  forall parent newTags,
    returns (handleAddTags_node accountId noteId parent i newTags).
Proof.
  induction i as [name children IH] using TagTreeNode_induction.
  intros parent newTags. cbn [handleAddTags_node].
  apply returns_bind; [intros s; eexists; reflexivity | intros found].
  apply returns_bind.
  { destruct found; [apply returns_ret | intros s; eexists; reflexivity]. }
  intros hasTag. apply returns_bind.
  { destruct (truthyZ noteId); [apply returns_ensure_relation | apply returns_ret]. }
  intros _. apply returns_bind; [|intros; apply returns_ret].
  clear found. revert newTags.
  induction IH as [|c l Hc _ IHl]; intros newTags.
  - apply returns_ret.
  - apply returns_bind; [apply Hc | exact IHl].
Qed.

Lemma returns_handleAddTags accountId tagTree noteId :
  returns (handleAddTags accountId tagTree noteId).
Proof.
  unfold handleAddTags. generalize (@nil tag) as newTags.
  induction tagTree as [|c l IH]; intros newTags; cbn [handleAddTags_loop].
  - apply returns_ret.
  - apply returns_bind; [apply returns_handleAddTags_node | exact IH].
Qed.

Section Reconcile.
Variable Number : str -> option Z.

Lemma deleteRelationTags_run noteId oldTags keys s :
  (deleteRelationTags Number noteId oldTags keys s = (Err TypeError, s)
   /\ exists key, In key keys /\ findByKey Number key oldTags = None)
  \/ exists ids,
       deleteRelationTags Number noteId oldTags keys s
       = (Ok tt, set_tagsToNote
                   (filter (fun r => negb ((ttn_noteId r =? noteId)%Z
                                           && memZ (ttn_tagId r) ids))) s).
Proof.
  unfold deleteRelationTags. destruct keys as [|k keys].
  - right. exists []. rewrite set_tagsToNote_filter_true; [reflexivity|].
    intros x. cbn. rewrite andb_false_r. reflexivity.
  - set (f := fun i : str => _). unfold bind.
    assert (Hrun : forall l,
      (mapM f l s = (Err TypeError, s)
       /\ exists key, In key l /\ findByKey Number key oldTags = None)
      \/ exists ids, mapM f l s = (Ok ids, s)).
    { induction l as [|x l IH]; cbn [mapM]; [right; exists []; reflexivity|].
      unfold bind. unfold f at 1 3.
      destruct (findByKey Number x oldTags) as [t|] eqn:Fx; cbn.
      - destruct IH as [[-> (key & Hk & Fk)] | [ids ->]].
        + left. split; [reflexivity|]. exists key. auto.
        + right. eexists. reflexivity.
      - left. split; [reflexivity|]. exists x. auto. }
    destruct (Hrun (k :: keys)) as [[-> Hkey] | [ids ->]].
    + left. auto.
    + right. exists (filter truthyZ ids). reflexivity.
Qed.

Lemma addRelationTags_run noteId newTags l : forall s,
  exists s', addRelationTags Number noteId newTags l s = (Ok tt, s')
             /\ extends s s'.
Proof.
  unfold addRelationTags.
  induction l as [|x l IH]; intros s; cbn [for_each].
  - exists s. split; [reflexivity | apply extends_refl].
  - unfold bind at 1.
    match goal with |- context [match ?b s with _ => _ end] =>
      assert (H : exists s1, b s = (Ok tt, s1) /\ extends s s1) end.
    { destruct (findByKey Number x newTags) as [t|].
      - destruct (truthyZ (tag_id t)).
        + unfold try_catch, tagsToNote_create, bind, get, ret.
          destruct (existsb _ _); cbn.
          * exists s. split; [reflexivity | apply extends_refl].
          * eexists. split; [reflexivity|].
            constructor; try reflexivity; cbn; auto using incl_refl, incl_appl.
        + exists s. split; [reflexivity | apply extends_refl].
      - exists s. split; [reflexivity | apply extends_refl]. }
    destruct H as (s1 & -> & X1). destruct (IH s1) as (s2 & E2 & X2).
    exists s2. split; [exact E2 | exact (extends_trans X1 X2)].
Qed.

Lemma addReferences_run noteId l s :
  addReferences noteId l s
  = (Ok tt, set_noteReference
              (fun old => old ++ map (fun toNoteId => mkNoteReference noteId toNoteId) l) s).
Proof.
  destruct l; [|reflexivity]. destruct s.
  unfold addReferences, ret, set_noteReference. cbn. rewrite app_nil_r.
  reflexivity.
Qed.

Lemma deleteReferences_run noteId l s :
  deleteReferences noteId l s
  = (Ok tt, set_noteReference
              (filter (fun r => negb ((ref_fromNoteId r =? noteId)%Z
                                      && memZ (ref_toNoteId r) l))) s).
Proof.
  destruct l; [|reflexivity].
  rewrite set_noteReference_filter_true; [reflexivity|].
  intros x. cbn. rewrite andb_false_r. reflexivity.
Qed.

Lemma deleteUnusedTags_run ctx_id oldTags s :
  deleteUnusedTags ctx_id oldTags s
  = (Ok tt, set_tag (filter (keptByCleanup ctx_id oldTags (tagsToNoteT s))) s).
Proof. reflexivity. Qed.

Lemma insertAttachments_run noteId atts s :
  exists l n,
    insertAttachments noteId atts s
    = (Ok tt, mkStore (notesT s) (tagT s) (tagsToNoteT s) (noteReferenceT s)
                      (attachmentsT s ++ l) (followsT s) (accountsT s)
                      (nextNoteId s) (nextTagId s) n (nextFollowId s)).
Proof.
  unfold insertAttachments, try_catch. destruct atts as [|a atts].
  - exists [], (nextAttachmentId s). destruct s. unfold ret. cbn.
    rewrite app_nil_r. reflexivity.
  - unfold bind, attachments_findMany, bind, get, ret.
    match goal with |- context [match ?d with [] => _ | _ :: _ => _ end] =>
      destruct d end.
    + exists [], (nextAttachmentId s). destruct s. unfold ret. cbn.
    rewrite app_nil_r. reflexivity.
    + eexists _, _. reflexivity.
Qed.

Lemma reconcile_outcome ctx_id tagTree atts references note s r s' :
  reconcile Number ctx_id tagTree atts references note s = (r, s') ->
  let id := note_id note in
  let oldTags := tagsOf (map (fun r => (r, tagOf s r))
                   (filter (fun r => (ttn_noteId r =? id)%Z) (tagsToNoteT s))) in
  (r = Err TypeError /\ extends s s'
   /\ exists key, In key (map keyString oldTags)
                  /\ findByKey Number key oldTags = None)
  \/ (r = Ok (Some note)
      /\ notesT s' = notesT s
      /\ noteReferenceT s'
         = referencesAfter id (orElse references []) (noteReferenceT s)
      /\ exists tags5,
           incl (tagT s) tags5
           /\ tagT s' = filter (keptByCleanup ctx_id oldTags (tagsToNoteT s'))
                               tags5).
Proof.
  intros E id oldTags. revert E. unfold reconcile.
  unfold bind at 1. cbn [tagsToNote_findMany_ofNote bind get ret].
  fold id. fold oldTags.
  unfold bind at 1.
  pose proof (extending_handleAddTags ctx_id tagTree id s) as X1.
  destruct (returns_handleAddTags ctx_id tagTree id s) as [nt Hnt].
  destruct (handleAddTags ctx_id tagTree id s) as [[newTags|e] s1];
    cbn [snd fst] in *; [clear nt Hnt | discriminate].
  unfold bind at 1. cbn [noteReference_findMany bind get ret].
  unfold bind at 1.
  destruct (deleteRelationTags_run id oldTags
              (differenceStr (map keyString oldTags) (map keyString newTags)) s1)
    as [[-> (key & Hkey & Fkey)] | [ids ->]].
  { intros [= <- <-]. left. split; [reflexivity|]. split; [exact X1|].
    exists key. split; [|exact Fkey]. apply filter_In in Hkey. tauto. }
  unfold bind at 1.
  match goal with |- context [addRelationTags Number id newTags ?l ?s2] =>
    destruct (addRelationTags_run id newTags l s2) as (s3 & -> & X3) end.
  unfold bind at 1. rewrite addReferences_run.
  unfold bind at 1. rewrite deleteReferences_run.
  unfold bind at 1. rewrite deleteUnusedTags_run.
  unfold bind at 1.
  match goal with |- context [insertAttachments id atts ?s6] =>
    destruct (insertAttachments_run id atts s6) as (l & n & ->) end.
  intros [= <- <-]. right.
  cbn [fst snd ret notesT noteReferenceT tagT tagsToNoteT
              set_tag set_noteReference].
  destruct X1, X3. cbn [set_tagsToNote notesT noteReferenceT tagT] in *.
  split; [reflexivity|].
  split; [rewrite ext_notes1; exact ext_notes0|]. split.
  - unfold referencesAfter. rewrite ext_refs1, ext_refs0. reflexivity.
  - exists (tagT s3). split; [|reflexivity].
    eapply incl_tran; eauto.
Qed.

Lemma memZ_In x l : memZ x l = true <-> In x l.
Proof.
  unfold memZ. rewrite existsb_exists. split.
  - intros (y & Hy & E). apply Z.eqb_eq in E. subst. exact Hy.
  - intros H. exists x. split; [exact H | apply Z.eqb_refl].
Qed.

Lemma memZ_difference x a b :
  memZ x (differenceZ a b) = memZ x a && negb (memZ x b).
Proof.
  apply eq_true_iff_eq. rewrite andb_true_iff, negb_true_iff, !memZ_In.
  unfold differenceZ. rewrite filter_In, negb_true_iff. reflexivity.
Qed.

Lemma tagOf_Some s r t :
  tagOf s r = Some t -> In t (tagT s) /\ tag_id t = ttn_tagId r.
Proof.
  unfold tagOf. intros H. apply find_some in H as [H1 H2].
  apply Z.eqb_eq in H2. auto.
Qed.

Lemma tagOf_exists s r T :
  In T (tagT s) -> tag_id T = ttn_tagId r ->
  exists t, tagOf s r = Some t /\ tag_id t = ttn_tagId r.
Proof.
  intros HT E. unfold tagOf.
  destruct (find _ (tagT s)) as [t|] eqn:F.
  - exists t. split; [reflexivity|]. apply find_some in F as [_ F].
    apply Z.eqb_eq in F. exact F.
  - exfalso. apply (find_none _ _ F) in HT. rewrite E, Z.eqb_refl in HT.
    discriminate.
Qed.

Lemma In_tagsOf s rows t :
  In t (tagsOf (map (fun r => (r, tagOf s r)) rows)) <->
  exists r, In r rows /\ tagOf s r = Some t.
Proof.
  unfold tagsOf. rewrite in_flat_map. split.
  - intros ([r o] & Hin & Ht). apply in_map_iff in Hin as (r' & [= -> <-] & Hr).
    cbn in Ht. destruct (tagOf s r) as [t'|] eqn:E; [|contradiction].
    destruct Ht as [->|[]]. eauto.
  - intros (r & Hr & E). exists (r, tagOf s r). split.
    + apply in_map_iff. eauto.
    + cbn. rewrite E. left. reflexivity.
Qed.

(** What the orphan collection decides for a tag of the caller that
    was attached to the note: it stays exactly when a join row still
    points to it. *)
Lemma keptByCleanup_iff ctx_id s noteId rows T :
  In T (tagT s) -> tag_accountId T = ctx_id -> tag_id T <> 0 ->
  In (mkTagsToNote (tag_id T) noteId) (tagsToNoteT s) ->
  let oldTags := tagsOf (map (fun r => (r, tagOf s r))
                   (filter (fun r => (ttn_noteId r =? noteId)%Z) (tagsToNoteT s))) in
  keptByCleanup ctx_id oldTags rows T = true
  <-> exists r, In r rows /\ ttn_tagId r = tag_id T.
Proof.
  intros HT Hacc Hid Hrow oldTags. unfold keptByCleanup.
  rewrite Hacc, Z.eqb_refl, andb_true_r, negb_true_iff, memZ_difference.
  assert (Hold : memZ (tag_id T) (map tag_id oldTags) = true).
  { apply memZ_In, in_map_iff.
    destruct (tagOf_exists s (mkTagsToNote (tag_id T) noteId) T HT eq_refl)
      as (t & Et & Eid).
    exists t. split; [exact Eid|]. apply In_tagsOf.
    exists (mkTagsToNote (tag_id T) noteId). split; [|exact Et].
    apply filter_In. split; [exact Hrow | apply Z.eqb_refl]. }
  rewrite Hold. cbn [andb]. rewrite negb_false_iff, memZ_In, filter_In.
  rewrite in_map_iff. split.
  - intros [(r & E & Hr) _]. apply filter_In in Hr as [Hr _]. eauto.
  - intros (r & Hr & E). split.
    + exists r. split; [exact E|]. apply filter_In. split; [exact Hr|].
      rewrite E. exact Hold.
    + unfold truthyZ. apply negb_true_iff, Z.eqb_neq, Hid.
Qed.
End Reconcile.

(** *** The upsert handler *)

Lemma nothingLost_refl s : nothingLost s s.
Proof. split; apply incl_refl. Qed.

Lemma nothingLost_trans a b c :
  nothingLost a b -> nothingLost b c -> nothingLost a c.
Proof. intros [] []. split; eapply incl_tran; eauto. Qed.

Lemma extends_nothingLost s s' : extends s s' -> nothingLost s s'.
Proof. intros []. split; assumption. Qed.

Lemma createNote_loses_nothing ctx_id tagTree content input :
  keeps nothingLost (createNote ctx_id tagTree content input).
Proof.
  unfold createNote.
  apply (keeps_try_catch nothingLost nothingLost_trans);
    [|intro; apply (keeps_ret nothingLost nothingLost_refl)].
  apply (keeps_bind nothingLost nothingLost_trans);
    [intros s; split; apply incl_refl | intros note].
  apply (keeps_bind nothingLost nothingLost_trans); [|intros _].
  { apply (keeps_weaken extends nothingLost _ extends_nothingLost).
    apply extending_handleAddTags. }
  apply (keeps_bind nothingLost nothingLost_trans);
    [intros s; split; apply incl_refl | intros _].
  apply (keeps_bind nothingLost nothingLost_trans);
    [|intros _; apply (keeps_ret nothingLost nothingLost_refl)].
  destruct (in_references input) as [[|]|]; intros s; split; apply incl_refl.
Qed.

Lemma notes_update_run id accountId data s :
  (notes_update id accountId data s = (Err P2025, s))
  \/ exists n, note_id n = id
       /\ notes_update id accountId data s
          = (Ok (applyUpdate data n),
             set_notes (updateFirst
               (fun n => (note_id n =? id) && (note_accountId n =? accountId))
               (applyUpdate data)) s).
Proof.
  unfold notes_update, bind, get, ret.
  destruct (find _ (notesT s)) as [n|] eqn:F; [right | left; reflexivity].
  exists n. apply find_some in F as [_ F].
  apply andb_true_iff in F as [F _]. apply Z.eqb_eq in F. auto.
Qed.

Lemma set_tag_filter_true f s :
  (forall x, f x = true) -> set_tag (filter f) s = s.
Proof.
  intros H. destruct s; unfold set_tag; cbn. f_equal. apply filter_true, H.
Qed.

Lemma set_attachments_filter_true f s :
  (forall x, f x = true) -> set_attachments (filter f) s = s.
Proof.
  intros H. destruct s; unfold set_attachments; cbn. f_equal.
  apply filter_true, H.
Qed.

Lemma deleteOrphanedTags_run ctx_id tags s :
  deleteOrphanedTags ctx_id tags s
  = (Ok tt, set_tag (filter (keptByDelete ctx_id tags s)) s).
Proof.
  unfold deleteOrphanedTags, bind, tagsToNote_findMany_ofTags, bind, get, ret.
  match goal with |- context [match ?d with [] => _ | _ :: _ => _ end] =>
    destruct d eqn:Ed end.
  - rewrite set_tag_filter_true; [reflexivity|].
    intros t. unfold keptByDelete. cbv zeta. rewrite Ed. reflexivity.
  - unfold tag_deleteMany, modify, keptByDelete. cbv zeta. rewrite Ed.
    reflexivity.
Qed.

Lemma deleteAttachments_run atts s :
  deleteAttachments atts s
  = (Ok tt, set_attachments
              (filter (fun a => negb (memZ (att_id a) (map att_id atts)))) s).
Proof.
  destruct atts; [|reflexivity].
  rewrite set_attachments_filter_true; reflexivity.
Qed.

Lemma deleteRelation_run ctx_id x s :
  exists s',
    deleteRelation ctx_id x s = (Ok tt, s')
    /\ notesT s' = notesT s
    /\ tagsToNoteT s'
       = filter (fun r => negb (ttn_noteId r =? note_id (nwr_note x)))
                (tagsToNoteT s)
    /\ tagT s'
       = filter (keptByDelete ctx_id (nwr_tags x)
                   (set_tagsToNote
                      (filter (fun r => negb (ttn_noteId r =? note_id (nwr_note x))))
                      s))
                (tagT s).
Proof.
  unfold deleteRelation.
  unfold bind at 1. cbn [tagsToNote_deleteMany_ofNote modify].
  unfold bind at 1. cbn [noteReference_deleteMany_around modify].
  unfold bind at 1. rewrite deleteOrphanedTags_run, deleteAttachments_run.
  eexists. split; [reflexivity|]. cbn. repeat split; reflexivity.
Qed.

(** One round of the loop keeps, for a tag [T] of the caller that the
    tag table had at the start: [T] is there exactly when a join row
    points to it. *)
Lemma deleteRelation_invariant ctx_id s0 x s T :
  nwr_tags x = map (tagOf s0)
                   (filter (fun r => ttn_noteId r =? note_id (nwr_note x))
                           (tagsToNoteT s0)) ->
  In T (tagT s0) -> tag_accountId T = ctx_id -> tag_id T <> 0 ->
  incl (tagsToNoteT s) (tagsToNoteT s0) ->
  (In T (tagT s) <-> exists r, In r (tagsToNoteT s) /\ ttn_tagId r = tag_id T) ->
  exists s',
    deleteRelation ctx_id x s = (Ok tt, s')
    /\ notesT s' = notesT s
    /\ tagsToNoteT s'
       = filter (fun r => negb (ttn_noteId r =? note_id (nwr_note x)))
                (tagsToNoteT s)
    /\ (In T (tagT s') <->
        exists r, In r (tagsToNoteT s') /\ ttn_tagId r = tag_id T).
Proof.
  intros Hsnap HT Hacc Hnz Hincl J.
  destruct (deleteRelation_run ctx_id x s) as (s' & E & Hn & Hr & Ht).
  exists s'. split; [exact E|]. split; [exact Hn|]. split; [exact Hr|].
  rewrite Ht, filter_In, Hr.
  set (id := note_id (nwr_note x)) in *.
  set (rows' := filter (fun r => negb (ttn_noteId r =? id)) (tagsToNoteT s)).
  unfold keptByDelete. cbv zeta. cbn [tagsToNoteT set_tagsToNote].
  fold rows'.
  set (all := map tag_id (flat_map _ (nwr_tags x))).
  rewrite Hacc, Z.eqb_refl, andb_true_r, negb_true_iff, memZ_difference.
  (* a row of [rows'] pointing to [T] puts its id among the used ones *)
  assert (Hused : forall r, In r rows' -> ttn_tagId r = tag_id T ->
            In T (tagT s) -> memZ (tag_id T) all = true ->
            memZ (tag_id T)
              (filter truthyZ
                 (flat_map (fun i => match tagOf
                      (set_tagsToNote
                         (filter (fun r0 => negb (ttn_noteId r0 =? id))) s) i with
                                     | Some t => [tag_id t]
                                     | None => []
                                     end)
                    (filter (fun r0 => memZ (ttn_tagId r0) all) rows'))) = true).
  { intros r Hr' Er HTs Hall. apply memZ_In, filter_In. split.
    - apply in_flat_map. exists r. split.
      + apply filter_In. split; [exact Hr'|]. rewrite Er. exact Hall.
      + destruct (tagOf_exists
                    (set_tagsToNote
                       (filter (fun r0 => negb (ttn_noteId r0 =? id))) s) r T)
          as (t & -> & Eid); [exact HTs | symmetry; exact Er |].
        left. congruence.
    - unfold truthyZ. apply negb_true_iff, Z.eqb_neq, Hnz. }
  split.
  - intros [HTs Hkeep]. apply J in HTs as Hrow. destruct Hrow as (r & Hr0 & Er).
    destruct (ttn_noteId r =? id) eqn:En.
    + (* the row is one of the deleted note: its tag was read at the start *)
      assert (Hall : memZ (tag_id T) all = true).
      { apply memZ_In. unfold all. rewrite Hsnap. apply in_map_iff.
        destruct (tagOf_exists s0 r T HT (eq_sym Er)) as (t & Et & Eid).
        exists t. split; [congruence|]. apply in_flat_map.
        exists (Some t). split; [|left; reflexivity].
        rewrite <- Et. apply in_map. apply filter_In. split; [|exact En].
        apply Hincl, Hr0. }
      rewrite Hall in Hkeep. cbn [andb] in Hkeep.
      apply negb_false_iff, memZ_In, filter_In in Hkeep as [Hkeep _].
      apply in_flat_map in Hkeep as (r' & Hr' & Hin).
      apply filter_In in Hr' as [Hr' _].
      exists r'. split; [exact Hr'|].
      destruct (tagOf _ r') as [t|] eqn:Et; [|contradiction].
      destruct Hin as [Hin|[]]. apply tagOf_Some in Et as [_ Et]. congruence.
    + exists r. split; [|exact Er]. apply filter_In. rewrite En. auto.
  - intros (r & Hr' & Er).
    assert (HTs : In T (tagT s)).
    { apply J. exists r. split; [|exact Er]. apply filter_In in Hr'. tauto. }
    split; [exact HTs|].
    destruct (memZ (tag_id T) all) eqn:Hall; [|reflexivity].
    cbn [andb]. apply negb_false_iff. exact (Hused r Hr' Er HTs eq_refl).
Qed.

Lemma deleteLoop_invariant ctx_id s0 T l :
  In T (tagT s0) -> tag_accountId T = ctx_id -> tag_id T <> 0 ->
  Forall (fun x =>
    nwr_tags x = map (tagOf s0)
                   (filter (fun r => ttn_noteId r =? note_id (nwr_note x))
                           (tagsToNoteT s0))) l ->
  forall s,
    incl (tagsToNoteT s) (tagsToNoteT s0) ->
    (In T (tagT s) <-> exists r, In r (tagsToNoteT s) /\ ttn_tagId r = tag_id T) ->
    exists s',
      for_each l (deleteRelation ctx_id) s = (Ok tt, s')
      /\ notesT s' = notesT s
      /\ (forall r, In r (tagsToNoteT s') <->
            In r (tagsToNoteT s)
            /\ forall x, In x l -> ttn_noteId r <> note_id (nwr_note x))
      /\ (In T (tagT s') <->
          exists r, In r (tagsToNoteT s') /\ ttn_tagId r = tag_id T).
Proof.
  intros HT Hacc Hnz Hall. induction Hall as [|x l Hx _ IH]; intros s Hincl J.
  - exists s. split; [reflexivity|]. split; [reflexivity|]. split; [|exact J].
    intros r. split; [intros H; split; [exact H | intros x []] | tauto].
  - destruct (deleteRelation_invariant ctx_id s0 x s T Hx HT Hacc Hnz Hincl J)
      as (s1 & E1 & Hn1 & Hr1 & J1).
    assert (Hincl1 : incl (tagsToNoteT s1) (tagsToNoteT s0)).
    { intros r Hr. apply Hincl. rewrite Hr1 in Hr. apply filter_In in Hr. tauto. }
    destruct (IH s1 Hincl1 J1) as (s2 & E2 & Hn2 & Hr2 & J2).
    exists s2. cbn [for_each]. unfold bind. rewrite E1.
    split; [exact E2|]. split; [congruence|]. split; [|exact J2].
    intros r. rewrite Hr2, Hr1, filter_In, negb_true_iff, Z.eqb_neq.
    split.
    + intros [[H1 H2] H3]. split; [exact H1|].
      intros y [<-|Hy]; [exact H2 | exact (H3 y Hy)].
    + intros [H1 H2]. split; [split; [exact H1|]|].
      * apply H2. left. reflexivity.
      * intros y Hy. apply H2. right. exact Hy.
Qed.

Lemma deleteMany_orphan_tags ctx_id ids s T n :
  In n (notesT s) -> memZ (note_id n) ids = true -> note_accountId n = ctx_id ->
  In T (tagT s) -> tag_accountId T = ctx_id -> tag_id T <> 0 ->
  In (mkTagsToNote (tag_id T) (note_id n)) (tagsToNoteT s) ->
  let out := deleteMany ctx_id ids s in
  fst out = Ok true
  /\ ~ In (mkTagsToNote (tag_id T) (note_id n)) (tagsToNoteT (snd out))
  /\ (In T (tagT (snd out)) <->
      exists r, In r (tagsToNoteT (snd out)) /\ ttn_tagId r = tag_id T).
Proof.
  intros Hn Hids Hown HT Hacc Hnz Hrow out. subst out.
  unfold deleteMany. unfold bind at 1.
  cbn [notes_findMany_withRelations bind get ret].
  set (found := map _ (filter _ (notesT s))).
  assert (Hsnap : Forall (fun x =>
    nwr_tags x = map (tagOf s)
                   (filter (fun r => ttn_noteId r =? note_id (nwr_note x))
                           (tagsToNoteT s))) found).
  { apply Forall_forall. intros x Hx. unfold found in Hx.
    apply in_map_iff in Hx as (m & <- & _). reflexivity. }
  assert (J : In T (tagT s) <->
              exists r, In r (tagsToNoteT s) /\ ttn_tagId r = tag_id T).
  { split; [|intros _; exact HT]. intros _. eexists. split; [exact Hrow|].
    reflexivity. }
  destruct (deleteLoop_invariant ctx_id s T found HT Hacc Hnz Hsnap s
              (incl_refl _) J) as (s1 & E1 & Hn1 & Hr1 & J1).
  unfold bind. rewrite E1. cbn. split; [reflexivity|]. split; [|exact J1].
  intros Hin. apply Hr1 in Hin as [_ Hin].
  apply (Hin (mkNoteWithRelations n
           (map (tagOf s)
                (filter (fun r => ttn_noteId r =? note_id n) (tagsToNoteT s)))
           (filter (fun a => att_noteId a =? note_id n) (attachmentsT s)))).
  - unfold found. apply in_map_iff. exists n. split; [reflexivity|].
    apply filter_In. split; [exact Hn|]. rewrite Hids, Hown, Z.eqb_refl.
    reflexivity.
  - reflexivity.
Qed.

Lemma updateFirst_none {A} (p : A -> bool) f l :
  find p l = None -> updateFirst p f l = l.
Proof.
  induction l as [|a l IH]; cbn; [reflexivity|].
  destruct (p a); [discriminate|]. intros H. rewrite (IH H). reflexivity.
Qed.

Lemma set_notes_same f s : f (notesT s) = notesT s -> set_notes f s = s.
Proof. intros H. destruct s; unfold set_notes; cbn in *. rewrite H. reflexivity. Qed.

Lemma extends_notesKept s s' : extends s s' -> notesKept s s'.
Proof. intros []. assumption. Qed.

Lemma deleteMany_rows ctx_id ids s T :
  In T (tagT s) -> tag_accountId T = ctx_id -> tag_id T <> 0 ->
  referenced s T ->
  let out := deleteMany ctx_id ids s in
  fst out = Ok true
  /\ (forall r, In r (tagsToNoteT (snd out)) <->
        In r (tagsToNoteT s) /\ ~ ofDeletedNote ctx_id ids s r)
  /\ (In T (tagT (snd out)) <-> referenced (snd out) T).
Proof.
  intros HT Hacc Hnz Href out. subst out.
  unfold deleteMany. unfold bind at 1.
  cbn [notes_findMany_withRelations bind get ret].
  set (found := map _ (filter _ (notesT s))).
  assert (Hsnap : Forall (fun x =>
    nwr_tags x = map (tagOf s)
                   (filter (fun r => ttn_noteId r =? note_id (nwr_note x))
                           (tagsToNoteT s))) found).
  { apply Forall_forall. intros x Hx. unfold found in Hx.
    apply in_map_iff in Hx as (m & <- & _). reflexivity. }
  assert (J : In T (tagT s) <-> referenced s T) by tauto.
  destruct (deleteLoop_invariant ctx_id s T found HT Hacc Hnz Hsnap s
              (incl_refl _) J) as (s1 & E1 & Hn1 & Hr1 & J1).
  unfold bind. rewrite E1. cbn. split; [reflexivity|]. split; [|exact J1].
  intros r. rewrite Hr1. split; intros [H1 H2]; (split; [exact H1|]).
  - intros (m & Hm & Eid & Hids & Hown).
    apply (H2 (mkNoteWithRelations m
             (map (tagOf s)
                  (filter (fun r => ttn_noteId r =? note_id m) (tagsToNoteT s)))
             (filter (fun a => att_noteId a =? note_id m) (attachmentsT s)))).
    + unfold found. apply in_map_iff. exists m. split; [reflexivity|].
      apply filter_In. split; [exact Hm|]. rewrite Hids, Hown, Z.eqb_refl.
      reflexivity.
    + symmetry. exact Eid.
  - intros x Hx E. apply H2. unfold found in Hx.
    apply in_map_iff in Hx as (m & <- & Hm). apply filter_In in Hm as [Hm Hf].
    apply andb_true_iff in Hf as [Hids Hown]. apply Z.eqb_eq in Hown.
    exists m. cbn in E. auto.
Qed.

Lemma In_differenceZ x a b : In x (differenceZ a b) <-> In x a /\ ~ In x b.
Proof.
  unfold differenceZ. rewrite filter_In, negb_true_iff, <- not_true_iff_false.
  rewrite memZ_In. reflexivity.
Qed.

(** After the two reference steps the outgoing references of the note
    are, as a set, the input references. *)
Lemma referencesAfter_set noteId references old x :
  In x (map ref_toNoteId
            (filter (fun r => ref_fromNoteId r =? noteId)
                    (referencesAfter noteId references old)))
  <-> In x references.
Proof.
  unfold referencesAfter. cbv zeta.
  set (oldIds := map ref_toNoteId (filter _ old)).
  rewrite in_map_iff. split.
  - intros (r & <- & Hr). apply filter_In in Hr as [Hr Hfrom].
    apply filter_In in Hr as [Hr Hkeep]. rewrite Hfrom in Hkeep.
    cbn [andb] in Hkeep. apply negb_true_iff, not_true_iff_false in Hkeep.
    rewrite memZ_In, In_differenceZ in Hkeep.
    apply in_app_iff in Hr as [Hr | Hr].
    + assert (Hold : In (ref_toNoteId r) oldIds).
      { apply in_map, filter_In. auto. }
      destruct (in_dec Z.eq_dec (ref_toNoteId r) references); tauto.
    + apply in_map_iff in Hr as (y & <- & Hy). apply In_differenceZ in Hy.
      cbn. tauto.
  - intros Hx. destruct (in_dec Z.eq_dec x oldIds) as [Hold | Hnew].
    + unfold oldIds in Hold. apply in_map_iff in Hold as (r & <- & Hr).
      exists r. split; [reflexivity|]. apply filter_In in Hr as Hr'.
      destruct Hr' as [Hr1 Hr2]. apply filter_In. split; [|exact Hr2].
      apply filter_In. split; [apply in_app_iff; auto|].
      rewrite Hr2. cbn [andb]. apply negb_true_iff, not_true_iff_false.
      rewrite memZ_In, In_differenceZ. tauto.
    + exists (mkNoteReference noteId x). split; [reflexivity|].
      apply filter_In. split; [|apply Z.eqb_refl].
      apply filter_In. split.
      * apply in_app_iff. right. apply in_map, In_differenceZ. auto.
      * cbn. rewrite Z.eqb_refl. cbn [andb].
        apply negb_true_iff, not_true_iff_false.
        rewrite memZ_In, In_differenceZ. tauto.
Qed.

Lemma referencesAfter_others noteId references old r :
  ref_fromNoteId r <> noteId ->
  (In r (referencesAfter noteId references old) <-> In r old).
Proof.
  intros Hne. unfold referencesAfter. cbv zeta.
  rewrite filter_In, in_app_iff, in_map_iff.
  apply Z.eqb_neq in Hne as Hb. rewrite Hb. cbn. split.
  - intros [[H | (y & <- & _)] _]; [exact H|]. cbn in Hne. contradiction.
  - auto.
Qed.

Section Keys.
Variable Number : str -> option Z.
Hypothesis Number_showZ : forall z, Number (showZ z) = Some z.

(** For a name without the delimiter the key is read back as it was
written. *)
Lemma findByKey_keyString t tags :
noKey (tag_name t) = true ->
findByKey Number (keyString t) tags
= find (fun t' => str_eqb (tag_name t') (tag_name t)
                && (tag_parent t' =? tag_parent t)%Z) tags.
Proof.
intros H. unfold findByKey, keyString.
change (lit "<key>") with keyDelimiter.
rewrite (split_key _ _ H (showZ_noLt _)). cbn [nth nth_error].
rewrite Number_showZ. reflexivity.
Qed.

Lemma findByKey_old t oldTags :
In t oldTags -> noKey (tag_name t) = true ->
findByKey Number (keyString t) oldTags <> None.
Proof.
intros Hin H. rewrite (findByKey_keyString t oldTags H). intros F.
apply (find_none _ _ F) in Hin. cbn in Hin.
rewrite Z.eqb_refl, andb_true_r in Hin.
assert (str_eqb (tag_name t) (tag_name t) = true) by (apply str_eqb_eq; reflexivity).
congruence.
Qed.
End Keys.

Section Upsert.
Variable Number : str -> option Z.
Variable build : list str -> list TagTreeNode.

Lemma upsert_orphan_tags ctx_id input s T n :
  in_id input = Some n ->
  In T (tagT s) -> tag_accountId T = ctx_id -> tag_id T <> 0 ->
  In (mkTagsToNote (tag_id T) n) (tagsToNoteT s) ->
  let s' := snd (upsert Number build ctx_id input s) in
  In T (tagT s') <-> referenced s' T.
Proof.
  intros Hid HT Hacc Hnz Hrow s'. subst s'.
  assert (Hkept : forall s', nothingLost s s' ->
            (In T (tagT s') <-> referenced s' T)).
  { intros s' [Ht Hr]. split; intros _; [|apply Ht, HT].
    eexists. split; [apply Hr, Hrow | reflexivity]. }
  pose proof (createNote_loses_nothing ctx_id
    (build (extractHashtags (hashtagSource (option_map sanitize (in_content input)))))
    (option_map sanitize (in_content input)) input s) as Hcreate.
  destruct (upsert Number build ctx_id input s) as [r s'] eqn:E.
  cbn [snd]. revert E. unfold upsert. rewrite Hid. cbn [orElse].
  destruct (truthyZ n).
  2:{ intros E. rewrite E in Hcreate. apply Hkept, Hcreate. }
  clear Hcreate. unfold bind at 1.
  match goal with |- context [notes_update n ctx_id ?u s] =>
    destruct (notes_update_run n ctx_id u s) as [-> | (n0 & En & ->)] end.
  { intros [= <- <-]. apply Hkept, nothingLost_refl. }
  destruct (in_content input) as [c|]; cbn [option_map].
  2:{ intros [= <- <-]. apply Hkept. split; apply incl_refl. }
  intros E. apply reconcile_outcome in E. cbv zeta in E.
  destruct E as [(-> & X & _) | (-> & _ & _ & tags5 & Hincl & Htags)].
  { apply Hkept. apply extends_nothingLost in X. exact X. }
  rewrite Htags, filter_In.
  assert (Hn : note_id (applyUpdate
     (mkUpdate (if in_type input =? -1 then None else Some (in_type input))
        (in_isArchived input) (in_isTop input) (in_isShare input)
        (in_isRecycle input) (Some (sanitize c))) n0) = n) by exact En.
  rewrite Hn.
  assert (K := keptByCleanup_iff ctx_id
    (set_notes (updateFirst
       (fun n1 => (note_id n1 =? n) && (note_accountId n1 =? ctx_id))
       (applyUpdate (mkUpdate (if in_type input =? -1 then None else Some (in_type input))
        (in_isArchived input) (in_isTop input) (in_isShare input)
        (in_isRecycle input) (Some (sanitize c))))) s) n (tagsToNoteT s') T HT Hacc Hnz Hrow).
  cbv zeta in K. rewrite K. unfold referenced. split; [tauto|].
  intros H. split; [|exact H]. apply Hincl, HT.
Qed.


(** Whatever an update with content does: either it returns the note
    and the outgoing references of the note are the input references
    (those of other notes being as before), or it throws and the
    reference table is as before.  It throws when the caller has no note
    of that id, and when the key of a tag of the note is not read back
    to a tag of the note. *)
Lemma upsert_references ctx_id input s id c :
  in_id input = Some id -> id <> 0 -> in_content input = Some c ->
  let out := upsert Number build ctx_id input s in
  let here n := (note_id n =? id) && (note_accountId n =? ctx_id) in
  let oldTags := tagsOf (map (fun r => (r, tagOf s r))
                   (filter (fun r => ttn_noteId r =? id) (tagsToNoteT s))) in
  (exists note,
      fst out = Ok (Some note) /\ note_id note = id
      /\ (forall x, In x (referencesOf (snd out) id)
                    <-> In x (orElse (in_references input) []))
      /\ (forall r, ref_fromNoteId r <> id ->
            (In r (noteReferenceT (snd out)) <-> In r (noteReferenceT s))))
  \/ (fst out = Err P2025 /\ snd out = s /\ find here (notesT s) = None)
  \/ (fst out = Err TypeError
      /\ noteReferenceT (snd out) = noteReferenceT s
      /\ exists key, In key (map keyString oldTags)
                     /\ findByKey Number key oldTags = None).
Proof.
  intros Hid Hnz Hc out here oldTags. subst out.
  destruct (upsert Number build ctx_id input s) as [r s'] eqn:E.
  cbn [fst snd]. revert E. unfold upsert. rewrite Hid, Hc.
  cbn [orElse option_map]. unfold truthyZ.
  destruct (Z.eqb_spec id 0) as [|_]; [contradiction|]. cbn [negb].
  unfold bind at 1. unfold notes_update at 1. unfold bind at 1. cbn [get].
  fold here. destruct (find here (notesT s)) as [n0|] eqn:F.
  2:{ intros [= <- <-]. right. left. auto. }
  assert (En : note_id n0 = id).
  { apply find_some in F as [_ F]. apply andb_true_iff in F as [F _].
    apply Z.eqb_eq, F. }
  unfold bind at 1. cbn [modify ret].
  intros E. apply reconcile_outcome in E. cbv zeta in E.
  match type of E with context [applyUpdate ?u n0] =>
    assert (Hn : note_id (applyUpdate u n0) = id) by exact En end.
  rewrite Hn in E. cbn [tagsToNoteT set_notes] in E.
  destruct E as [(-> & X & Hkey) | (-> & _ & Hrefs & _)].
  { right. right. split; [reflexivity|]. split; [destruct X; assumption|].
    exact Hkey. }
  left. eexists. split; [reflexivity|]. split; [exact Hn|].
  cbn [noteReferenceT set_notes] in Hrefs. split.
  - intros x. unfold referencesOf. rewrite Hrefs. apply referencesAfter_set.
  - intros r Hr. rewrite Hrefs. apply referencesAfter_others, Hr.
Qed.


End Upsert.

(** The schema gives an absent [type] the value 0, so an update that
    names no type writes type 0. *)
Example upsert_absent_type_is_written :
  let s := set_notes (map (fun n => if note_id n =? 10
                                    then mkNote 10 1 (lit "x") 1 false false
                                                false false false
                                    else n)) sampleStore in
  let rq := mkUpsertRequest None None None (Some 10) None (Some true) None None
                            None in
  map note_type (filter (fun n => note_id n =? 10) (notesT s)) = [1]
  /\ map note_type
         (filter (fun n => note_id n =? 10)
                 (notesT (snd (runUpsert 1 (parseUpsert rq) s)))) = [0].
Proof. vm_compute. split; reflexivity. Qed.



Lemma addReference_spec ctx_id fromNoteId toNoteId s :
  let owned id :=
    find (fun n => (note_id n =? id) && (note_accountId n =? ctx_id)) (notesT s) in
  addReference ctx_id fromNoteId toNoteId s
  = match owned fromNoteId, owned toNoteId with
    | Some _, Some _ =>
      (Ok (mkNoteReference fromNoteId toNoteId),
       set_noteReference
         (fun l => l ++ [mkNoteReference fromNoteId toNoteId]) s)
    | _, _ => (Err (JsError (lit "Note not found")), s)
    end.
Proof.
  intros owned. unfold addReference, insertNoteReference, bind,
    notes_findUnique, bind, get, ret. fold (owned fromNoteId). fold (owned toNoteId).
  destruct (owned fromNoteId), (owned toNoteId); reflexivity.
Qed.

(** C2 (failing input).  Note 10 refers to the notes 1, 2 and 3 and
    carries a tag whose name contains the key delimiter, [x<key>y].  An
    [upsert] of the note with content that no longer has the hashtag and
    with references 2, 3 and 4 throws a TypeError in the tag step, and the
    references of the note are still 1, 2 and 3. *)
Theorem upsert_references_not_updated :
  let s0 := snd (runUpsert 1 (edit 10 "#x<key>y" (Some [1; 2; 3])) sampleStore) in
  let out := runUpsert 1 (edit 10 "plain" (Some [2; 3; 4])) s0 in
  referencesOf s0 10 = [1; 2; 3]
  /\ map tag_name (tagT s0) = [lit "x<key>y"]
  /\ fst out = Err TypeError
  /\ referencesOf (snd out) 10 = [1; 2; 3].
Proof. vm_compute. repeat split. Qed.

Example upsert_references_updated :
  let out := runUpsert 1 (edit 10 "plain" (Some [2; 3; 4])) sampleStore in
  referencesOf sampleStore 10 = [1; 2; 3]
  /\ referencesOf (snd out) 10 = [2; 3; 4].
Proof. vm_compute. repeat split. Qed.

(** C4 (failing input).  Note 10 carries the tags [p], [p/a] and
    [a<key>1], the tag [p] having id 1.  A first [upsert] with content
    [#p/a] returns, and has removed the association with [a] (id 2)
    instead of the one with [a<key>1]; a second [upsert] with the same
    content associates a new tag [a] (id 4) and throws: the association
    set after the second call is not the one after the first. *)
Theorem upsert_twice_differs :
  let s0 := snd (runUpsert 1 (edit 10 "#p/a #a<key>1" None) sampleStore) in
  let first := runUpsert 1 (edit 10 "#p/a" None) s0 in
  let second := runUpsert 1 (edit 10 "#p/a" None) (snd first) in
  map (fun t => (tag_id t, tag_name t, tag_parent t)) (tagT s0)
    = [(1, lit "p", 0); (2, lit "a", 1); (3, lit "a<key>1", 0)]
  /\ tagIdsOf s0 10 = [1; 2; 3]
  /\ (exists note, fst first = Ok (Some note))
  /\ tagIdsOf (snd first) 10 = [1; 3]
  /\ fst second = Err TypeError
  /\ tagIdsOf (snd second) 10 = [1; 3; 4].
Proof. vm_compute. repeat split. eexists. reflexivity. Qed.

Example upsert_twice_same :
  let first := runUpsert 1 (edit 10 "#p/a #b" None) sampleStore in
  let second := runUpsert 1 (edit 10 "#p/a #b" None) (snd first) in
  tagIdsOf (snd first) 10 = [1; 2; 3]
  /\ tagsToNoteT (snd second) = tagsToNoteT (snd first)
  /\ tagT (snd second) = tagT (snd first).
Proof. vm_compute. repeat split. Qed.

(** C8 (failing input).  Note 20 belongs to account 2.  An [upsert] by
    account 1 of its note 10 with references [20] creates the edge from 10
    to 20, which [addReference] refuses for the same caller and notes. *)
Theorem upsert_reference_to_foreign_note :
  let out := runUpsert 1 (edit 10 "hello" (Some [20])) sampleStore in
  map note_accountId (filter (fun n => note_id n =? 20) (notesT sampleStore)) = [2]
  /\ (exists note, fst out = Ok (Some note))
  /\ noteReferenceT (snd out) = [mkNoteReference 10 20]
  /\ addReference 1 10 20 sampleStore
     = (Err (JsError (lit "Note not found")), sampleStore).
Proof. vm_compute. repeat split. eexists. reflexivity. Qed.

Example taggedStore_tags :
  tagT taggedStore = [sharedTag; ownTag]
  /\ tagsToNoteT taggedStore
     = [mkTagsToNote 1 10; mkTagsToNote 2 10; mkTagsToNote 1 1].
Proof. vm_compute. split; reflexivity. Qed.

Example deleteMany_shared_and_exclusive :
  let s' := snd (deleteMany 1 [10] taggedStore) in
  tagT s' = [sharedTag] /\ tagsToNoteT s' = [mkTagsToNote 1 1].
Proof. vm_compute. split; reflexivity. Qed.

Example upsert_drops_unused_tag :
  let s' := snd (runUpsert 1 (edit 10 "#shared" None) taggedStore) in
  tagT s' = [sharedTag]
  /\ tagsToNoteT s' = [mkTagsToNote 1 10; mkTagsToNote 1 1].
Proof. vm_compute. split; reflexivity. Qed.


(** *** The read and batch procedures *)

Import FollowsFacts.

Lemma find_updateFirst {A} (p : A -> bool) f l n :
  find p l = Some n -> p (f n) = true -> find p (updateFirst p f l) = Some (f n).
Proof.
  induction l as [|a l IH]; simpl; [discriminate|].
  destruct (p a) eqn:E.
  - intros [= ->] H. simpl. rewrite H. reflexivity.
  - intros H1 H2. simpl. rewrite E. auto.
Qed.

Lemma updateFirst_twice {A} (p : A -> bool) f l :
  (forall x, p x = true -> p (f x) = true) ->
  (forall x, f (f x) = f x) ->
  updateFirst p f (updateFirst p f l) = updateFirst p f l.
Proof.
  intros Hp Hf. induction l as [|a l IH]; simpl; [reflexivity|].
  destruct (p a) eqn:E; simpl.
  - rewrite (Hp a E), Hf. reflexivity.
  - rewrite E, IH. reflexivity.
Qed.

Lemma In_updateFirst_other {A} (p : A -> bool) f l m :
  p m = false -> (forall x, p x = true -> p (f x) = true) ->
  (In m (updateFirst p f l) <-> In m l).
Proof.
  intros Hm Hp. induction l as [|a l IH]; simpl; [tauto|].
  destruct (p a) eqn:E; simpl.
  - split; intros [H|H]; auto.
    + subst m. rewrite (Hp a E) in Hm. discriminate.
    + subst m. rewrite E in Hm. discriminate.
  - rewrite IH. tauto.
Qed.

(** [reviewNote] on a note of the caller marks it reviewed and changes
    nothing else: [detail] then shows the note it returned, a second
    call returns the same note and leaves the store, and every other
    note is as before.  Without such a note it throws P2025 and writes
    nothing. *)
Theorem reviewNote_outcome ctx_id id s :
  let here n := (note_id n =? id) && (note_accountId n =? ctx_id) in
  match find here (notesT s) with
  | None => reviewNote ctx_id id s = (Err P2025, s)
  | Some n =>
    let s1 := set_notes (updateFirst here setReviewed) s in
    reviewNote ctx_id id s = (Ok (setReviewed n), s1)
    /\ note_isReviewed (setReviewed n) = true
    /\ detail ctx_id id s1 = (Ok (Some (withDetail s1 (setReviewed n))), s1)
    /\ reviewNote ctx_id id s1 = (Ok (setReviewed n), s1)
    /\ (forall m, here m = false -> (In m (notesT s1) <-> In m (notesT s)))
  end.
Proof.
  intros here. unfold reviewNote, bind, get, modify, ret.
  fold here. destruct (find here (notesT s)) as [n|] eqn:Hf; [|reflexivity].
  assert (Hh : forall x, here x = true -> here (setReviewed x) = true)
    by (intros x Hx; exact Hx).
  cbv zeta. split; [reflexivity|]. split; [reflexivity|].
  pose proof (find_updateFirst here setReviewed _ n Hf
                (Hh n (proj2 (find_some _ _ Hf)))) as Hf1.
  split; [|split].
  - unfold detail, bind, get, ret. fold here. cbn [notesT set_notes].
    rewrite Hf1. reflexivity.
  - cbn [notesT set_notes]. rewrite Hf1. unfold set_notes. cbn.
    rewrite (updateFirst_twice here setReviewed (notesT s) Hh)
      by (intros x; reflexivity).
    reflexivity.
  - intros m Hm. cbn [notesT set_notes].
    apply In_updateFirst_other; assumption.
Qed.

Lemma applyUpdate_twice u n : applyUpdate u (applyUpdate u n) = applyUpdate u n.
Proof.
  destruct u as [[t|] [a|] [tp|] [sh|] [rc|] [c|]]; reflexivity.
Qed.

Lemma map_update_twice (hit : notes -> bool) f l :
  (forall x, hit (f x) = hit x) -> (forall x, f (f x) = f x) ->
  map (fun n => if hit n then f n else n)
      (map (fun n => if hit n then f n else n) l)
  = map (fun n => if hit n then f n else n) l.
Proof.
  intros Hh Hf. rewrite map_map. apply map_ext. intros n.
  destruct (hit n) eqn:E; [rewrite Hh, E, Hf | rewrite E]; reflexivity.
Qed.

Lemma filter_map_hit (hit : notes -> bool) f l :
  (forall x, hit (f x) = hit x) ->
  length (filter hit (map (fun n => if hit n then f n else n) l))
  = length (filter hit l).
Proof.
  intros Hh. induction l as [|a l IH]; simpl; [reflexivity|].
  destruct (hit a) eqn:E; [rewrite Hh, E | rewrite E]; simpl; rewrite IH;
    reflexivity.
Qed.

Lemma notes_updateMany_run ids accountId data s :
  let hit n := memZ (note_id n) ids && (note_accountId n =? accountId) in
  notes_updateMany ids accountId data s
  = (Ok (Z.of_nat (length (filter hit (notesT s)))),
     set_notes (map (fun n => if hit n then applyUpdate data n else n)) s).
Proof. reflexivity. Qed.

Lemma notes_updateMany_twice ids accountId data s :
  notes_updateMany ids accountId data
    (snd (notes_updateMany ids accountId data s))
  = notes_updateMany ids accountId data s.
Proof.
  rewrite !notes_updateMany_run. cbn [snd notesT set_notes].
  set (hit := fun n => memZ (note_id n) ids && (note_accountId n =? accountId)).
  assert (Hh : forall x, hit (applyUpdate data x) = hit x) by reflexivity.
  rewrite (filter_map_hit hit (applyUpdate data) _ Hh).
  f_equal. unfold set_notes. cbn.
  rewrite (map_update_twice hit (applyUpdate data) _ Hh (applyUpdate_twice data)).
  reflexivity.
Qed.


Lemma find_map_same {A} (p : A -> bool) g l :
  (forall x, p (g x) = p x) -> find p (map g l) = option_map g (find p l).
Proof.
  intros H. induction l as [|a l IH]; simpl; [reflexivity|].
  rewrite H. destruct (p a); [reflexivity | exact IH].
Qed.

(** Trashing does not unshare: [trashMany] is [updateMany] with
    [isRecycle: true] and nothing else, so a note that [publicDetail]
    showed before is still shown afterwards, with the same content, join
    rows and attachments, now marked recycled when it is one of the
    caller's listed notes. *)
Theorem trashMany_keeps_public ctx_id ids s id d :
  publicDetail id s = (Ok (Some d), s) ->
  let s1 := snd (trashMany ctx_id ids s) in
  let hit n := memZ (note_id n) ids && (note_accountId n =? ctx_id) in
  trashMany ctx_id ids s
  = updateMany ctx_id (mkUpdateManyInput (-1) None (Some true) ids) s
  /\ exists d',
       publicDetail id s1 = (Ok (Some d'), s1)
       /\ note_content (nd_note d') = note_content (nd_note d)
       /\ note_isShare (nd_note d') = true
       /\ note_isRecycle (nd_note d')
          = (if hit (nd_note d) then true else note_isRecycle (nd_note d))
       /\ nd_tags d' = nd_tags d /\ nd_attachments d' = nd_attachments d.
Proof.
  intros H s1 hit. split; [reflexivity|].
  unfold publicDetail, bind, get, ret in H.
  destruct (find _ (notesT s)) as [n|] eqn:Hf; [|discriminate].
  injection H as <-.
  unfold s1, trashMany. rewrite notes_updateMany_run. cbn [snd].
  unfold publicDetail, bind, get, ret. cbn [notesT set_notes].
  rewrite find_map_same
    by (intros x; destruct (memZ (note_id x) ids && _); reflexivity).
  rewrite Hf. cbn [option_map]. eexists. split; [reflexivity|].
  apply find_some in Hf as [_ Hn]. apply andb_true_iff in Hn as [_ Hn].
  cbn [withDetail nd_note nd_tags nd_attachments]. unfold hit.
  destruct (memZ (note_id n) ids && _); cbn; auto.
Qed.

Lemma trashMany_keeps_public_witness :
  let s1 := snd (trashMany 2 [30] storeWithShared) in
  exists d',
    publicDetail 30 s1 = (Ok (Some d'), s1)
    /\ note_content (nd_note d') = lit "public"
    /\ note_isRecycle (nd_note d') = true.
Proof.
  intros s1.
  destruct (trashMany_keeps_public 2 [30] storeWithShared 30
              (withDetail storeWithShared sharedNote) eq_refl)
    as (_ & d' & H1 & H2 & _ & H4 & _).
  exists d'. split; [exact H1|]. split; [exact H2 | exact H4].
Defined.

(** *** What [deleteMany] leaves *)

Lemma deleteRelation_tables ctx_id x s :
  exists s',
    deleteRelation ctx_id x s = (Ok tt, s')
    /\ notesT s' = notesT s
    /\ tagsToNoteT s'
       = filter (fun r => negb (ttn_noteId r =? note_id (nwr_note x)))
                (tagsToNoteT s)
    /\ noteReferenceT s'
       = filter (fun r => negb ((ref_fromNoteId r =? note_id (nwr_note x))
                                || (ref_toNoteId r =? note_id (nwr_note x))))
                (noteReferenceT s)
    /\ attachmentsT s'
       = filter (fun a => negb (memZ (att_id a)
                                     (map att_id (nwr_attachments x))))
                (attachmentsT s)
    /\ incl (tagT s') (tagT s)
    /\ followsT s' = followsT s.
Proof.
  unfold deleteRelation.
  unfold bind at 1. cbn [tagsToNote_deleteMany_ofNote modify].
  unfold bind at 1. cbn [noteReference_deleteMany_around modify].
  unfold bind at 1. rewrite deleteOrphanedTags_run, deleteAttachments_run.
  eexists. split; [reflexivity|]. cbn.
  repeat (split; [reflexivity|]). split; [|reflexivity].
  intros t Ht. apply filter_In in Ht. tauto.
Qed.

Lemma deleteLoop_tables ctx_id l : forall s,
  exists s',
    for_each l (deleteRelation ctx_id) s = (Ok tt, s')
    /\ notesT s' = notesT s
    /\ (forall r, In r (tagsToNoteT s') <->
          In r (tagsToNoteT s)
          /\ forall x, In x l -> ttn_noteId r <> note_id (nwr_note x))
    /\ (forall r, In r (noteReferenceT s') <->
          In r (noteReferenceT s)
          /\ forall x, In x l -> ref_fromNoteId r <> note_id (nwr_note x)
                                 /\ ref_toNoteId r <> note_id (nwr_note x))
    /\ (forall a, In a (attachmentsT s') <->
          In a (attachmentsT s)
          /\ forall x, In x l ->
               ~ In (att_id a) (map att_id (nwr_attachments x)))
    /\ incl (tagT s') (tagT s)
    /\ followsT s' = followsT s.
Proof.
  induction l as [|x l IH]; intros s.
  - exists s. split; [reflexivity|]. split; [reflexivity|].
    repeat split; try tauto; try (intros ? []); auto using incl_refl.
  - destruct (deleteRelation_tables ctx_id x s)
      as (s1 & E1 & Hn1 & Hr1 & Hf1 & Ha1 & Ht1 & Hw1).
    destruct (IH s1) as (s2 & E2 & Hn2 & Hr2 & Hf2 & Ha2 & Ht2 & Hw2).
    exists s2. cbn [for_each]. unfold bind. rewrite E1.
    split; [exact E2|]. split; [congruence|].
    split; [|split; [|split; [|split]]].
    + intros r. rewrite Hr2, Hr1, filter_In, negb_true_iff, Z.eqb_neq.
      split.
      * intros [[H1 H2] H3]. split; [exact H1|].
        intros y [<-|Hy]; [exact H2 | exact (H3 y Hy)].
      * intros [H1 H2]. split; [split; [exact H1|]|].
        -- apply H2. left. reflexivity.
        -- intros y Hy. apply H2. right. exact Hy.
    + intros r. rewrite Hf2, Hf1, filter_In, negb_true_iff, orb_false_iff,
        !Z.eqb_neq.
      split.
      * intros [[H1 H2] H3]. split; [exact H1|].
        intros y [<-|Hy]; [exact H2 | exact (H3 y Hy)].
      * intros [H1 H2]. split; [split; [exact H1|]|].
        -- apply H2. left. reflexivity.
        -- intros y Hy. apply H2. right. exact Hy.
    + intros a. rewrite Ha2, Ha1, filter_In, negb_true_iff.
      rewrite <- not_true_iff_false, memZ_In.
      split.
      * intros [[H1 H2] H3]. split; [exact H1|].
        intros y [<-|Hy]; [exact H2 | exact (H3 y Hy)].
      * intros [H1 H2]. split; [split; [exact H1|]|].
        -- apply H2. left. reflexivity.
        -- intros y Hy. apply H2. right. exact Hy.
    + eapply incl_tran; eassumption.
    + congruence.
Qed.

Lemma deleteMany_run ctx_id ids s :
  let found := map (fun n =>
                 mkNoteWithRelations n
                   (map (tagOf s)
                        (filter (fun r => ttn_noteId r =? note_id n)
                                (tagsToNoteT s)))
                   (filter (fun a => att_noteId a =? note_id n)
                           (attachmentsT s)))
                 (filter (fun n => memZ (note_id n) ids
                                   && (note_accountId n =? ctx_id))
                         (notesT s)) in
  exists s1,
    for_each found (deleteRelation ctx_id) s = (Ok tt, s1)
    /\ deleteMany ctx_id ids s
       = (Ok true,
          set_notes (filter (fun n => negb (memZ (note_id n) ids
                                            && (note_accountId n =? ctx_id))))
                    s1).
Proof.
  intros found.
  destruct (deleteLoop_tables ctx_id found s) as (s1 & E1 & _).
  exists s1. split; [exact E1|].
  unfold deleteMany. unfold bind at 1.
  cbn [notes_findMany_withRelations bind get ret].
  fold found. unfold bind. rewrite E1. reflexivity.
Qed.

Lemma found_deleted ctx_id ids s (P : Z -> Prop) :
  (forall x,
     In x (map (fun n =>
                 mkNoteWithRelations n
                   (map (tagOf s)
                        (filter (fun r => ttn_noteId r =? note_id n)
                                (tagsToNoteT s)))
                   (filter (fun a => att_noteId a =? note_id n)
                           (attachmentsT s)))
                 (filter (fun n => memZ (note_id n) ids
                                   && (note_accountId n =? ctx_id))
                         (notesT s))) ->
     P (note_id (nwr_note x)))
  <-> (forall id, deletedBy ctx_id ids s id -> P id).
Proof.
  split.
  - intros H id (n & Hn & <- & Hm & Ho).
    apply (H (mkNoteWithRelations n
                (map (tagOf s)
                     (filter (fun r => ttn_noteId r =? note_id n)
                             (tagsToNoteT s)))
                (filter (fun a => att_noteId a =? note_id n) (attachmentsT s)))).
    apply in_map_iff. exists n. split; [reflexivity|].
    apply filter_In. split; [exact Hn|]. rewrite Hm, Ho, Z.eqb_refl.
    reflexivity.
  - intros H x Hx. apply in_map_iff in Hx as (n & <- & Hn).
    apply filter_In in Hn as [Hn Hh]. apply andb_true_iff in Hh as [Hm Ho].
    apply H. exists n. apply Z.eqb_eq in Ho. auto.
Qed.

Lemma deleteMany_notes ctx_id ids s :
  notesT (snd (deleteMany ctx_id ids s))
  = filter (fun n => negb (memZ (note_id n) ids
                           && (note_accountId n =? ctx_id))) (notesT s).
Proof.
  destruct (deleteMany_run ctx_id ids s) as (s1 & E1 & E). rewrite E.
  cbn [snd notesT set_notes].
  match type of E1 with
  | for_each ?l _ _ = _ =>
    destruct (deleteLoop_tables ctx_id l s) as (s1' & E1' & Hn1 & _)
  end.
  rewrite E1 in E1'. injection E1' as <-. rewrite Hn1. reflexivity.
Qed.


Lemma find_filter_none {A} (p q : A -> bool) l :
  (forall x, p x = true -> q x = false) -> find p (filter q l) = None.
Proof.
  intros H. induction l as [|a l IH]; simpl; [reflexivity|].
  destruct (q a) eqn:Eq; [|exact IH]. simpl.
  destruct (p a) eqn:Ep; [|exact IH]. rewrite (H a Ep) in Eq. discriminate.
Qed.

Lemma find_filter_same {A} (p q : A -> bool) l :
  (forall x, p x = true -> q x = true) -> find p (filter q l) = find p l.
Proof.
  intros H. induction l as [|a l IH]; simpl; [reflexivity|].
  destruct (q a) eqn:Eq; simpl.
  - destruct (p a); [reflexivity | exact IH].
  - destruct (p a) eqn:Ep; [|exact IH]. rewrite (H a Ep) in Eq. discriminate.
Qed.

Lemma filter_filter_negb {A} (p : A -> bool) l :
  filter p (filter (fun x => negb (p x)) l) = [].
Proof.
  induction l as [|a l IH]; simpl; [reflexivity|].
  destruct (p a) eqn:E; simpl; [exact IH | rewrite E; exact IH].
Qed.

(** After [deleteMany] the listed notes cannot be read back by the
    caller: [listByIds] on the same ids answers the empty list and
    [detail] on each of them answers [null].  A note of another account
    whose id was listed is still what [detail] shows its owner. *)
Theorem deleteMany_then_read ctx_id ids s :
  let s' := snd (deleteMany ctx_id ids s) in
  listByIds ctx_id ids s' = (Ok [], s')
  /\ (forall id, In id ids -> detail ctx_id id s' = (Ok None, s'))
  /\ (forall other id d,
        other <> ctx_id -> detail other id s = (Ok (Some d), s) ->
        exists d', detail other id s' = (Ok (Some d'), s')
                   /\ nd_note d' = nd_note d).
Proof.
  intros s'.
  assert (Hn : notesT s'
               = filter (fun n => negb (memZ (note_id n) ids
                                        && (note_accountId n =? ctx_id)))
                        (notesT s))
    by apply (deleteMany_notes ctx_id ids s).
  split; [|split].
  - unfold listByIds, bind, get, ret. rewrite Hn.
    rewrite (filter_filter_negb
               (fun n => memZ (note_id n) ids && (note_accountId n =? ctx_id))).
    reflexivity.
  - intros id Hid. unfold detail, bind, get, ret. rewrite Hn.
    rewrite find_filter_none; [reflexivity|].
    intros x Hx. apply andb_true_iff in Hx as [H1 H2].
    apply Z.eqb_eq in H1. subst id. rewrite H2.
    apply (proj2 (memZ_In _ _)) in Hid. rewrite Hid. reflexivity.
  - intros other id d Ho H. unfold detail, bind, get, ret in H.
    destruct (find _ (notesT s)) as [n|] eqn:Hf; [|discriminate].
    injection H as <-. unfold detail, bind, get, ret. rewrite Hn.
    rewrite find_filter_same.
    + rewrite Hf. eexists. split; reflexivity.
    + intros x Hx. apply andb_true_iff in Hx as [_ H2].
      apply Z.eqb_eq in H2.
      destruct (Z.eqb_spec (note_accountId x) ctx_id) as [E|_];
        [congruence|]. rewrite andb_false_r. reflexivity.
Qed.

Lemma deleteMany_then_read_witness :
  let s' := snd (deleteMany 1 [10; 20] sampleStore) in
  listByIds 1 [10; 20] s' = (Ok [], s')
  /\ detail 1 10 s' = (Ok None, s')
  /\ exists d', detail 2 20 s' = (Ok (Some d'), s')
                /\ nd_note d' = blankNote 20 2.
Proof.
  intros s'.
  destruct (deleteMany_then_read 1 [10; 20] sampleStore) as (H1 & H2 & H3).
  split; [exact H1|]. split.
  - apply H2. left. reflexivity.
  - apply (H3 2 20 (withDetail sampleStore (blankNote 20 2)));
      [discriminate | reflexivity].
Defined.



(** *** References and the read procedures *)

Lemma find_exists_true {A} (p : A -> bool) l x :
  In x l -> p x = true -> exists y, find p l = Some y /\ p y = true.
Proof.
  intros Hin Hp. destruct (find p l) as [y|] eqn:E.
  - exists y. split; [reflexivity|]. exact (proj2 (find_some _ _ E)).
  - rewrite (find_none _ _ E x Hin) in Hp. discriminate.
Qed.

(** A reference added through [addReference] can be read back from
    both ends: [listByIds] shows the target among the references of the
    source and the source among the [referencedBy] of the target, and
    [noteReferenceList] of the source lists the target note. *)
Theorem addReference_then_lists order ctx_id a b s r s1 :
  (forall l x, In x l -> In x (order l)) ->
  addReference ctx_id a b s = (Ok r, s1) ->
  exists la lb out nb,
    listByIds ctx_id [a] s1 = (Ok la, s1) /\ la <> []
    /\ Forall (fun x => In b (nl_references x)) la
    /\ listByIds ctx_id [b] s1 = (Ok lb, s1) /\ lb <> []
    /\ Forall (fun y => In a (nl_referencedBy y)) lb
    /\ noteReferenceList order a ofReferences s1 = (Ok out, s1)
    /\ In (Some (withRelations s1 nb)) out /\ note_id nb = b.
Proof.
  intros Ho H. rewrite addReference_spec in H. cbv zeta in H.
  destruct (find _ (notesT s)) as [na|] eqn:Ha; [|discriminate].
  destruct (find (fun n => (note_id n =? b) && _) (notesT s)) as [nb|] eqn:Hb;
    [|discriminate].
  injection H as <- <-.
  apply find_some in Ha as [Ha1 Ha2]. apply andb_true_iff in Ha2 as [Ha2 Ha3].
  apply find_some in Hb as [Hb1 Hb2]. apply andb_true_iff in Hb2 as [Hb2 Hb3].
  apply Z.eqb_eq in Ha2, Hb2.
  assert (Hlist : forall c nc, In nc (notesT s) -> note_id nc = c ->
            (note_accountId nc =? ctx_id) = true ->
            filter (fun n => memZ (note_id n) [c] && (note_accountId n =? ctx_id))
                   (notesT s) <> []).
  { intros c nc Hin Hid Hacc E.
    assert (Hx : In nc (filter (fun n => memZ (note_id n) [c]
                                         && (note_accountId n =? ctx_id))
                               (notesT s))).
    { apply filter_In. split; [exact Hin|]. rewrite Hid, Hacc. cbn.
      rewrite Z.eqb_refl. reflexivity. }
    rewrite E in Hx. exact Hx. }
  destruct (find_exists_true (fun n => note_id n =? b) (notesT s) nb Hb1
              (proj2 (Z.eqb_eq _ _) Hb2)) as (nb' & Hf & Hid').
  apply Z.eqb_eq in Hid'.
  do 3 eexists. exists nb'.
  split; [reflexivity|]. split.
  { cbn [notesT set_noteReference]. intros E. apply map_eq_nil in E.
    exact (Hlist a na Ha1 Ha2 Ha3 E). }
  split.
  { apply Forall_forall. intros x Hx. apply in_map_iff in Hx as (n & <- & Hn).
    apply filter_In in Hn as [_ Hn]. apply andb_true_iff in Hn as [Hn _].
    cbn in Hn. rewrite orb_false_r in Hn. apply Z.eqb_eq in Hn.
    cbn [withRelations nl_references noteReferenceT set_noteReference].
    apply in_map_iff. exists (mkNoteReference a b). split; [reflexivity|].
    apply filter_In. split; [apply in_or_app; right; left; reflexivity|].
    cbn. apply Z.eqb_eq. congruence. }
  split; [reflexivity|]. split.
  { cbn [notesT set_noteReference]. intros E. apply map_eq_nil in E.
    exact (Hlist b nb Hb1 Hb2 Hb3 E). }
  split.
  { apply Forall_forall. intros x Hx. apply in_map_iff in Hx as (n & <- & Hn).
    apply filter_In in Hn as [_ Hn]. apply andb_true_iff in Hn as [Hn _].
    cbn in Hn. rewrite orb_false_r in Hn. apply Z.eqb_eq in Hn.
    cbn [withRelations nl_referencedBy noteReferenceT set_noteReference].
    apply in_map_iff. exists (mkNoteReference a b). split; [reflexivity|].
    apply filter_In. split; [apply in_or_app; right; left; reflexivity|].
    cbn. apply Z.eqb_eq. congruence. }
  split; [reflexivity|]. split; [|exact Hid'].
  apply in_map_iff. exists (mkNoteReference a b). split.
  - cbn [ref_toNoteId notesT set_noteReference]. rewrite Hf. reflexivity.
  - apply Ho. apply filter_In.
    split; [apply in_or_app; right; left; reflexivity|].
    cbn. apply Z.eqb_refl.
Qed.

Lemma addReference_then_lists_witness :
  exists la lb out nb,
    listByIds 1 [1] (snd (addReference 1 1 2 sampleStore))
      = (Ok la, snd (addReference 1 1 2 sampleStore)) /\ la <> []
    /\ Forall (fun x => In 2 (nl_references x)) la
    /\ listByIds 1 [2] (snd (addReference 1 1 2 sampleStore))
       = (Ok lb, snd (addReference 1 1 2 sampleStore)) /\ lb <> []
    /\ Forall (fun y => In 1 (nl_referencedBy y)) lb
    /\ noteReferenceList (@rev _) 1 ofReferences
         (snd (addReference 1 1 2 sampleStore))
       = (Ok out, snd (addReference 1 1 2 sampleStore))
    /\ In (Some (withRelations (snd (addReference 1 1 2 sampleStore)) nb)) out
    /\ note_id nb = 2.
Proof.
  apply (addReference_then_lists (@rev _) 1 1 2 sampleStore
           (mkNoteReference 1 2)).
  - intros l x Hx. apply in_rev in Hx. exact Hx.
  - reflexivity.
Defined.

(** What the create branch writes. *)
Lemma createNote_run ctx_id tagTree content input s :
  let row :=
    mkNote (nextNoteId s) ctx_id (orElse content []) (in_type input)
           false false (orElse (in_isShare input) false)
           (orElse (in_isTop input) false) false in
  exists s',
    createNote ctx_id tagTree content input s = (Ok (Some row), s')
    /\ notesT s' = notesT s ++ [row]
    /\ noteReferenceT s'
       = noteReferenceT s
         ++ map (fun toNoteId => mkNoteReference (nextNoteId s) toNoteId)
                (orElse (in_references input) [])
    /\ attachmentsT s'
       = attachmentsT s
         ++ numbered (nextAttachmentId s) (nextNoteId s) (in_attachments input)
    /\ incl (tagT s) (tagT s') /\ incl (tagsToNoteT s) (tagsToNoteT s')
    /\ followsT s' = followsT s.
Proof.
  intros row. unfold createNote, try_catch.
  unfold bind at 1. cbn [notes_create bind get modify ret]. fold row.
  unfold bind at 1.
  match goal with |- context [handleAddTags ctx_id ?t ?i ?s1] =>
    destruct (returns_handleAddTags ctx_id t i s1) as [nt Hnt];
    pose proof (extending_handleAddTags ctx_id t i s1) as X;
    destruct (handleAddTags ctx_id t i s1) as [[nt'|e] s2]
  end; cbn in Hnt; [|discriminate].
  cbn [snd] in X. destruct X as [Xn Xr Xa Xf _ _ Xna Xt Xj].
  cbn in Xn, Xr, Xa, Xf, Xna, Xt, Xj.
  unfold bind at 1. cbn [attachments_createMany modify].
  destruct (in_references input) as [[|r rs]|];
    cbn [note_id row orElse map];
    (eexists; split; [reflexivity|]); cbn;
    rewrite ?app_nil_r, Xn, Xr, Xa, Xf, Xna; auto 10.
Qed.





(** *** What an update leaves alone *)

Lemma othersKept_refl id s : othersKept id s s.
Proof. unfold othersKept. tauto. Qed.

Lemma othersKept_trans id a b c :
  othersKept id a b -> othersKept id b c -> othersKept id a c.
Proof.
  intros (A1 & A2 & A3 & A4 & A5) (B1 & B2 & B3 & B4 & B5).
  split; [|split; [|split; [|split]]].
  - intros n Hn. rewrite (B1 n Hn). apply A1, Hn.
  - intros r Hr. rewrite (B2 r Hr). apply A2, Hr.
  - intros r Hr. rewrite (B3 r Hr). apply A3, Hr.
  - intros x Hx. rewrite (B4 x Hx). apply A4, Hx.
  - congruence.
Qed.

Ltac others_kept :=
  split; [|split; [|split; [|split]]];
  [intros x Hx; cbn | intros x Hx; cbn | intros x Hx; cbn | intros x Hx; cbn
  | try reflexivity]; try tauto.

Lemma keeps_pure (R : store -> store -> Prop) {A} (m : M A) :
  (forall s, R s s) -> (forall s, snd (m s) = s) -> keeps R m.
Proof. intros HR H s. rewrite H. apply HR. Qed.

Section OthersKept.
Variable id : Z.

Lemma othersKept_bind {A B} (m : M A) (k : A -> M B) :
  keeps (othersKept id) m -> (forall a, keeps (othersKept id) (k a)) ->
  keeps (othersKept id) (bind m k).
Proof. exact (keeps_bind (othersKept id) (othersKept_trans id) m k). Qed.

Lemma othersKept_ret {A} (a : A) : keeps (othersKept id) (ret a).
Proof. exact (keeps_ret (othersKept id) (othersKept_refl id) a). Qed.

Lemma othersKept_tag_create name parent accountId :
  keeps (othersKept id) (tag_create name parent accountId).
Proof. intros s. others_kept. Qed.

Lemma othersKept_tagsToNote_create tagId :
  keeps (othersKept id) (tagsToNote_create tagId id).
Proof.
  intros s. unfold tagsToNote_create, bind, get, ret.
  destruct (existsb _ _); cbn; [apply othersKept_refl|].
  others_kept. rewrite in_app_iff. cbn. split; [|auto].
  intros [H|[<-|[]]]; [exact H|]. cbn in Hx. congruence.
Qed.

Lemma othersKept_handleAddTags_node accountId i :
  forall parent newTags,
    keeps (othersKept id) (handleAddTags_node accountId id parent i newTags).
Proof.
  induction i as [name children IH] using TagTreeNode_induction.
  intros parent newTags. cbn [handleAddTags_node].
  apply othersKept_bind; [intros s; apply othersKept_refl | intros found].
  apply othersKept_bind.
  { destruct found; [apply othersKept_ret | apply othersKept_tag_create]. }
  intros hasTag. apply othersKept_bind.
  { destruct (truthyZ id); [|apply othersKept_ret].
    apply othersKept_bind; [intros s; apply othersKept_refl | intros [r|]].
    - apply othersKept_ret.
    - apply othersKept_tagsToNote_create. }
  intros _. apply othersKept_bind; [|intros; apply othersKept_ret].
  clear found. revert newTags.
  induction IH as [|c l Hc _ IHl]; intros newTags.
  - apply othersKept_ret.
  - apply othersKept_bind; [apply Hc | exact IHl].
Qed.

Lemma othersKept_handleAddTags accountId tagTree :
  keeps (othersKept id) (handleAddTags accountId tagTree id).
Proof.
  unfold handleAddTags. generalize (@nil tag) as newTags.
  induction tagTree as [|c l IH]; intros newTags; cbn [handleAddTags_loop].
  - apply othersKept_ret.
  - apply othersKept_bind; [apply othersKept_handleAddTags_node | exact IH].
Qed.

Lemma In_numbered a noteId l : forall next,
  In a (numbered next noteId l) -> att_noteId a = noteId.
Proof.
  induction l as [|i l IH]; intros next; cbn [numbered]; [intros []|].
  intros [<-|H]; [reflexivity | exact (IH _ H)].
Qed.

Lemma othersKept_attachments_createMany l :
  keeps (othersKept id) (attachments_createMany id l).
Proof.
  intros s. others_kept. rewrite in_app_iff. split; [|auto].
  intros [H|H]; [exact H|]. apply In_numbered in H. congruence.
Qed.

Lemma othersKept_insertAttachments atts :
  keeps (othersKept id) (insertAttachments id atts).
Proof.
  unfold insertAttachments.
  apply (keeps_try_catch (othersKept id) (othersKept_trans id));
    [|intros; apply othersKept_ret].
  destruct atts as [|a atts]; [apply othersKept_ret|].
  apply othersKept_bind; [intros s; apply othersKept_refl | intros old].
  match goal with |- context [match ?d with [] => _ | _ :: _ => _ end] =>
    destruct d end.
  - apply othersKept_ret.
  - apply othersKept_attachments_createMany.
Qed.

Section WithNumber.
Variable Number : str -> option Z.

Lemma othersKept_deleteRelationTags oldTags keys :
  keeps (othersKept id) (deleteRelationTags Number id oldTags keys).
Proof.
  intros s.
  destruct (deleteRelationTags_run Number id oldTags keys s)
    as [[-> _] | (ids & ->)]; [apply othersKept_refl|].
  cbn [snd]. others_kept. rewrite filter_In. split; [tauto|].
  intros H. split; [exact H|].
  apply negb_true_iff. apply andb_false_iff. left.
  apply Z.eqb_neq. assumption.
Qed.

Lemma othersKept_addRelationTags newTags keys :
  keeps (othersKept id) (addRelationTags Number id newTags keys).
Proof.
  unfold addRelationTags.
  apply (keeps_for_each (othersKept id) (othersKept_refl id)
                        (othersKept_trans id)).
  intros key. destruct (findByKey Number key newTags) as [t|];
    [|apply othersKept_ret].
  destruct (truthyZ (tag_id t)); [|apply othersKept_ret].
  apply (keeps_try_catch (othersKept id) (othersKept_trans id));
    [apply othersKept_tagsToNote_create|].
  intros []; try apply othersKept_ret; intros s; apply othersKept_refl.
Qed.

Lemma othersKept_reconcile ctx_id tagTree atts references note :
  note_id note = id ->
  keeps (othersKept id) (reconcile Number ctx_id tagTree atts references note).
Proof.
  intros E. unfold reconcile. rewrite E.
  apply othersKept_bind; [intros s; apply othersKept_refl | intros old].
  apply othersKept_bind; [apply othersKept_handleAddTags | intros newTags].
  apply othersKept_bind; [intros s; apply othersKept_refl | intros oldRefs].
  apply othersKept_bind; [apply othersKept_deleteRelationTags | intros _].
  apply othersKept_bind; [apply othersKept_addRelationTags | intros _].
  apply othersKept_bind; [|intros _].
  { intros s. rewrite addReferences_run. cbn [snd].
    others_kept. rewrite in_app_iff. split; [|auto].
    intros [H|H]; [exact H|].
    apply in_map_iff in H as (y & <- & _). cbn in Hx. congruence. }
  apply othersKept_bind; [|intros _].
  { intros s. rewrite deleteReferences_run. cbn [snd].
    others_kept. rewrite filter_In. split; [tauto|].
    intros H. split; [exact H|].
    apply negb_true_iff. apply andb_false_iff. left.
    apply Z.eqb_neq. assumption. }
  apply othersKept_bind; [|intros _].
  { intros s. rewrite deleteUnusedTags_run. cbn [snd]. others_kept. }
  apply othersKept_bind; [apply othersKept_insertAttachments | intros _].
  apply othersKept_ret.
Qed.

End WithNumber.
End OthersKept.

Section UpsertFrame.
Variable Number : str -> option Z.
Variable build : list str -> list TagTreeNode.

(** An [upsert] that names a note the caller does not have (a missing
    id, or the id of a note of another account) throws P2025 and writes
    nothing, whatever content, flags, references or attachments it
    carries. *)
Theorem upsert_not_owned ctx_id input s id :
  in_id input = Some id -> id <> 0 ->
  find (fun n => (note_id n =? id) && (note_accountId n =? ctx_id)) (notesT s)
    = None ->
  upsert Number build ctx_id input s = (Err P2025, s).
Proof.
  intros Hid Hnz Hf. unfold upsert. rewrite Hid. cbn [orElse].
  assert (Ht : truthyZ id = true).
  { unfold truthyZ. apply negb_true_iff, Z.eqb_neq, Hnz. }
  rewrite Ht. unfold bind at 1. unfold notes_update, bind, get, ret.
  rewrite Hf. reflexivity.
Qed.

Lemma othersKept_notes_update id ctx_id data :
  keeps (othersKept id) (notes_update id ctx_id data).
Proof.
  intros s.
  destruct (notes_update_run id ctx_id data s) as [-> | (n & _ & ->)];
    [apply othersKept_refl|].
  cbn [snd]. others_kept.
  apply In_updateFirst_other.
  - apply andb_false_iff. left. apply Z.eqb_neq, Hx.
  - intros y Hy. exact Hy.
Qed.

Lemma othersKept_upsert ctx_id input id :
  in_id input = Some id -> id <> 0 ->
  keeps (othersKept id) (upsert Number build ctx_id input).
Proof.
  intros Hid Hnz. unfold upsert. rewrite Hid. cbn [orElse].
  assert (Ht : truthyZ id = true).
  { unfold truthyZ. apply negb_true_iff, Z.eqb_neq, Hnz. }
  rewrite Ht. intros s. unfold bind.
  match goal with |- context [notes_update id ctx_id ?u s] =>
    pose proof (othersKept_notes_update id ctx_id u s) as H1;
    destruct (notes_update_run id ctx_id u s) as [E | (n & En & E)];
    rewrite E in *
  end; cbn [snd] in *; [exact H1|].
  destruct (option_map sanitize (in_content input)) as [c|]; [|exact H1].
  eapply othersKept_trans; [exact H1|].
  apply othersKept_reconcile. exact En.
Qed.

(** An update of one note leaves the other notes alone, whether it
    returns or throws: the rows of the other notes, their join rows,
    their outgoing references and their attachments are as before, and
    a tag that another note is associated with is not deleted. *)
Theorem upsert_leaves_other_notes ctx_id input s id :
  in_id input = Some id -> id <> 0 ->
  let s' := snd (upsert Number build ctx_id input s) in
  othersKept id s s'
  /\ forall T r,
       In T (tagT s) -> tag_id T <> 0 ->
       In r (tagsToNoteT s) -> ttn_tagId r = tag_id T -> ttn_noteId r <> id ->
       In T (tagT s').
Proof.
  intros Hid Hnz s'.
  pose proof (othersKept_upsert ctx_id input id Hid Hnz s) as HK.
  fold s' in HK. split; [exact HK|].
  intros T r HT HTnz Hr Hrt Hrn.
  assert (Hr' : In r (tagsToNoteT s')).
  { destruct HK as (_ & K2 & _). apply K2; assumption. }
  subst s'. revert Hr'.
  destruct (upsert Number build ctx_id input s) as [res s'] eqn:E.
  cbn [snd]. revert E. unfold upsert. rewrite Hid. cbn [orElse].
  assert (Ht : truthyZ id = true).
  { unfold truthyZ. apply negb_true_iff, Z.eqb_neq, Hnz. }
  rewrite Ht. unfold bind at 1.
  match goal with |- context [notes_update id ctx_id ?u s] =>
    destruct (notes_update_run id ctx_id u s) as [-> | (n0 & En & ->)] end.
  { intros [= <- <-] _. exact HT. }
  destruct (in_content input) as [c|]; cbn [option_map].
  2:{ intros [= <- <-] _. exact HT. }
  intros E Hr'. apply reconcile_outcome in E. cbv zeta in E.
  destruct E as [(-> & X & _) | (-> & _ & _ & tags5 & Hincl & Htags)].
  { apply (ext_tags _ _ X). exact HT. }
  rewrite Htags. apply filter_In. split; [apply Hincl; exact HT|].
  unfold keptByCleanup. apply negb_true_iff. apply andb_false_iff. left.
  rewrite memZ_difference. apply andb_false_iff.
  match goal with |- memZ _ ?all = false \/ _ =>
    destruct (memZ (tag_id T) all) eqn:Em; [right | left; reflexivity] end.
  apply negb_false_iff. apply memZ_In. apply filter_In. split.
  - apply in_map_iff. exists r. split; [exact Hrt|].
    apply filter_In. split; [exact Hr'|]. rewrite Hrt. exact Em.
  - unfold truthyZ. apply negb_true_iff, Z.eqb_neq, HTnz.
Qed.

End UpsertFrame.

Lemma upsert_not_owned_witness :
  runUpsert 1 (edit 20 "#mine" (Some [1])) sampleStore = (Err P2025, sampleStore).
Proof.
  apply (upsert_not_owned decimalNumber buildHashTagTree 1
           (edit 20 "#mine" (Some [1])) sampleStore 20); 
    [reflexivity | discriminate | reflexivity].
Defined.

Lemma upsert_leaves_other_notes_witness :
  let s' := snd (runUpsert 1 (edit 10 "plain" None) taggedStore) in
  othersKept 10 taggedStore s' /\ In sharedTag (tagT s').
Proof.
  intros s'.
  destruct (upsert_leaves_other_notes decimalNumber buildHashTagTree 1
              (edit 10 "plain" None) taggedStore 10 eq_refl)
    as [H1 H2]; [discriminate|].
  split; [exact H1|].
  apply (H2 sharedTag (mkTagsToNote 1 1)).
  - left. reflexivity.
  - discriminate.
  - right. right. left. reflexivity.
  - reflexivity.
  - discriminate.
Defined.

(** *** Attachments on update *)

Lemma memStr_In x l : memStr x l = true <-> In x l.
Proof.
  unfold memStr. rewrite existsb_exists. split.
  - intros (y & Hy & E). apply str_eqb_eq in E. subst y. exact Hy.
  - intros H. exists x. split; [exact H | apply str_eqb_eq; reflexivity].
Qed.

Lemma In_differenceStr x a b :
  In x (differenceStr a b) <-> In x a /\ ~ In x b.
Proof.
  unfold differenceStr. rewrite filter_In, negb_true_iff.
  rewrite <- not_true_iff_false, memStr_In. tauto.
Qed.

Lemma numbered_paths noteId l : forall next,
  map att_path (numbered next noteId l) = map ai_path l.
Proof.
  induction l as [|i l IH]; intros next; cbn [numbered map]; [reflexivity|].
  rewrite IH. reflexivity.
Qed.

Lemma numbered_ofNote noteId l : forall next,
  filter (fun a => att_noteId a =? noteId) (numbered next noteId l)
  = numbered next noteId l.
Proof.
  induction l as [|i l IH]; intros next; cbn [numbered filter]; [reflexivity|].
  cbn [att_noteId]. rewrite Z.eqb_refl, IH. reflexivity.
Qed.

Lemma insertAttachments_cases noteId atts s :
  let need := differenceStr (map ai_path atts) (pathsOf s noteId) in
  insertAttachments noteId atts s
  = (Ok tt,
     match need with
     | [] => s
     | _ :: _ =>
       mkStore (notesT s) (tagT s) (tagsToNoteT s) (noteReferenceT s)
         (attachmentsT s
          ++ numbered (nextAttachmentId s) noteId
               (filter (fun t => memStr (ai_path t) need) atts))
         (followsT s) (accountsT s) (nextNoteId s) (nextTagId s)
         (nextAttachmentId s
          + Z.of_nat (length (filter (fun t => memStr (ai_path t) need) atts)))
         (nextFollowId s)
     end).
Proof.
  intros need. unfold insertAttachments, try_catch.
  destruct atts as [|a atts]; [reflexivity|].
  unfold bind, attachments_findMany, bind, get, ret.
  fold (pathsOf s noteId). fold need.
  destruct need; reflexivity.
Qed.

(** The attachment step of an update inserts no path twice: it never
    throws, it keeps every attachment row and only appends rows of the
    note whose path is an input path that the note did not have;
    afterwards every input path is a path of the note; and running the
    step again with the same input changes nothing. *)
Theorem insertAttachments_no_repeat noteId atts s :
  let s1 := snd (insertAttachments noteId atts s) in
  fst (insertAttachments noteId atts s) = Ok tt
  /\ (exists added,
        attachmentsT s1 = attachmentsT s ++ added
        /\ Forall (fun a => att_noteId a = noteId
                            /\ In (att_path a) (map ai_path atts)
                            /\ ~ In (att_path a) (pathsOf s noteId)) added)
  /\ (forall p, In p (map ai_path atts) -> In p (pathsOf s1 noteId))
  /\ insertAttachments noteId atts s1 = (Ok tt, s1).
Proof.
  intros s1. subst s1. rewrite (insertAttachments_cases noteId atts s).
  cbv zeta. cbn [fst snd].
  remember (differenceStr (map ai_path atts) (pathsOf s noteId)) as need eqn:En.
  assert (Hneed : forall p, In p need <->
                            In p (map ai_path atts) /\ ~ In p (pathsOf s noteId))
    by (intros p; rewrite En; apply In_differenceStr).
  split; [reflexivity|].
  destruct need as [|n0 need'].
  - split; [|split].
    + exists []. rewrite app_nil_r. split; [reflexivity | constructor].
    + intros p Hp. destruct (in_dec (list_eq_dec N.eq_dec) p (pathsOf s noteId))
        as [H|H]; [exact H|].
      exfalso. apply (proj2 (Hneed p)). auto.
    + rewrite (insertAttachments_cases noteId atts s). cbv zeta.
      rewrite <- En. reflexivity.
  - clear En. set (need := n0 :: need') in *.
    set (new := filter (fun t => memStr (ai_path t) need) atts).
    assert (Hpaths : pathsOf
              (mkStore (notesT s) (tagT s) (tagsToNoteT s) (noteReferenceT s)
                 (attachmentsT s ++ numbered (nextAttachmentId s) noteId new)
                 (followsT s) (accountsT s) (nextNoteId s) (nextTagId s)
                 (nextAttachmentId s + Z.of_nat (length new)) (nextFollowId s))
              noteId
            = pathsOf s noteId ++ map ai_path new).
    { unfold pathsOf. cbn [attachmentsT].
      rewrite filter_app, map_app, numbered_ofNote, numbered_paths.
      reflexivity. }
    assert (Hall : forall p, In p (map ai_path atts) ->
                     In p (pathsOf s noteId ++ map ai_path new)).
    { intros p Hp. apply in_or_app.
      destruct (in_dec (list_eq_dec N.eq_dec) p (pathsOf s noteId))
        as [H|H]; [left; exact H | right].
      apply in_map_iff in Hp as (t & <- & Ht). apply in_map.
      apply filter_In. split; [exact Ht|]. apply memStr_In, Hneed.
      split; [apply in_map; exact Ht | exact H]. }
    split; [|split].
    + eexists. cbn [attachmentsT]. split; [reflexivity|].
      apply Forall_forall. intros a Ha.
      split; [exact (In_numbered _ _ _ _ Ha)|].
      assert (Hp : In (att_path a) (map ai_path new)).
      { rewrite <- (numbered_paths noteId new (nextAttachmentId s)).
        apply in_map. exact Ha. }
      apply in_map_iff in Hp as (t & Et & Ht). apply filter_In in Ht as [_ Ht].
      apply memStr_In, Hneed in Ht. rewrite <- Et. exact Ht.
    + intros p Hp. rewrite Hpaths. apply Hall, Hp.
    + rewrite insertAttachments_cases. cbv zeta. rewrite Hpaths.
      assert (E : differenceStr (map ai_path atts)
                    (pathsOf s noteId ++ map ai_path new) = []).
      { destruct (differenceStr _ _) as [|p l] eqn:Ed; [reflexivity|].
        exfalso.
        assert (Hp : In p (differenceStr (map ai_path atts)
                             (pathsOf s noteId ++ map ai_path new)))
          by (rewrite Ed; left; reflexivity).
        apply In_differenceStr in Hp as [H1 H2]. exact (H2 (Hall p H1)). }
      rewrite E. reflexivity.
Qed.

(** *** What [handleAddTags] writes *)

Lemma mirrors_eq parent name children ts :
  mirrors parent (mkNode name children) ts
  <-> exists t cs, ts = cs ++ [t] /\ tag_name t = name /\ tag_parent t = parent
                   /\ mirrorsForest (tag_id t) children cs.
Proof.
  cbn [mirrors].
  assert (E : forall p l cs,
            (fix forest (l : list TagTreeNode) (cs : list tag) {struct l} : Prop :=
               match l with
               | [] => cs = []
               | c :: l' =>
                 exists a b, cs = a ++ b /\ mirrors p c a /\ forest l' b
               end) l cs <-> mirrorsForest p l cs).
  { intros p l. induction l as [|c l IH]; intros cs; cbn [mirrorsForest];
      [tauto|].
    split; intros (a & b & E1 & E2 & E3); exists a, b;
      (split; [exact E1|]); (split; [exact E2|]); apply IH; exact E3. }
  split; intros (t & cs & H1 & H2 & H3 & H4); exists t, cs;
    repeat (split; [assumption|]); apply E; exact H4.
Qed.

Lemma attached_extends accountId noteId s s' t :
  extends s s' -> attached accountId noteId s t -> attached accountId noteId s' t.
Proof.
  intros X (H1 & H2 & H3). split; [apply (ext_tags _ _ X), H1|].
  split; [exact H2|]. intros Hn. apply (ext_rows _ _ X), H3, Hn.
Qed.

Lemma hasRow_eq tagId noteId r :
  hasRow tagId noteId r = true -> r = mkTagsToNote tagId noteId.
Proof.
  unfold hasRow. intros H. apply andb_true_iff in H as [H1 H2].
  apply Z.eqb_eq in H1, H2. destruct r. cbn in *. congruence.
Qed.

Lemma grows_refl s : grows s s.
Proof.
  split; [apply extends_refl|]. split; exists []; rewrite app_nil_r; reflexivity.
Qed.

Lemma grows_trans a b c : grows a b -> grows b c -> grows a c.
Proof.
  intros (X1 & [l1 T1] & [r1 R1]) (X2 & [l2 T2] & [r2 R2]).
  split; [exact (extends_trans X1 X2)|]. split.
  - exists (l1 ++ l2). rewrite T2, T1, app_assoc. reflexivity.
  - exists (r1 ++ r2). rewrite R2, R1, app_assoc. reflexivity.
Qed.

Lemma grows_extends s s' : grows s s' -> extends s s'.
Proof. intros [X _]. exact X. Qed.

Lemma yields_ret {A} (a : A) s (Q : A -> store -> Prop) :
  Q a s -> yields (ret a) s Q.
Proof.
  intros H. exists a, s. split; [reflexivity|].
  split; [apply grows_refl | exact H].
Qed.

Lemma yields_bind {A B} (m : M A) (k : A -> M B) s
      (Q : A -> store -> Prop) (R : B -> store -> Prop) :
  yields m s Q ->
  (forall a s1, grows s s1 -> Q a s1 -> yields (k a) s1 R) ->
  yields (bind m k) s R.
Proof.
  intros (a & s1 & E1 & X1 & H1) Hk.
  destruct (Hk a s1 X1 H1) as (b & s2 & E2 & X2 & H2).
  exists b, s2. unfold bind. rewrite E1. split; [exact E2|].
  split; [exact (grows_trans _ _ _ X1 X2) | exact H2].
Qed.

Lemma yields_weaken {A} (m : M A) s (Q Q' : A -> store -> Prop) :
  (forall a s', grows s s' -> Q a s' -> Q' a s') -> yields m s Q -> yields m s Q'.
Proof.
  intros H (a & s' & E & X & HQ). exists a, s'. auto.
Qed.

Lemma yields_assoc {A B C} (m : M A) (h : A -> M B) (k : B -> M C) s
      (Q : C -> store -> Prop) :
  yields (bind (bind m h) k) s Q ->
  yields (bind m (fun x => bind (h x) k)) s Q.
Proof.
  unfold yields, bind. destruct (m s) as [[a|e] s1]; auto.
Qed.

Lemma yields_ext {A} (m m' : M A) s (Q : A -> store -> Prop) :
  m s = m' s -> yields m' s Q -> yields m s Q.
Proof. unfold yields. intros ->. auto. Qed.

Lemma bind_ext {A B} (m : M A) (k k' : A -> M B) s :
  (forall a s', k a s' = k' a s') -> bind m k s = bind m k' s.
Proof. intros H. unfold bind. destruct (m s) as [[a|e] s1]; auto. Qed.

Lemma bind_cong {A B} (m m' : M A) (k : A -> M B) s :
  m s = m' s -> bind m k s = bind m' k s.
Proof. intros H. unfold bind. rewrite H. reflexivity. Qed.

Lemma children_loop_eq accountId noteId parent l : forall newTags s,
  (fix loop (l : list TagTreeNode) (newTags : list tag) : M (list tag) :=
     match l with
     | [] => ret newTags
     | c :: l' =>
       newTags <- handleAddTags_node accountId noteId parent c newTags ;;
       loop l' newTags
     end) l newTags s
  = handleAddTags_loop accountId noteId parent l newTags s.
Proof.
  induction l as [|c l IH]; intros newTags s; [reflexivity|].
  cbn [handleAddTags_loop]. apply bind_ext. exact IH.
Qed.

(** The loop body with the loop over the children written with
    [handleAddTags_loop]. *)
Lemma handleAddTags_node_eq accountId noteId parent name children newTags s :
  handleAddTags_node accountId noteId parent (mkNode name children) newTags s
  = (found <- tag_findFirst name parent accountId ;;
     hasTag <- match found with
               | Some t => ret t
               | None => tag_create name parent accountId
               end ;;
     (if truthyZ noteId then
        hasRelation <- tagsToNote_findFirst hasTag noteId ;;
        match hasRelation with
        | Some _ => ret tt
        | None => tagsToNote_create (tag_id hasTag) noteId
        end
      else ret tt) ;;;
     newTags <- handleAddTags_loop accountId noteId (tag_id hasTag) children
                  newTags ;;
     ret (newTags ++ [hasTag])) s.
Proof.
  cbn [handleAddTags_node].
  apply bind_ext. intros found s1. apply bind_ext. intros hasTag s2.
  apply bind_ext. intros _ s3. apply bind_cong, children_loop_eq.
Qed.

(** The tag of a node, found or created; afterwards the lookup finds
    it in every store that has grown from there. *)
Lemma yields_tag accountId parent name s :
  yields (found <- tag_findFirst name parent accountId ;;
          match found with
          | Some t => ret t
          | None => tag_create name parent accountId
          end) s
         (fun t s1 => tag_name t = name /\ tag_parent t = parent
                      /\ tag_accountId t = accountId /\ In t (tagT s1)
                      /\ forall s2, grows s1 s2 ->
                           tag_findFirst name parent accountId s2
                           = (Ok (Some t), s2)).
Proof.
  unfold yields, bind, tag_findFirst, bind, get, ret.
  destruct (find _ (tagT s)) as [t|] eqn:Ef.
  - pose proof Ef as Ef'. apply find_some in Ef as [Hin Hp].
    apply andb_true_iff in Hp as [Hp Ha]. apply andb_true_iff in Hp as [Hn Hp].
    apply str_eqb_eq in Hn. apply Z.eqb_eq in Hp, Ha.
    exists t, s. split; [reflexivity|]. split; [apply grows_refl|].
    repeat (split; [assumption|]).
    intros s2 (_ & [l E] & _). rewrite E.
    rewrite (find_app_some _ _ l _ Ef'). reflexivity.
  - unfold tag_create, bind, get, modify, ret.
    eexists _, _. split; [reflexivity|]. split.
    + split; [constructor; try reflexivity; cbn;
              auto using incl_refl, incl_appl|].
      split; cbn; [eexists; reflexivity | exists []; rewrite app_nil_r; reflexivity].
    + cbn. repeat (split; [reflexivity|]).
      split; [apply in_or_app; right; left; reflexivity|].
      intros s2 (_ & [l E] & _). cbn in E. rewrite E.
      erewrite find_app_some; [reflexivity|].
      rewrite (find_app_none _ _ _ Ef). cbn.
      rewrite !Z.eqb_refl.
      replace (str_eqb name name) with true; [reflexivity|].
      symmetry. apply str_eqb_eq. reflexivity.
Qed.

(** The association of the tag with the note, found or created;
    afterwards the step finds it in every store that has grown from
    there. *)
Lemma yields_relation hasTag noteId s :
  let step :=
    if truthyZ noteId then
      hasRelation <- tagsToNote_findFirst hasTag noteId ;;
      match hasRelation with
      | Some _ => ret tt
      | None => tagsToNote_create (tag_id hasTag) noteId
      end
    else ret tt in
  yields step s
         (fun _ s1 =>
            (noteId <> 0 ->
             In (mkTagsToNote (tag_id hasTag) noteId) (tagsToNoteT s1))
            /\ forall s2, grows s1 s2 -> step s2 = (Ok tt, s2)).
Proof.
  intros step. subst step.
  assert (Hstable : forall s1,
            In (mkTagsToNote (tag_id hasTag) noteId) (tagsToNoteT s1) ->
            forall s2, grows s1 s2 ->
              (hasRelation <- tagsToNote_findFirst hasTag noteId ;;
               match hasRelation with
               | Some _ => ret tt
               | None => tagsToNote_create (tag_id hasTag) noteId
               end) s2 = (Ok tt, s2)).
  { intros s1 Hin s2 (_ & _ & [l E]).
    unfold bind, tagsToNote_findFirst, bind, get, ret.
    destruct (find _ (tagsToNoteT s2)) as [r|] eqn:F; [reflexivity|].
    exfalso.
    assert (H2 : In (mkTagsToNote (tag_id hasTag) noteId) (tagsToNoteT s2))
      by (rewrite E; apply in_or_app; left; exact Hin).
    pose proof (find_none _ _ F _ H2) as Hc. unfold hasRow in Hc. cbn in Hc.
    rewrite !Z.eqb_refl in Hc. discriminate. }
  destruct (truthyZ noteId) eqn:Et.
  - unfold yields, bind, tagsToNote_findFirst, bind, get, ret.
    destruct (find _ (tagsToNoteT s)) as [r|] eqn:F.
    + assert (Hin : In (mkTagsToNote (tag_id hasTag) noteId) (tagsToNoteT s)).
      { apply find_some in F as [Hr1 Hr2].
        apply hasRow_eq in Hr2. subst r. exact Hr1. }
      exists tt, s. split; [reflexivity|]. split; [apply grows_refl|].
      split; [intros _; exact Hin | apply (Hstable s Hin)].
    + unfold tagsToNote_create, bind, get, ret, modify.
      replace (existsb (hasRow (tag_id hasTag) noteId) (tagsToNoteT s)) with false.
      * eexists tt, _. split; [reflexivity|].
        assert (Hin : In (mkTagsToNote (tag_id hasTag) noteId)
                         (tagsToNoteT s ++ [mkTagsToNote (tag_id hasTag) noteId]))
          by (apply in_or_app; right; left; reflexivity).
        split; [|split; [intros _; exact Hin|]].
        -- split; [constructor; try reflexivity; cbn;
                   auto using incl_refl, incl_appl|].
           split; cbn; [exists []; rewrite app_nil_r; reflexivity
                       | eexists; reflexivity].
        -- eapply Hstable. exact Hin.
      * symmetry. apply not_true_iff_false. intros H.
        apply existsb_exists in H as (r & Hr & H).
        apply (find_none _ _ F) in Hr. congruence.
  - apply yields_ret. split; [|reflexivity].
    intros Hn. exfalso. unfold truthyZ in Et.
    apply negb_false_iff, Z.eqb_eq in Et. contradiction.
Qed.

Lemma Forall_attached_extends accountId noteId s s' ts :
  extends s s' -> Forall (attached accountId noteId s) ts ->
  Forall (attached accountId noteId s') ts.
Proof.
  intros X H. eapply Forall_impl; [|exact H].
  intros t. apply attached_extends, X.
Qed.

(** What the loop over a list of nodes establishes, given what each
    node does. *)
Lemma handleAddTags_loop_yields accountId noteId l :
  Forall (fun i => forall parent newTags s,
            yields (handleAddTags_node accountId noteId parent i newTags) s
              (fun out s' => exists added,
                 out = newTags ++ added /\ mirrors parent i added
                 /\ Forall (attached accountId noteId s') added
                 /\ forall s2 nt, grows s' s2 ->
                      handleAddTags_node accountId noteId parent i nt s2
                      = (Ok (nt ++ added), s2))) l ->
  forall parent newTags s,
    yields (handleAddTags_loop accountId noteId parent l newTags) s
      (fun out s' => exists added,
         out = newTags ++ added /\ mirrorsForest parent l added
         /\ Forall (attached accountId noteId s') added
         /\ forall s2 nt, grows s' s2 ->
              handleAddTags_loop accountId noteId parent l nt s2
              = (Ok (nt ++ added), s2)).
Proof.
  intros IH parent. induction IH as [|c l Hc _ IHl]; intros newTags s;
    cbn [handleAddTags_loop].
  - apply yields_ret. exists []. rewrite app_nil_r.
    split; [reflexivity|]. split; [reflexivity|]. split; [constructor|].
    intros s2 nt _. rewrite app_nil_r. reflexivity.
  - eapply yields_bind; [apply Hc|].
    intros out1 s3 X3 (a & -> & Ma & Fa & Sa).
    eapply yields_weaken; [|apply IHl].
    intros out2 s4 X4 (b & -> & Mb & Fb & Sb). exists (a ++ b).
    split; [rewrite app_assoc; reflexivity|]. split; [|split].
    + cbn [mirrorsForest]. exists a, b. auto.
    + apply Forall_app. split; [|exact Fb].
      exact (Forall_attached_extends _ _ _ _ _ (grows_extends _ _ X4) Fa).
    + intros s2 nt X. cbn [handleAddTags_loop]. unfold bind.
      rewrite (Sa s2 nt (grows_trans _ _ _ X4 X)).
      rewrite (Sb s2 (nt ++ a) X). rewrite app_assoc. reflexivity.
Qed.

Lemma handleAddTags_node_yields accountId noteId i :
  forall parent newTags s,
    yields (handleAddTags_node accountId noteId parent i newTags) s
           (fun out s' => exists added,
              out = newTags ++ added /\ mirrors parent i added
              /\ Forall (attached accountId noteId s') added
              /\ forall s2 nt, grows s' s2 ->
                   handleAddTags_node accountId noteId parent i nt s2
                   = (Ok (nt ++ added), s2)).
Proof.
  induction i as [name children IH] using TagTreeNode_induction.
  intros parent newTags s.
  eapply yields_ext; [apply handleAddTags_node_eq|].
  apply yields_assoc.
  eapply yields_bind; [apply yields_tag|].
  intros t s1 X1 (Hn & Hp & Ha & Hin & Sfind).
  eapply yields_bind; [apply yields_relation|].
  intros [] s2 X2 (Hrow & Srel).
  assert (Hatt : attached accountId noteId s2 t).
  { split; [apply (ext_tags _ _ (grows_extends _ _ X2)), Hin|].
    split; [exact Ha | exact Hrow]. }
  eapply yields_bind;
    [apply (handleAddTags_loop_yields accountId noteId children IH)|].
  intros out s3 X3 (cs & -> & Mcs & Fcs & Scs). apply yields_ret.
  exists (cs ++ [t]). split; [rewrite app_assoc; reflexivity|].
  split; [|split].
  - apply mirrors_eq. exists t, cs. auto.
  - apply Forall_app. split; [exact Fcs|]. constructor; [|constructor].
    exact (attached_extends _ _ _ _ _ (grows_extends _ _ X3) Hatt).
  - intros s4 nt X4. rewrite handleAddTags_node_eq.
    unfold bind at 1.
    rewrite (Sfind s4 (grows_trans _ _ _ X2 (grows_trans _ _ _ X3 X4))).
    unfold bind at 1. cbn [ret]. unfold bind at 1.
    rewrite (Srel s4 (grows_trans _ _ _ X3 X4)).
    unfold bind at 1. rewrite (Scs s4 nt X4). cbn [ret].
    rewrite app_assoc. reflexivity.
Qed.

Lemma handleAddTags_run accountId tagTree noteId s :
  exists newTags s',
    handleAddTags accountId tagTree noteId s = (Ok newTags, s')
    /\ extends s s'
    /\ mirrorsForest 0 tagTree newTags
    /\ Forall (attached accountId noteId s') newTags.
Proof.
  unfold handleAddTags.
  destruct (handleAddTags_loop_yields accountId noteId tagTree
              (proj2 (Forall_forall _ _)
                 (fun i _ => handleAddTags_node_yields accountId noteId i))
              0 [] s)
    as (out & s' & E & X & added & -> & Hm & Hf & _).
  exists added, s'. repeat (split; [assumption|]).
  split; [exact (grows_extends _ _ X)|]. auto.
Qed.

(** [handleAddTags] always returns, loses nothing of the store, and
    its tags mirror the tag tree: one tag per node, children before
    their parent, each with the name of its node and, as parent, the id
    of the tag of the parent node (0 for a root).  Every one of them is
    in the tag table afterwards, belongs to the caller and, for a note
    id other than 0, is associated with the note. *)
Theorem handleAddTags_attaches accountId tagTree noteId s :
  exists newTags s',
    handleAddTags accountId tagTree noteId s = (Ok newTags, s')
    /\ extends s s'
    /\ mirrorsForest 0 tagTree newTags
    /\ Forall (attached accountId noteId s') newTags.
Proof. apply handleAddTags_run. Qed.

(** [handleAddTags] is idempotent: run again on the store it left, for
    the same tree and note, it returns the same tags and writes
    nothing. *)
Theorem handleAddTags_idempotent accountId tagTree noteId s :
  let first := handleAddTags accountId tagTree noteId s in
  handleAddTags accountId tagTree noteId (snd first) = first.
Proof.
  unfold handleAddTags.
  destruct (handleAddTags_loop_yields accountId noteId tagTree
              (proj2 (Forall_forall _ _)
                 (fun i _ => handleAddTags_node_yields accountId noteId i))
              0 [] s)
    as (out & s' & E & X & added & -> & _ & _ & S).
  cbv zeta. rewrite E. cbn [snd]. apply S, grows_refl.
Qed.

(** *** The composite keys *)

Lemma first_occurrence {A} (x : A) a : forall a' r r',
  ~ In x a -> ~ In x a' -> a ++ x :: r = a' ++ x :: r' -> a = a' /\ r = r'.
Proof.
  induction a as [|c a IH]; intros a' r r' H H' E.
  - destruct a' as [|c' a']; [injection E as ->; auto|].
    injection E as <- _. exfalso. apply H'. left. reflexivity.
  - destruct a' as [|c' a'].
    + injection E as -> _. exfalso. apply H. left. reflexivity.
    + injection E as -> E.
      destruct (IH a' r r') as [-> ->]; auto.
      * intros Hin. apply H. right. exact Hin.
      * intros Hin. apply H'. right. exact Hin.
Qed.

Lemma string_of_uint_noGt d :
  ~ In 62%N (lit (NilEmpty.string_of_uint d)).
Proof.
  induction d; cbn; intros H; try (destruct H as [H|H]; [discriminate H|]);
    auto.
Qed.

Lemma showZ_noGt z : ~ In 62%N (showZ z).
Proof.
  unfold showZ. destruct (Z.to_int z) as [d|d]; cbn [NilZero.string_of_int].
  - destruct d; try apply (string_of_uint_noGt _).
    cbn. intros [H|[]]. discriminate H.
  - change (lit (String "-" (NilZero.string_of_uint d)))
      with (45%N :: lit (NilZero.string_of_uint d)).
    intros [H|H]; [discriminate H|]. revert H.
    destruct d; try apply (string_of_uint_noGt _).
    cbn. intros [H|[]]. discriminate H.
Qed.

Lemma showZ_inj a b : showZ a = showZ b -> a = b.
Proof.
  intros E. apply (f_equal decimalNumber) in E.
  rewrite !decimalNumber_showZ in E. congruence.
Qed.

(** The composite key [name<key>parent] identifies the pair of name
    and parent, whatever the name holds; and for a name without the
    delimiter, reading the key back ([split] at the delimiter, [Number]
    of the second piece) finds the first tag with that name and
    parent. *)
Theorem key_round_trip Number t t' tags :
  (keyString t = keyString t'
   <-> tag_name t = tag_name t' /\ tag_parent t = tag_parent t')
  /\ ((forall z, Number (showZ z) = Some z) ->
      noKey (tag_name t) = true ->
      findByKey Number (keyString t) tags
      = find (fun x => str_eqb (tag_name x) (tag_name t)
                       && (tag_parent x =? tag_parent t)) tags).
Proof.
  split.
  - split; [|intros [E1 E2]; unfold keyString; rewrite E1, E2; reflexivity].
    unfold keyString. intros E.
    apply (f_equal (@rev _)) in E. rewrite !rev_app_distr in E.
    change (rev (lit "<key>")) with (62%N :: [121; 101; 107; 60]%N) in E.
    rewrite <- !app_assoc in E. cbn [app] in E.
    apply first_occurrence in E as [E1 E2].
    + apply (f_equal (@rev _)) in E1. rewrite !rev_involutive in E1.
      injection E2 as E2. apply (f_equal (@rev _)) in E2.
      rewrite !rev_involutive in E2.
      split; [exact E2 | apply showZ_inj, E1].
    + rewrite <- in_rev. apply showZ_noGt.
    + rewrite <- in_rev. apply showZ_noGt.
  - intros HN Hk. apply findByKey_keyString; assumption.
Qed.

Lemma key_round_trip_witness :
  findByKey decimalNumber (keyString ownTag) [sharedTag; ownTag] = Some ownTag.
Proof.
  rewrite (proj2 (key_round_trip decimalNumber ownTag ownTag
                    [sharedTag; ownTag]) decimalNumber_showZ eq_refl).
  reflexivity.
Defined.



Lemma createNote_tags ctx_id tagTree content input s :
  exists row newTags s',
    createNote ctx_id tagTree content input s = (Ok (Some row), s')
    /\ note_id row = nextNoteId s
    /\ mirrorsForest 0 tagTree newTags
    /\ Forall (attached ctx_id (nextNoteId s) s') newTags.
Proof.
  unfold createNote, try_catch.
  unfold bind at 1. cbn [notes_create bind get modify ret].
  unfold bind at 1.
  match goal with |- context [handleAddTags ctx_id tagTree ?i ?s1] =>
    destruct (handleAddTags_run ctx_id tagTree i s1)
      as (newTags & s2 & E & X & Hm & Hf)
  end.
  rewrite E. unfold bind at 1. cbn [attachments_createMany modify].
  cbn [note_id] in Hf.
  assert (Hf' : forall s3, tagT s3 = tagT s2 -> tagsToNoteT s3 = tagsToNoteT s2 ->
                  Forall (attached ctx_id (nextNoteId s) s3) newTags).
  { intros s3 Ht Hr. eapply Forall_impl; [|exact Hf].
    intros t (H1 & H2 & H3). unfold attached. rewrite Ht, Hr. auto. }
  destruct (in_references input) as [[|r rs]|];
    (eexists _, newTags, _; split; [reflexivity|]; split; [reflexivity|];
     split; [exact Hm|]; apply Hf'; reflexivity).
Qed.

Section CreateTags.
Variable Number : str -> option Z.
Variable build : list str -> list TagTreeNode.


End CreateTags.


(** *** A second [upsert] with the same input *)

Lemma bind_ok {A B} (m : M A) (k : A -> M B) s a s1 :
  m s = (Ok a, s1) -> bind m k s = k a s1.
Proof. intros H. unfold bind. rewrite H. reflexivity. Qed.

Lemma find_hasRow tagId noteId rows :
  In (mkTagsToNote tagId noteId) rows ->
  exists r, find (hasRow tagId noteId) rows = Some r.
Proof.
  intros Hin. destruct (find (hasRow tagId noteId) rows) as [r|] eqn:F;
    [eauto|].
  pose proof (find_none _ _ F _ Hin) as Hc. unfold hasRow in Hc. cbn in Hc.
  rewrite !Z.eqb_refl in Hc. discriminate.
Qed.

(** On a store where the tags of a tree are settled, the loop finds
    them all and writes nothing. *)
Lemma rerun_node accountId noteId i :
  forall parent added nt s,
    mirrors parent i added ->
    Forall (settled accountId noteId s) added ->
    handleAddTags_node accountId noteId parent i nt s = (Ok (nt ++ added), s).
Proof.
  induction i as [name children IH] using TagTreeNode_induction.
  intros parent added nt s Hm Hs.
  apply mirrors_eq in Hm as (t & cs & -> & Hn & Hp & Hcs).
  apply Forall_app in Hs as [Hscs Hst].
  apply Forall_inv in Hst. destruct Hst as [Hfind Hrow].
  rewrite handleAddTags_node_eq.
  erewrite bind_ok;
    [|unfold tag_findFirst, bind, get, ret; rewrite <- Hn, <- Hp, Hfind;
      reflexivity].
  erewrite bind_ok; [|reflexivity].
  erewrite bind_ok.
  2:{ destruct (truthyZ noteId); [|reflexivity].
      unfold bind, tagsToNote_findFirst, bind, get, ret.
      destruct (find_hasRow _ _ _ Hrow) as [r ->]. reflexivity. }
  assert (Hloop : forall l cs nt,
            Forall (fun i => forall parent added nt s,
                      mirrors parent i added ->
                      Forall (settled accountId noteId s) added ->
                      handleAddTags_node accountId noteId parent i nt s
                      = (Ok (nt ++ added), s)) l ->
            mirrorsForest (tag_id t) l cs ->
            Forall (settled accountId noteId s) cs ->
            handleAddTags_loop accountId noteId (tag_id t) l nt s
            = (Ok (nt ++ cs), s)).
  { clear. intros l. induction l as [|c l IHl]; intros cs nt Hall Hm Hs.
    - cbn in Hm. subst cs. rewrite app_nil_r. reflexivity.
    - cbn [mirrorsForest] in Hm. destruct Hm as (a & b & -> & Ma & Mb).
      apply Forall_app in Hs as [Hsa Hsb].
      cbn [handleAddTags_loop].
      erewrite bind_ok; [|exact (Forall_inv Hall _ _ nt s Ma Hsa)].
      rewrite (IHl b (nt ++ a) (Forall_inv_tail Hall) Mb Hsb).
      rewrite app_assoc. reflexivity. }
  erewrite bind_ok; [|exact (Hloop children cs nt IH Hcs Hscs)].
  cbn [ret]. rewrite app_assoc. reflexivity.
Qed.

Lemma rerun accountId noteId tagTree newTags s :
  mirrorsForest 0 tagTree newTags ->
  Forall (settled accountId noteId s) newTags ->
  handleAddTags accountId tagTree noteId s = (Ok newTags, s).
Proof.
  unfold handleAddTags.
  assert (H : forall l cs nt,
            mirrorsForest 0 l cs -> Forall (settled accountId noteId s) cs ->
            handleAddTags_loop accountId noteId 0 l nt s = (Ok (nt ++ cs), s)).
  { intros l. induction l as [|c l IHl]; intros cs nt Hm Hs.
    - cbn in Hm. subst cs. rewrite app_nil_r. reflexivity.
    - cbn [mirrorsForest] in Hm. destruct Hm as (a & b & -> & Ma & Mb).
      apply Forall_app in Hs as [Hsa Hsb].
      cbn [handleAddTags_loop].
      erewrite bind_ok; [|exact (rerun_node _ _ c 0 a nt s Ma Hsa)].
      rewrite (IHl b (nt ++ a) Mb Hsb). rewrite app_assoc. reflexivity. }
  intros Hm Hs. exact (H tagTree newTags [] Hm Hs).
Qed.

Lemma settled_grows accountId noteId s s' t :
  grows s s' -> settled accountId noteId s t -> settled accountId noteId s' t.
Proof.
  intros (_ & [l E] & [l' E']) [H1 H2]. split.
  - rewrite E. apply find_app_some. exact H1.
  - rewrite E'. apply in_or_app. left. exact H2.
Qed.

Lemma Forall_settled_grows accountId noteId s s' ts :
  grows s s' -> Forall (settled accountId noteId s) ts ->
  Forall (settled accountId noteId s') ts.
Proof.
  intros X H. eapply Forall_impl; [|exact H].
  intros t. apply settled_grows, X.
Qed.

Lemma yields_tag_wf accountId parent name s :
  yields (found <- tag_findFirst name parent accountId ;;
          match found with
          | Some t => ret t
          | None => tag_create name parent accountId
          end) s
         (fun t s1 =>
            tag_name t = name /\ tag_parent t = parent
            /\ find (fun x => str_eqb (tag_name x) name
                              && (tag_parent x =? parent)
                              && (tag_accountId x =? accountId)) (tagT s1)
               = Some t
            /\ (forall x, In x (tagT s1) -> In x (tagT s) \/ x = t)
            /\ tagsToNoteT s1 = tagsToNoteT s
            /\ (wfTags s -> wfTags s1)).
Proof.
  unfold yields, bind, tag_findFirst, bind, get, ret.
  destruct (find _ (tagT s)) as [t|] eqn:Ef.
  - pose proof Ef as Ef'. apply find_some in Ef as [Hin Hp].
    apply andb_true_iff in Hp as [Hp Ha]. apply andb_true_iff in Hp as [Hn Hp].
    apply str_eqb_eq in Hn. apply Z.eqb_eq in Hp, Ha.
    exists t, s. split; [reflexivity|]. split; [apply grows_refl|].
    repeat (split; [assumption|]). auto.
  - unfold tag_create, bind, get, modify, ret.
    eexists _, _. split; [reflexivity|]. split.
    + split; [constructor; try reflexivity; cbn;
              auto using incl_refl, incl_appl|].
      split; cbn; [eexists; reflexivity | exists []; rewrite app_nil_r; reflexivity].
    + cbn. repeat (split; [reflexivity|]). split; [|split; [|split]].
      * rewrite (find_app_none _ _ _ Ef). cbn. rewrite !Z.eqb_refl.
        replace (str_eqb name name) with true; [reflexivity|].
        symmetry. apply str_eqb_eq. reflexivity.
      * intros x Hx. apply in_app_or in Hx as [Hx|[<-|[]]]; auto.
      * reflexivity.
      * intros (Hnd & Hall & Hpos). split; [|split]; cbn.
        -- rewrite map_app. cbn.
           apply NoDup_app_remove_l with (l := []). cbn.
           assert (Hfresh : ~ In (nextTagId s) (map tag_id (tagT s))).
           { intros Hin. apply in_map_iff in Hin as (x & Ex & Hx).
             rewrite Forall_forall in Hall. specialize (Hall x Hx). lia. }
           clear - Hnd Hfresh. revert Hnd Hfresh.
           induction (map tag_id (tagT s)) as [|a l IH]; intros Hnd Hfresh.
           ++ constructor; [intros []|constructor].
           ++ inversion Hnd; subst. cbn. constructor.
              ** intros Hin. apply in_app_or in Hin as [Hin|[Hin|[]]];
                   [contradiction|]. apply Hfresh. left. auto.
              ** apply IH; [assumption|]. intros Hin. apply Hfresh. right.
                 exact Hin.
        -- apply Forall_app. split.
           ++ eapply Forall_impl; [|exact Hall]. cbn. intros; lia.
           ++ constructor; [cbn; lia | constructor].
        -- lia.
Qed.

Lemma yields_relation_wf hasTag noteId s :
  truthyZ noteId = true ->
  yields (if truthyZ noteId then
            hasRelation <- tagsToNote_findFirst hasTag noteId ;;
            match hasRelation with
            | Some _ => ret tt
            | None => tagsToNote_create (tag_id hasTag) noteId
            end
          else ret tt) s
         (fun _ s1 =>
            In (mkTagsToNote (tag_id hasTag) noteId) (tagsToNoteT s1)
            /\ tagT s1 = tagT s /\ nextTagId s1 = nextTagId s
            /\ forall r, In r (tagsToNoteT s1) ->
                 In r (tagsToNoteT s)
                 \/ r = mkTagsToNote (tag_id hasTag) noteId).
Proof.
  intros Et. rewrite Et.
  unfold yields, bind, tagsToNote_findFirst, bind, get, ret.
  destruct (find _ (tagsToNoteT s)) as [r|] eqn:F.
  - exists tt, s. split; [reflexivity|]. split; [apply grows_refl|].
    split; [|auto]. apply find_some in F as [Hr1 Hr2].
    apply hasRow_eq in Hr2. subst r. exact Hr1.
  - unfold tagsToNote_create, bind, get, ret, modify.
    replace (existsb (hasRow (tag_id hasTag) noteId) (tagsToNoteT s)) with false.
    + eexists tt, _. split; [reflexivity|]. split.
      * split; [constructor; try reflexivity; cbn;
                auto using incl_refl, incl_appl|].
        split; cbn; [exists []; rewrite app_nil_r; reflexivity
                    | eexists; reflexivity].
      * cbn. split; [apply in_or_app; right; left; reflexivity|].
        split; [reflexivity|]. split; [reflexivity|].
        intros r Hr. apply in_app_or in Hr as [Hr|[<-|[]]]; auto.
    + symmetry. apply not_true_iff_false. intros H.
      apply existsb_exists in H as (r & Hr & H).
      apply (find_none _ _ F) in Hr. congruence.
Qed.

Lemma addsOnly_refl noteId s : addsOnly noteId [] s s.
Proof. unfold addsOnly. auto. Qed.

Lemma addsOnly_app noteId a b s1 s2 s3 :
  addsOnly noteId a s1 s2 -> addsOnly noteId b s2 s3 ->
  addsOnly noteId (a ++ b) s1 s3.
Proof.
  intros (A1 & A2 & A3) (B1 & B2 & B3). split; [|split].
  - intros t Ht. destruct (B1 t Ht) as [H|H].
    + destruct (A1 t H) as [H'|H']; [left; exact H'|].
      right. apply in_or_app. auto.
    + right. apply in_or_app. auto.
  - intros r Hr. destruct (B2 r Hr) as [H|(t & Ht & E)].
    + destruct (A2 r H) as [H'|(t & Ht & E)]; [left; exact H'|].
      right. exists t. split; [apply in_or_app; auto | exact E].
    + right. exists t. split; [apply in_or_app; auto | exact E].
  - auto.
Qed.

Section FirstRun.
Variables accountId noteId : Z.
Hypothesis noteId_truthy : truthyZ noteId = true.

Lemma loop_first_run l :
  Forall (fun i => forall parent newTags s,
            yields (handleAddTags_node accountId noteId parent i newTags) s
              (fun out s' => exists added,
                 out = newTags ++ added /\ mirrors parent i added
                 /\ Forall (settled accountId noteId s') added
                 /\ addsOnly noteId added s s')) l ->
  forall parent newTags s,
    yields (handleAddTags_loop accountId noteId parent l newTags) s
      (fun out s' => exists added,
         out = newTags ++ added /\ mirrorsForest parent l added
         /\ Forall (settled accountId noteId s') added
         /\ addsOnly noteId added s s').
Proof.
  intros IH parent. induction IH as [|c l Hc _ IHl]; intros newTags s;
    cbn [handleAddTags_loop].
  - apply yields_ret. exists []. rewrite app_nil_r.
    split; [reflexivity|]. split; [reflexivity|]. split; [constructor|].
    apply addsOnly_refl.
  - eapply yields_bind; [apply Hc|].
    intros out1 s3 X3 (a & -> & Ma & Fa & Aa).
    eapply yields_weaken; [|apply IHl].
    intros out2 s4 X4 (b & -> & Mb & Fb & Ab). exists (a ++ b).
    split; [rewrite app_assoc; reflexivity|]. split; [|split].
    + cbn [mirrorsForest]. exists a, b. auto.
    + apply Forall_app. split; [|exact Fb].
      exact (Forall_settled_grows _ _ _ _ _ X4 Fa).
    + exact (addsOnly_app _ _ _ _ _ _ Aa Ab).
Qed.

Lemma node_first_run i :
  forall parent newTags s,
    yields (handleAddTags_node accountId noteId parent i newTags) s
      (fun out s' => exists added,
         out = newTags ++ added /\ mirrors parent i added
         /\ Forall (settled accountId noteId s') added
         /\ addsOnly noteId added s s').
Proof.
  induction i as [name children IH] using TagTreeNode_induction.
  intros parent newTags s.
  eapply yields_ext; [apply handleAddTags_node_eq|].
  apply yields_assoc.
  eapply yields_bind; [apply yields_tag_wf|].
  intros t s1 X1 (Hn & Hp & Hfind & Htags & Hrows & Hwf).
  eapply yields_bind; [apply (yields_relation_wf t noteId s1 noteId_truthy)|].
  intros [] s2 X2 (Hrow & Ht2 & Hn2 & Hr2).
  eapply yields_bind; [apply (loop_first_run children IH)|].
  intros out s3 X3 (cs & -> & Mcs & Fcs & (C1 & C2 & C3)). apply yields_ret.
  exists (cs ++ [t]). split; [rewrite app_assoc; reflexivity|].
  split; [|split; [|split; [|split]]].
  - apply mirrors_eq. exists t, cs. auto.
  - apply Forall_app. split; [exact Fcs|]. constructor; [|constructor].
    apply (settled_grows _ _ s2 s3 t X3). split.
    + rewrite Hn, Hp, Ht2. exact Hfind.
    + exact Hrow.
  - intros x Hx. destruct (C1 x Hx) as [H|H].
    + rewrite Ht2 in H. destruct (Htags x H) as [H'| ->]; [left; exact H'|].
      right. apply in_or_app. right. left. reflexivity.
    + right. apply in_or_app. auto.
  - intros r Hr. destruct (C2 r Hr) as [H|(x & Hx & E)].
    + destruct (Hr2 r H) as [H'| ->].
      * rewrite Hrows in H'. left. exact H'.
      * right. exists t. split; [apply in_or_app; right; left; reflexivity|].
        reflexivity.
    + right. exists x. split; [apply in_or_app; auto | exact E].
  - intros W. apply C3. apply Hwf in W. destruct W as (W1 & W2 & W3).
    unfold wfTags. rewrite Ht2, Hn2. auto.
Qed.

Lemma handleAddTags_first_run tagTree s :
  exists newTags sA,
    handleAddTags accountId tagTree noteId s = (Ok newTags, sA)
    /\ grows s sA
    /\ mirrorsForest 0 tagTree newTags
    /\ Forall (settled accountId noteId sA) newTags
    /\ addsOnly noteId newTags s sA.
Proof.
  unfold handleAddTags.
  destruct (loop_first_run tagTree
              (proj2 (Forall_forall _ _) (fun i _ => node_first_run i))
              0 [] s)
    as (out & s' & E & X & added & -> & Hm & Hf & Ha).
  exists added, s'. auto.
Qed.

End FirstRun.

Lemma filter_all {A} (f : A -> bool) l :
  (forall x, In x l -> f x = true) -> filter f l = l.
Proof.
  induction l as [|a l IH]; intros H; cbn; [reflexivity|].
  rewrite (H a (or_introl eq_refl)). f_equal. apply IH.
  intros x Hx. apply H. right. exact Hx.
Qed.

Lemma find_filter_some {A} (p q : A -> bool) l x :
  find p l = Some x -> q x = true -> find p (filter q l) = Some x.
Proof.
  induction l as [|a l IH]; cbn; [discriminate|].
  destruct (p a) eqn:Ep.
  - intros [= ->] Hq. rewrite Hq. cbn. rewrite Ep. reflexivity.
  - intros H Hq. destruct (q a); cbn; [rewrite Ep|]; auto.
Qed.

Lemma NoDup_map_filter {A B} (g : A -> B) (q : A -> bool) l :
  NoDup (map g l) -> NoDup (map g (filter q l)).
Proof.
  induction l as [|a l IH]; cbn; [auto|]. intros H. inversion H; subst.
  destruct (q a); cbn; [constructor|]; auto.
  intros Hin. apply in_map_iff in Hin as (x & Ex & Hx).
  apply filter_In in Hx as [Hx _]. apply H2. rewrite <- Ex.
  apply in_map. exact Hx.
Qed.

Lemma NoDup_map_inj {A B} (g : A -> B) l x y :
  NoDup (map g l) -> In x l -> In y l -> g x = g y -> x = y.
Proof.
  induction l as [|a l IH]; cbn; [intros _ []|].
  intros H Hx Hy E. inversion H; subst.
  destruct Hx as [->|Hx], Hy as [->|Hy]; auto.
  - exfalso. apply H2. rewrite E. apply in_map. exact Hy.
  - exfalso. apply H2. rewrite <- E. apply in_map. exact Hx.
Qed.

Section Twice.
Variable Number : str -> option Z.
Hypothesis Number_showZ : forall z, Number (showZ z) = Some z.

Lemma mapM_found oldTags keys s :
  Forall (fun k => findByKey Number k oldTags <> None) keys ->
  mapM (fun i => match findByKey Number i oldTags with
                 | Some t => ret (tag_id t)
                 | None => throw TypeError
                 end) keys s
  = (Ok (idsOfKeys Number oldTags keys), s).
Proof.
  induction 1 as [|k keys Hk _ IH]; [reflexivity|].
  cbn [mapM idsOfKeys flat_map].
  destruct (findByKey Number k oldTags) as [t|]; [|contradiction].
  erewrite bind_ok; [|reflexivity]. erewrite bind_ok; [|exact IH].
  reflexivity.
Qed.

Lemma deleteRelationTags_found noteId oldTags keys s :
  Forall (fun k => findByKey Number k oldTags <> None) keys ->
  deleteRelationTags Number noteId oldTags keys s
  = (Ok tt,
     set_tagsToNote
       (filter (fun r => negb ((ttn_noteId r =? noteId)
                               && memZ (ttn_tagId r)
                                       (filter truthyZ (idsOfKeys Number oldTags keys)))))
       s).
Proof.
  intros H. unfold deleteRelationTags. destruct keys as [|k keys].
  - rewrite set_tagsToNote_filter_true; [reflexivity|].
    intros r. cbn. rewrite andb_false_r. reflexivity.
  - erewrite bind_ok; [|exact (mapM_found oldTags (k :: keys) s H)].
    reflexivity.
Qed.

Lemma addRelationTags_noop noteId newTags keys s :
  (forall t, In t newTags -> In (mkTagsToNote (tag_id t) noteId) (tagsToNoteT s)) ->
  addRelationTags Number noteId newTags keys s = (Ok tt, s).
Proof.
  intros H. unfold addRelationTags.
  induction keys as [|k keys IH]; [reflexivity|]. cbn [for_each].
  erewrite bind_ok; [exact IH|].
  destruct (findByKey Number k newTags) as [t|] eqn:Ef; [|reflexivity].
  destruct (truthyZ (tag_id t)); [|reflexivity].
  unfold findByKey in Ef. apply find_some in Ef as [Hin _].
  unfold try_catch, tagsToNote_create, bind, get, ret.
  replace (existsb (hasRow (tag_id t) noteId) (tagsToNoteT s)) with true;
    [reflexivity|].
  symmetry. apply existsb_exists. eexists. split; [apply H, Hin|].
  unfold hasRow. cbn. rewrite !Z.eqb_refl. reflexivity.
Qed.


Lemma In_noteTags s id t :
  In t (noteTags s id)
  <-> exists r, In r (tagsToNoteT s) /\ ttn_noteId r = id /\ tagOf s r = Some t.
Proof.
  unfold noteTags, tagsOf. rewrite in_flat_map. split.
  - intros (x & Hx & Ht). apply in_map_iff in Hx as (r & <- & Hr).
    cbn [snd] in Ht. destruct (tagOf s r) as [t0|] eqn:E; [|destruct Ht].
    destruct Ht as [->|[]]. apply filter_In in Hr as [Hr Hid].
    apply Z.eqb_eq in Hid. eauto.
  - intros (r & Hr & Hid & E). exists (r, tagOf s r). split.
    + apply in_map_iff. exists r. split; [reflexivity|].
      apply filter_In. split; [exact Hr | apply Z.eqb_eq, Hid].
    + cbn [snd]. rewrite E. left. reflexivity.
Qed.

Lemma find_witness {A} (p : A -> bool) l x :
  In x l -> p x = true -> exists y, find p l = Some y /\ In y l /\ p y = true.
Proof.
  intros Hx Hp. destruct (find p l) as [y|] eqn:F.
  - exists y. apply find_some in F as [H1 H2]. auto.
  - rewrite (find_none _ _ F _ Hx) in Hp. discriminate.
Qed.

Lemma noteTags_in_table s id t : In t (noteTags s id) -> In t (tagT s).
Proof.
  intros H. apply In_noteTags in H as (r & _ & _ & E).
  unfold tagOf in E. apply find_some in E as [E _]. exact E.
Qed.

Lemma tagOf_by_id s r t :
  NoDup (map tag_id (tagT s)) -> In t (tagT s) -> ttn_tagId r = tag_id t ->
  tagOf s r = Some t.
Proof.
  intros Hnd Ht E. unfold tagOf.
  destruct (find_witness (fun x => tag_id x =? ttn_tagId r) (tagT s) t Ht)
    as (y & F & Hy & Py); [apply Z.eqb_eq; auto|].
  rewrite F. f_equal. apply Z.eqb_eq in Py.
  apply (NoDup_map_inj tag_id (tagT s)); auto. congruence.
Qed.

Lemma differenceStr_nil a b :
  (forall x, In x a -> In x b) -> differenceStr a b = [].
Proof.
  intros H. destruct (differenceStr a b) as [|x l] eqn:E; [reflexivity|].
  assert (Hx : In x (differenceStr a b)) by (rewrite E; left; reflexivity).
  apply In_differenceStr in Hx as [H1 H2]. destruct (H2 (H x H1)).
Qed.

Lemma differenceZ_nil a b :
  (forall x, In x a -> In x b) -> differenceZ a b = [].
Proof.
  intros H. destruct (differenceZ a b) as [|x l] eqn:E; [reflexivity|].
  assert (Hx : In x (differenceZ a b)) by (rewrite E; left; reflexivity).
  apply In_differenceZ in Hx as [H1 H2]. destruct (H2 (H x H1)).
Qed.

Lemma set_tag_filter_all f s :
  (forall x, In x (tagT s) -> f x = true) -> set_tag (filter f) s = s.
Proof.
  intros H. destruct s; unfold set_tag; cbn in *. f_equal.
  apply filter_all, H.
Qed.

Lemma insertAttachments_total noteId atts s :
  insertAttachments noteId atts s
  = (Ok tt, snd (insertAttachments noteId atts s)).
Proof. rewrite insertAttachments_cases. reflexivity. Qed.

Lemma insertAttachments_tables noteId atts s :
  let s1 := snd (insertAttachments noteId atts s) in
  notesT s1 = notesT s /\ tagT s1 = tagT s
  /\ tagsToNoteT s1 = tagsToNoteT s /\ noteReferenceT s1 = noteReferenceT s.
Proof.
  cbv zeta. rewrite insertAttachments_cases. cbv zeta. cbn [snd].
  destruct (differenceStr _ _); cbn; auto.
Qed.

Lemma insertAttachments_again noteId atts s :
  let s1 := snd (insertAttachments noteId atts s) in
  insertAttachments noteId atts s1 = (Ok tt, s1).
Proof.
  cbv zeta. rewrite (insertAttachments_cases noteId atts s). cbv zeta.
  cbn [snd].
  remember (differenceStr (map ai_path atts) (pathsOf s noteId)) as need eqn:En.
  destruct need as [|n0 need'].
  - rewrite insertAttachments_cases. cbv zeta. rewrite <- En. reflexivity.
  - set (need := n0 :: need') in *.
    set (new := filter (fun t => memStr (ai_path t) need) atts).
    rewrite insertAttachments_cases. cbv zeta.
    unfold pathsOf at 1 2. cbn [attachmentsT].
    rewrite filter_app, map_app, numbered_ofNote, numbered_paths.
    fold (pathsOf s noteId).
    rewrite differenceStr_nil; [reflexivity|].
    intros p Hp. apply in_or_app.
    destruct (in_dec (list_eq_dec N.eq_dec) p (pathsOf s noteId))
      as [H|H]; [left; exact H | right].
    apply in_map_iff in Hp as (t & <- & Ht). apply in_map.
    apply filter_In. split; [exact Ht|]. apply memStr_In.
    rewrite En. apply In_differenceStr.
    split; [apply in_map; exact Ht | exact H].
Qed.

Lemma tagsToNote_findMany_ofNote_run noteId s :
  tagsToNote_findMany_ofNote noteId s
  = (Ok (map (fun r => (r, tagOf s r))
             (filter (fun r => ttn_noteId r =? noteId) (tagsToNoteT s))), s).
Proof. reflexivity. Qed.

Lemma noteReference_findMany_run noteId s :
  noteReference_findMany noteId s
  = (Ok (filter (fun r => ref_fromNoteId r =? noteId) (noteReferenceT s)), s).
Proof. reflexivity. Qed.

Variables ctx_id id : Z.
Hypothesis id_nz : id <> 0.

Lemma id_truthy : truthyZ id = true.
Proof. unfold truthyZ. apply negb_true_iff, Z.eqb_neq, id_nz. Qed.

(** On a store at rest the update branch returns the note and writes
    nothing. *)
Lemma reconcile_atRest tagTree atts references note s :
  note_id note = id ->
  atRest ctx_id id tagTree (orElse references []) atts s ->
  reconcile Number ctx_id tagTree atts references note s = (Ok (Some note), s).
Proof.
  intros Hid (newTags & Hm & Hset & Hold & Hnz & Href & Hatt).
  unfold reconcile. rewrite Hid.
  erewrite bind_ok; [|apply tagsToNote_findMany_ofNote_run].
  erewrite bind_ok; [|exact (rerun ctx_id id tagTree newTags s Hm Hset)].
  cbv zeta. fold (noteTags s id).
  erewrite bind_ok; [|apply noteReference_findMany_run].
  rewrite (differenceStr_nil (map keyString (noteTags s id))
             (map keyString newTags)).
  2:{ intros k Hk. apply in_map_iff in Hk as (t & <- & Ht). apply Hold, Ht. }
  erewrite bind_ok; [|reflexivity].
  erewrite bind_ok.
  2:{ apply addRelationTags_noop. intros t Ht.
      rewrite Forall_forall in Hset. apply (Hset t Ht). }
  rewrite differenceZ_nil; [|intros x Hx; apply Href, Hx].
  erewrite bind_ok; [|reflexivity].
  rewrite differenceZ_nil; [|intros x Hx; apply Href, Hx].
  erewrite bind_ok; [|reflexivity].
  erewrite bind_ok.
  2:{ rewrite deleteUnusedTags_run. rewrite set_tag_filter_all; [reflexivity|].
      intros t Ht. unfold keptByCleanup.
      apply negb_true_iff, andb_false_iff. left.
      apply not_true_iff_false. rewrite memZ_In, In_differenceZ.
      intros [H1 H2]. apply H2.
      apply in_map_iff in H1 as (t' & E & Ht').
      pose proof Ht' as Hold'.
      apply In_noteTags in Ht' as (r & Hr & Hrid & Er).
      unfold tagOf in Er. apply find_some in Er as [_ Er].
      apply Z.eqb_eq in Er.
      apply filter_In. split.
      - apply in_map_iff. exists r. split; [congruence|].
        apply filter_In. split; [exact Hr|]. apply memZ_In.
        rewrite <- Er. apply in_map_iff. exists t'. auto.
      - rewrite Forall_forall in Hnz. unfold truthyZ.
        apply negb_true_iff, Z.eqb_neq, Hnz, Ht. }
  erewrite bind_ok; [|exact Hatt]. reflexivity.
Qed.

Lemma keyString_eq t t' :
  tag_name t = tag_name t' -> tag_parent t = tag_parent t' ->
  keyString t = keyString t'.
Proof. unfold keyString. intros -> ->. reflexivity. Qed.

Section FirstCall.
Variable su : store.
Hypothesis wf_su : wfTags su.
Hypothesis old_noKey :
  Forall (fun t => noKey (tag_name t) = true) (noteTags su id).
Hypothesis old_distinct : forall t1 t2,
  In t1 (noteTags su id) -> In t2 (noteTags su id) ->
  tag_name t1 = tag_name t2 -> tag_parent t1 = tag_parent t2 ->
  tag_id t1 = tag_id t2.

(** Reading the key of an old tag back finds an old tag of the same
    name, parent and id. *)
Lemma old_lookup t :
  In t (noteTags su id) ->
  exists t0, findByKey Number (keyString t) (noteTags su id) = Some t0
             /\ In t0 (noteTags su id)
             /\ keyString t0 = keyString t /\ tag_id t0 = tag_id t.
Proof.
  intros Ht. rewrite Forall_forall in old_noKey.
  rewrite (findByKey_keyString Number Number_showZ t _ (old_noKey t Ht)).
  destruct (find_witness
              (fun t' => str_eqb (tag_name t') (tag_name t)
                         && (tag_parent t' =? tag_parent t))
              (noteTags su id) t Ht) as (t0 & F & H0 & P0).
  { apply andb_true_iff. split; [apply str_eqb_eq; reflexivity
                                | apply Z.eqb_refl]. }
  apply andb_true_iff in P0 as [P1 P2]. apply str_eqb_eq in P1.
  apply Z.eqb_eq in P2.
  exists t0. split; [exact F|]. split; [exact H0|].
  split; [apply keyString_eq; assumption | apply old_distinct; assumption].
Qed.

Lemma gone_sound newKeys x :
  In x (filter truthyZ
          (idsOfKeys Number (noteTags su id)
             (differenceStr (map keyString (noteTags su id)) newKeys))) ->
  exists t0, In t0 (noteTags su id) /\ tag_id t0 = x
             /\ ~ In (keyString t0) newKeys.
Proof.
  intros H. apply filter_In in H as [H _]. unfold idsOfKeys in H.
  apply in_flat_map in H as (k & Hk & Hx).
  apply In_differenceStr in Hk as [Hk Hnew].
  apply in_map_iff in Hk as (t & <- & Ht).
  destruct (old_lookup t Ht) as (t0 & F & H0 & K0 & _).
  rewrite F in Hx. destruct Hx as [<-|[]].
  exists t0. split; [exact H0|]. split; [reflexivity|]. rewrite K0. exact Hnew.
Qed.

Lemma gone_complete newKeys t :
  In t (noteTags su id) -> ~ In (keyString t) newKeys ->
  In (tag_id t)
     (filter truthyZ
        (idsOfKeys Number (noteTags su id)
           (differenceStr (map keyString (noteTags su id)) newKeys))).
Proof.
  intros Ht Hnew. apply filter_In. split.
  - unfold idsOfKeys. apply in_flat_map. exists (keyString t). split.
    + apply In_differenceStr. split; [apply in_map, Ht | exact Hnew].
    + destruct (old_lookup t Ht) as (t0 & F & _ & _ & E0). rewrite F.
      left. exact E0.
  - destruct wf_su as (_ & W & _). rewrite Forall_forall in W.
    pose proof (W t (noteTags_in_table _ _ _ Ht)) as Hpos.
    unfold truthyZ. apply negb_true_iff, Z.eqb_neq. lia.
Qed.

Lemma toDelete_found newKeys :
  Forall (fun k => findByKey Number k (noteTags su id) <> None)
         (differenceStr (map keyString (noteTags su id)) newKeys).
Proof.
  apply Forall_forall. intros k Hk.
  apply In_differenceStr in Hk as [Hk _].
  apply in_map_iff in Hk as (t & <- & Ht).
  destruct (old_lookup t Ht) as (t0 & F & _). rewrite F. discriminate.
Qed.

(** The first run of the update branch returns the note and leaves the
    store at rest. *)
Lemma reconcile_first tagTree atts references note :
  note_id note = id ->
  exists sF,
    reconcile Number ctx_id tagTree atts references note su
    = (Ok (Some note), sF)
    /\ atRest ctx_id id tagTree (orElse references []) atts sF
    /\ notesT sF = notesT su.
Proof.
  intros Hid.
  destruct (handleAddTags_first_run ctx_id id id_truthy tagTree su)
    as (newTags & sA & Erun & G & Hm & Hset & Hadd).
  pose proof G as (X & _ & _).
  destruct Hadd as (At & Ar & Aw).
  destruct (Aw wf_su) as (WA1 & WA2 & WA3).
  rewrite Forall_forall in WA2, Hset.
  assert (HinA : forall t, In t newTags -> In t (tagT sA)).
  { intros t Ht. destruct (Hset t Ht) as [F _].
    apply find_some in F as [F _]. exact F. }
  assert (Hpos : forall t, In t (tagT sA) -> truthyZ (tag_id t) = true).
  { intros t Ht. pose proof (WA2 t Ht). unfold truthyZ.
    apply negb_true_iff, Z.eqb_neq. lia. }
  set (oldTags := noteTags su id).
  set (newKeys := map keyString newTags).
  set (gone := filter truthyZ
                 (idsOfKeys Number oldTags
                    (differenceStr (map keyString oldTags) newKeys))).
  set (keepRow := fun r => negb ((ttn_noteId r =? id) && memZ (ttn_tagId r) gone)).
  set (rowsB := filter keepRow (tagsToNoteT sA)).
  set (kept := keptByCleanup ctx_id oldTags rowsB).
  (* K1: the rows of the new tags survive *)
  assert (K1 : forall t, In t newTags ->
                 In (mkTagsToNote (tag_id t) id) rowsB).
  { intros t Ht. apply filter_In. split; [apply (Hset t Ht)|].
    unfold keepRow. cbn [ttn_noteId ttn_tagId]. rewrite Z.eqb_refl.
    cbn [andb]. apply negb_true_iff, not_true_iff_false. rewrite memZ_In.
    intros Hg. apply gone_sound in Hg as (t0 & H0 & E0 & Hnew).
    apply Hnew. fold newKeys.
    assert (t0 = t) as ->.
    { apply (NoDup_map_inj tag_id (tagT sA)); auto.
      apply (ext_tags _ _ X), noteTags_in_table with (id := id), H0. }
    apply in_map, Ht. }
  (* K2: the cleanup keeps the new tags *)
  assert (K2 : forall t, In t newTags -> kept t = true).
  { intros t Ht. unfold kept, keptByCleanup.
    apply negb_true_iff, andb_false_iff. left.
    apply not_true_iff_false. rewrite memZ_In, In_differenceZ.
    intros [H1 H2]. apply H2. apply filter_In. split; [|apply Hpos, HinA, Ht].
    apply in_map_iff. exists (mkTagsToNote (tag_id t) id).
    split; [reflexivity|]. apply filter_In. split; [apply K1, Ht|].
    apply memZ_In. exact H1. }
  exists (snd (insertAttachments id atts
                 (set_tag (filter kept)
                    (set_noteReference
                       (filter (fun r =>
                          negb ((ref_fromNoteId r =? id)
                                && memZ (ref_toNoteId r)
                                     (differenceZ
                                        (map ref_toNoteId
                                           (filter (fun r => ref_fromNoteId r =? id)
                                                   (noteReferenceT sA)))
                                        (orElse references [])))))
                       (set_noteReference
                          (fun old => old ++ map (fun toNoteId => mkNoteReference id toNoteId)
                             (differenceZ (orElse references [])
                                (map ref_toNoteId
                                   (filter (fun r => ref_fromNoteId r =? id)
                                           (noteReferenceT sA)))))
                          (set_tagsToNote (filter keepRow) sA)))))).
  match goal with |- context [insertAttachments id atts ?x] => set (sD := x) end.
  destruct (insertAttachments_tables id atts sD) as (TN & TT & TR & TX).
  cbn [sD set_tag set_noteReference set_tagsToNote notesT tagT tagsToNoteT
       noteReferenceT] in TN, TT, TR, TX.
  fold rowsB in TR.
  split; [|split].
  - unfold reconcile. rewrite Hid.
    erewrite bind_ok; [|apply tagsToNote_findMany_ofNote_run].
    erewrite bind_ok; [|exact Erun].
    cbv zeta. fold (noteTags su id). fold oldTags. fold newKeys.
    erewrite bind_ok; [|apply noteReference_findMany_run].
    erewrite bind_ok; [|apply deleteRelationTags_found, toDelete_found].
    fold gone. fold keepRow.
    erewrite bind_ok.
    2:{ apply addRelationTags_noop. intros t Ht. apply K1, Ht. }
    erewrite bind_ok; [|apply addReferences_run].
    erewrite bind_ok; [|apply deleteReferences_run].
    erewrite bind_ok; [|apply deleteUnusedTags_run].
    erewrite bind_ok; [|apply insertAttachments_total].
    reflexivity.
  - exists newTags. split; [exact Hm|]. split; [|split; [|split; [|split]]].
    + apply Forall_forall. intros t Ht. destruct (Hset t Ht) as [F R].
      split.
      * rewrite TT. apply find_filter_some; [exact F | apply K2, Ht].
      * rewrite TR. apply K1, Ht.
    + intros t Ht. apply In_noteTags in Ht as (r & Hr & Hrid & Er).
      unfold tagOf in Er. apply find_some in Er as [Ht Er].
      apply Z.eqb_eq in Er. rewrite TT in Ht. apply filter_In in Ht as [Ht _].
      rewrite TR in Hr. apply filter_In in Hr as [Hr Hkeep].
      fold newKeys.
      destruct (At t Ht) as [Hsu | Hnew]; [|apply in_map, Hnew].
      destruct (Ar r Hr) as [Hrsu | (t' & Ht' & Er')].
      * destruct wf_su as (W1 & _ & _).
        assert (Hold : In t oldTags).
        { apply In_noteTags. exists r. split; [exact Hrsu|].
          split; [exact Hrid|]. apply tagOf_by_id; auto. }
        destruct (in_dec (list_eq_dec N.eq_dec) (keyString t) newKeys)
          as [Hin | Hout]; [exact Hin|].
        exfalso. pose proof (gone_complete newKeys t Hold Hout) as Hg.
        fold oldTags in Hg. fold gone in Hg.
        unfold keepRow in Hkeep. rewrite Hrid, Z.eqb_refl in Hkeep.
        cbn [andb] in Hkeep. apply negb_true_iff in Hkeep.
        rewrite <- Er in Hkeep. apply memZ_In in Hg. congruence.
      * assert (t = t') as ->.
        { apply (NoDup_map_inj tag_id (tagT sA)); auto.
          rewrite Er' in Er. cbn in Er. exact Er. }
        apply in_map, Ht'.
    + apply Forall_forall. intros t Ht. rewrite TT in Ht.
      apply filter_In in Ht as [Ht _]. pose proof (WA2 t Ht). lia.
    + intros x. rewrite TX.
      exact (referencesAfter_set id (orElse references []) (noteReferenceT sA) x).
    + apply insertAttachments_again.
  - rewrite TN. apply (ext_notes _ _ X).
Qed.

End FirstCall.
End Twice.

Lemma notes_update_found id accountId data s n :
  find (fun n => (note_id n =? id) && (note_accountId n =? accountId))
       (notesT s) = Some n ->
  notes_update id accountId data s
  = (Ok (applyUpdate data n),
     set_notes (updateFirst
                  (fun n => (note_id n =? id) && (note_accountId n =? accountId))
                  (applyUpdate data)) s).
Proof. intros F. unfold notes_update, bind, get. rewrite F. reflexivity. Qed.



Lemma keyString_inj t t' :
  keyString t = keyString t' ->
  tag_name t = tag_name t' /\ tag_parent t = tag_parent t'.
Proof.
  unfold keyString. intros E.
  apply (f_equal (@rev _)) in E. rewrite !rev_app_distr in E.
  change (rev (lit "<key>")) with (62%N :: [121; 101; 107; 60]%N) in E.
  rewrite <- !app_assoc in E. cbn [app] in E.
  apply first_occurrence in E as [E1 E2].
  - apply (f_equal (@rev _)) in E1. rewrite !rev_involutive in E1.
    injection E2 as E2. apply (f_equal (@rev _)) in E2.
    rewrite !rev_involutive in E2.
    split; [exact E2 | apply showZ_inj, E1].
  - rewrite <- in_rev. apply showZ_noGt.
  - rewrite <- in_rev. apply showZ_noGt.
Qed.



End NoteFacts.
